(** * treecall: the tree estimator [bin/tree_est.py]

    A shallow embedding of the tree-construction core of [tree_est.py]
    (Phred utilities, mutation matrix, distance matrix, neighbor joining,
    likelihood propagation, rerooting and nearest-neighbor interchange)
    together with the properties its specification states about it.

    Numbers.  numpy's [longdouble]/[float64] values are idealised: the
    Phred utilities and the likelihood arrays are stated over the real
    numbers [R] (they use [10**x] and [log10]); neighbor joining, which
    only adds, subtracts, divides and compares, is stated over the
    rationals [Q], where it can be run.  Rounding, overflow and NaN are
    outside the model.

    Errors.  Python exceptions are results [Raise e]; a function that
    returns normally gives [Ok v]. *)

From Stdlib Require Import Reals Lra Lia List ZArith QArith Bool Arith.
From Stdlib Require Import Ascii String DecimalString Decimal DecimalNat.
From Stdlib Require Import Permutation Sorted.
From Stdlib Require DecimalPos.
Import ListNotations.

Set Implicit Arguments.

(** ** Python results *)

(** The exceptions the program can raise.  [OutOfModel] is not a Python
    exception: it marks a run that leaves the fragment of Python this
    embedding covers. *)
Inductive exn : Type :=
| TypeError
| ValueError
| IndexError
| AttributeError
| UnboundLocalError
| OutOfModel.

Inductive result (A : Type) : Type :=
| Ok (a : A)
| Raise (e : exn).

Arguments Ok {A} a.
Arguments Raise {A} e.

Definition bind {A B : Type} (r : result A) (k : A -> result B) : result B :=
  match r with
  | Ok a => k a
  | Raise e => Raise e
  end.

Declare Scope py_scope.
Delimit Scope py_scope with py.
Notation "x <- r ;; k" := (bind r (fun x => k))
  (at level 61, r at next level, right associativity) : py_scope.
Notation "' p <- r ;; k" := (bind r (fun x => match x with p => k end))
  (at level 61, p pattern, r at next level, right associativity) : py_scope.

Definition is_ok {A : Type} (r : result A) : bool :=
  match r with Ok _ => true | Raise _ => false end.

(** [x[i]] on a Python list or a numpy axis, for [0 <= i]. *)
Definition index {A : Type} (l : list A) (i : nat) : result A :=
  match nth_error l i with
  | Some a => Ok a
  | None => Raise IndexError
  end.


(** A list without its entry at position [k]. *)
Fixpoint remove_nth {A : Type} (k : nat) (l : list A) : list A :=
  match l, k with
  | [], _ => []
  | _ :: l', O => l'
  | a :: l', S k' => a :: remove_nth k' l'
  end.

(** Running a fallible function over a list, left to right. *)
Fixpoint mapM {A B : Type} (f : A -> result B) (l : list A) : result (list B) :=
  match l with
  | [] => Ok []
  | a :: l' => (b <- f a ;; bs <- mapM f l' ;; Ok (b :: bs))%py
  end.

(** Reading an attribute that was attached to an object at run time:
    [AttributeError] when it was never set. *)
Definition attr {A : Type} (o : option A) : result A :=
  match o with
  | Some a => Ok a
  | None => Raise AttributeError
  end.


(** ** 4.1 Phred utilities (over the reals) *)

Module Phred.
Local Open Scope R_scope.

Definition vector := list R.
Definition matrix := list (list R).

(** [x.sum()] of a one-dimensional array. *)
Definition rsum (x : vector) : R := fold_right Rplus 0 x.

Definition log10 (x : R) : R := Rlog 10 x.

(** [def p2phred(x): return -10.0*np.log10(x)] *)
Definition p2phred (x : R) : R := -10 * log10 x.

(** [def phred2p(x): return 10.0**(-x/10.0)] *)
Definition phred2p (x : R) : R := Rpower 10 (- x / 10).

(** [def sum_PL(x, axis=None): return p2phred(phred2p(x).sum(axis=axis))] *)
Definition sum_PL (x : vector) : R := p2phred (rsum (map phred2p x)).

(** [def normalize_PL(x):
       p = 10.0**(-x/10.0)
       return -10.0*np.log10(p/p.sum())] *)
Definition normalize_PL (x : vector) : vector :=
  let p := map (fun v => Rpower 10 (- v / 10)) x in
  map (fun pv => -10 * log10 (pv / rsum p)) p.

(** [def normalize2d_PL(x):
       p = 10.0**(-x/10.0)
       return -10.0*np.log10(p/p.sum(axis=1)[:,None])]
    Every row is divided by its own sum. *)
Definition normalize2d_PL (x : matrix) : matrix :=
  let p := map (map (fun v => Rpower 10 (- v / 10))) x in
  map (fun row => map (fun pv => -10 * log10 (pv / rsum row)) row) p.

(** [PLs[:,i]]: the (site x genotype) slice of sample [i]. *)
Definition sample (PLs : list matrix) (i : nat) : matrix :=
  map (fun site => nth i site []) PLs.

(** Element-wise [a + b] of two arrays of one shape. *)
Definition vadd (a b : vector) : vector := map (fun ab => fst ab + snd ab) (combine a b).
Definition madd (a b : matrix) : matrix := map (fun ab => vadd (fst ab) (snd ab)) (combine a b).

(** [def pairwise_diff(PLs, i, j):
       pli = normalize2d_PL(PLs[:,i])
       plj = normalize2d_PL(PLs[:,j])
       p = phred2p(pli+plj) # n x g
       return (1-p.sum(axis=1)).sum()] *)
Definition pairwise_diff (PLs : list matrix) (i j : nat) : R :=
  let pli := normalize2d_PL (sample PLs i) in
  let plj := normalize2d_PL (sample PLs j) in
  let p := map (map phred2p) (madd pli plj) in
  rsum (map (fun row => 1 - rsum row) p).

(** Arrays indexed in place: [x[k] = f(x[k])], [D[i,j] = v], [D[i,j]]. *)
Fixpoint upd {A : Type} (k : nat) (f : A -> A) (l : list A) : list A :=
  match l, k with
  | [], _ => []
  | a :: l', O => f a :: l'
  | a :: l', S k' => a :: upd k' f l'
  end.

Definition mset (i j : nat) (v : R) (D : matrix) : matrix :=
  upd i (upd j (fun _ => v)) D.

Definition mget (D : matrix) (i j : nat) : R := nth j (nth i D []) 0.

(** [np.zeros(shape=(r,c))] *)
Definition zeros (r c : nat) : matrix := repeat (repeat 0 c) r.

(** [itertools.combinations(xrange(m),2)]: the pairs [i < j < m] in
    lexicographic order. *)
Definition combinations2 (m : nat) : list (nat * nat) :=
  flat_map (fun i => map (fun j => (i, j)) (seq (S i) (m - S i))) (seq 0 m).

(** The body of the loop of [make_D]:
    [D[i,j] = pairwise_diff(PLs, i, j); D[j,i] = D[i,j]]. *)
Definition make_D_step (PLs : list matrix) (D : matrix) (ij : nat * nat) : matrix :=
  let '(i, j) := ij in
  let D1 := mset i j (pairwise_diff PLs i j) D in
  mset j i (mget D1 i j) D1.

(** [def make_D(PLs):
       n,m,g = PLs.shape   #n_site,n_smpl,n_gtype
       D = np.zeros(shape=(2*m-2,2*m-2), dtype=np.longdouble)
       for i,j in itertools.combinations(xrange(m),2):
           D[i,j] = pairwise_diff(PLs, i, j)
           D[j,i] = D[i,j]
       return D]
    [m] is [PLs.shape[1]], the number of samples; [np.zeros] refuses the
    negative dimension [2*0-2]. *)
Definition make_D (m : nat) (PLs : list matrix) : result matrix :=
  match m with
  | O => Raise ValueError
  | _ => Ok (fold_left (make_D_step PLs) (combinations2 m)
                       (zeros (2 * m - 2) (2 * m - 2)))
  end.

(** A [dim] x [dim] array. *)
Definition square (dim : nat) (D : matrix) : Prop :=
  List.length D = dim /\ forall r, In r D -> List.length r = dim.

(** The probability distribution of a Phred vector: [phred2p] of every
    entry, divided by their sum. *)
Definition prob (x : vector) : vector :=
  let p := map phred2p x in
  map (fun pv => pv / rsum p) p.

(** Element-wise product of two vectors. *)
Definition vmul (a b : vector) : vector := map (fun ab => fst ab * snd ab) (combine a b).

(** What [pairwise_diff] accumulates, in probability space: per site,
    one minus the sum over genotypes of the product of the two
    distributions. *)
Definition site_product_distance (PLi PLj : matrix) : R :=
  rsum (map (fun rr => 1 - rsum (vmul (prob (fst rr)) (prob (snd rr)))) (combine PLi PLj)).

(** The distance as the specification words it (section 4.1,
    [pairwise_site_distance]): normalize each vector to a probability
    distribution, sum the two distributions per site, and accumulate
    [1 - sum over genotypes] across sites. *)
Definition pairwise_site_distance (PLi PLj : matrix) : R :=
  rsum (map (fun rr => 1 - rsum (vadd (prob (fst rr)) (prob (snd rr)))) (combine PLi PLj)).

(** Adding the constant [c] to every entry of a vector, and to the
    entries of one row of a matrix. *)
Definition shift (c : R) (x : vector) : vector := map (fun v => v + c) x.

Fixpoint shift_row (r : nat) (c : R) (x : matrix) : matrix :=
  match x, r with
  | [], _ => []
  | row :: rest, O => shift c row :: rest
  | row :: rest, S r' => row :: shift_row r' c rest
  end.

(** Adding [c] to the Phred vector of sample [i] at site [s]. *)
Fixpoint shift_sample (s i : nat) (c : R) (PLs : list matrix) : list matrix :=
  match PLs, s with
  | [], _ => []
  | site :: rest, O => shift_row i c site :: rest
  | site :: rest, S s' => site :: shift_sample s' i c rest
  end.

(** One site, two samples, every genotype equally likely. *)
Definition PLs_flat : list matrix := [[[0; 0; 0]; [0; 0; 0]]].

End Phred.


(** ** 4.2 Mutation model *)

Module MutMatrix.
Import Phred.
Local Open Scope R_scope.

(** [editdistance.eval]: the Levenshtein distance of two strings
    (insertions, deletions and substitutions cost one each). *)
Fixpoint lev (s : list ascii) : list ascii -> nat :=
  match s with
  | [] => fun t => List.length t
  | a :: s' =>
    fix lev_a (t : list ascii) : nat :=
      match t with
      | [] => S (List.length s')
      | b :: t' =>
        Nat.min (Nat.min (S (lev s' t)) (S (lev_a t')))
                ((if Ascii.eqb a b then 0 else 1) + lev s' t')
      end
  end.

Definition strdist (s t : list ascii) : nat := lev s t.

(** [def gtype_distance(gt):
       n = len(gt)
       gt_dist = np.zeros((n,n), dtype=int)
       for i,gi in enumerate(gt):
           for j,gj in enumerate(gt):
               gt_dist[i,j] = min(int(strdist(gi,gj)),int(strdist(gi,gj[::-1])))
       return gt_dist] *)
Definition gtype_distance (gt : list string) : list (list nat) :=
  map (fun gi =>
         map (fun gj =>
                let si := list_ascii_of_string gi in
                let sj := list_ascii_of_string gj in
                Nat.min (strdist si sj) (strdist si (List.rev sj)))
             gt)
      gt.

(** [mm.sum(axis=0)]: the sum of every column. *)
Definition column (j : nat) (M : matrix) : vector := map (fun row => nth j row 0) M.
Definition colsums (M : matrix) : vector :=
  map (fun j => rsum (column j M)) (seq 0 (List.length (hd [] M))).

(** [np.fill_diagonal(M, vals)] for a square [M] and one value per row. *)
Definition fill_diagonal (M : matrix) (vals : vector) : matrix :=
  map (fun ir => upd (fst ir) (fun _ => nth (fst ir) vals 0) (snd ir))
      (combine (seq 0 (List.length M)) M).

(** [M.diagonal()] and [np.diagflat(v)]. *)
Definition diagonal (M : matrix) : vector :=
  map (fun ir => nth (fst ir) (snd ir) 0) (combine (seq 0 (List.length M)) M).

Definition diagflat (v : vector) : matrix :=
  let n := List.length v in
  map (fun i => map (fun j => if Nat.eqb i j then nth i v 0 else 0) (seq 0 n)) (seq 0 n).

(** Element-wise [A - B]. *)
Definition vsub (a b : vector) : vector := map (fun ab => fst ab - snd ab) (combine a b).
Definition msub (A B : matrix) : matrix := map (fun ab => vsub (fst ab) (snd ab)) (combine A B).

(** [def make_mut_matrix(mu, gtypes):
       pmu = phred2p(mu)  #80 -> 10e-08
       gt_dist = gtype_distance(gtypes)
       mm = pmu**gt_dist
       np.fill_diagonal(mm, 2.0-mm.sum(axis=0))
       mm0 = np.diagflat(mm.diagonal())
       mm1 = mm - mm0
       return mm,mm0,mm1] *)
Definition make_mut_matrix (mu : R) (gtypes : list string) : matrix * matrix * matrix :=
  let pmu := phred2p mu in
  let gt_dist := gtype_distance gtypes in
  let mm := map (map (fun d => pmu ^ d)) gt_dist in
  let mm := fill_diagonal mm (map (fun s => 2 - s) (colsums mm)) in
  let mm0 := diagflat (diagonal mm) in
  let mm1 := msub mm mm0 in
  (mm, mm0, mm1).

(** [GTYPE3 = np.array(('RR','RA','AA'))] *)
Definition GTYPE3 : list string := ["RR"%string; "RA"%string; "AA"%string].

(** Row [i] of a matrix, and the three components of the result. *)
Definition row (i : nat) (M : matrix) : vector := nth i M [].
Definition mm_of (r : matrix * matrix * matrix) : matrix := fst (fst r).
Definition mm0_of (r : matrix * matrix * matrix) : matrix := snd (fst r).
Definition mm1_of (r : matrix * matrix * matrix) : matrix := snd r.

End MutMatrix.

(** ** 4.4 Neighbor joining (over the rationals) *)

Module NJ.
Local Open Scope Q_scope.
#[local] Set Warnings "-register-all".

Definition qmatrix := list (list Q).

(** An [ete2] tree node: its name, the branch length to its parent and
    its children ([up] is the position in the enclosing tree). *)
Inductive Tree : Type :=
| Node (name : string) (dist : Q) (children : list Tree).

Definition name (t : Tree) : string := let 'Node n _ _ := t in n.
Definition dist (t : Tree) : Q := let 'Node _ d _ := t in d.
Definition children (t : Tree) : list Tree := let 'Node _ _ cs := t in cs.

(** [ete2]'s defaults for a fresh node. *)
Definition DEFAULT_NAME : string := "NoName".
Definition DEFAULT_DIST : Q := 1.

(** [str(n)] of a non-negative integer. *)
Definition str (n : nat) : string := NilEmpty.string_of_uint (Nat.to_uint n).

(** [node.is_leaf()] and [len(node)], the number of leaves under a node. *)
Definition is_leaf (t : Tree) : bool :=
  match children t with [] => true | _ => false end.

Fixpoint n_leaves (t : Tree) : nat :=
  match t with
  | Node _ _ [] => 1
  | Node _ _ cs => list_sum (map n_leaves cs)
  end.

(** Number of nodes with children in a tree (the root included when it
    has children), and the test that every such node has exactly two. *)
Fixpoint n_internal (t : Tree) : nat :=
  match t with
  | Node _ _ [] => 0
  | Node _ _ cs => S (list_sum (map n_internal cs))
  end.

Fixpoint is_binary (t : Tree) : bool :=
  match t with
  | Node _ _ cs =>
    (match cs with [] => true | [_; _] => true | _ => false end)
    && forallb is_binary cs
  end.

(** All branch lengths below the root of a tree. *)
Fixpoint branch_lengths (t : Tree) : list Q :=
  match t with
  | Node _ _ cs => flat_map (fun c => dist c :: branch_lengths c) cs
  end.

(** [def init_star_tree(n):
       tree = Tree()
       for i in xrange(n):
           tree.add_child(name=str(i))
       return tree] *)
Definition init_star_tree (n : nat) : Tree :=
  Node DEFAULT_NAME DEFAULT_DIST
       (map (fun i => Node (str i) DEFAULT_DIST []) (seq 0 n)).

(** [np.arange(n)] *)
Definition arange (n : nat) : list nat := seq 0 n.

(** *** Positions in a tree *)

Definition path := list nat.

(** The nodes at depth [d], left to right, each with its path. *)
Fixpoint at_depth (d : nat) (t : Tree) : list (path * Tree) :=
  match d with
  | O => [([], t)]
  | S d' =>
    flat_map (fun kc => map (fun pn => (fst kc :: fst pn, snd pn)) (at_depth d' (snd kc)))
             (combine (seq 0 (List.length (children t))) (children t))
  end.

Fixpoint height (t : Tree) : nat :=
  match t with
  | Node _ _ cs => fold_right (fun c h => Nat.max (S (height c)) h) 0%nat cs
  end.

(** [tree.traverse()], level order. *)
Definition levelorder (t : Tree) : list (path * Tree) :=
  flat_map (fun d => at_depth d t) (seq 0 (S (height t))).

(** [tree&name]: the first node in level order with that name;
    [ValueError("Node not found")] when there is none. *)
Definition search_name (t : Tree) (s : string) : result path :=
  match find (fun pn => String.eqb (name (snd pn)) s) (levelorder t) with
  | Some pn => Ok (fst pn)
  | None => Raise ValueError
  end.

(** Cutting out the subtree at a non-empty path: the subtree and what
    is left. *)
Fixpoint cut (p : path) (t : Tree) : option (Tree * Tree) :=
  match p with
  | [] => None
  | [k] =>
    match nth_error (children t) k with
    | Some c => Some (c, Node (name t) (dist t) (remove_nth k (children t)))
    | None => None
    end
  | k :: p' =>
    match nth_error (children t) k with
    | Some c =>
      match cut p' c with
      | Some (sub, c') =>
        Some (sub, Node (name t) (dist t)
                        (firstn k (children t) ++ c' :: skipn (S k) (children t)))
      | None => None
      end
    | None => None
    end
  end.

Fixpoint is_prefix (p q : path) : bool :=
  match p, q with
  | [], _ => true
  | a :: p', b :: q' => Nat.eqb a b && is_prefix p' q'
  | _ :: _, [] => false
  end.

Fixpoint lex_lt (p q : path) : bool :=
  match p, q with
  | [], _ :: _ => true
  | a :: p', b :: q' => Nat.ltb a b || (Nat.eqb a b && lex_lt p' q')
  | _, [] => false
  end.

(** [ci.detach(); cj.detach()] for the nodes at [pi] and [pj].  When the
    two nodes are one node, or one lies inside the other, the Python
    objects alias; that is left out of the model. *)
Definition detach2 (pi pj : path) (t : Tree) : result (Tree * Tree * Tree) :=
  if is_prefix pi pj || is_prefix pj pi then Raise OutOfModel
  else if lex_lt pi pj then
    match cut pj t with
    | Some (cj, t1) =>
      match cut pi t1 with
      | Some (ci, t2) => Ok (ci, cj, t2)
      | None => Raise OutOfModel
      end
    | None => Raise OutOfModel
    end
  else
    match cut pi t with
    | Some (ci, t1) =>
      match cut pj t1 with
      | Some (cj, t2) => Ok (ci, cj, t2)
      | None => Raise OutOfModel
      end
    | None => Raise OutOfModel
    end.

(** [node.add_child(child, dist=d)] and [node.add_child(child)]. *)
Definition set_dist (d : Q) (t : Tree) : Tree := Node (name t) d (children t).
Definition add_child (t child : Tree) : Tree :=
  Node (name t) (dist t) (children t ++ [child]).

(** *** Arrays *)

Definition qsum (x : list Q) : Q := fold_right Qplus 0 x.

Definition get (D : qmatrix) (i j : nat) : Q := nth j (nth i D []) 0.

Definition set (i j : nat) (v : Q) (D : qmatrix) : qmatrix :=
  Phred.upd i (Phred.upd j (fun _ => v)) D.

(** [D[a,b]] exists: [a] is a row of [D] and [b] a column of it. *)
Definition in_bounds (D : qmatrix) (a b : nat) : bool :=
  Nat.ltb a (List.length D) && Nat.ltb b (List.length (nth a D [])).

(** [D[internals[:,None],internals]]: the sub-matrix of the active
    nodes; an index past the end of an axis of [D] raises
    [IndexError]. *)
Definition gather (D : qmatrix) (internals : list nat) : result qmatrix :=
  if forallb (fun a => forallb (fun b => in_bounds D a b) internals) internals
  then Ok (map (fun a => map (fun b => get D a b) internals) internals)
  else Raise IndexError.

(** Entries of [Q]: a rational or [np.inf]. *)
Inductive ext : Type :=
| Fin (q : Q)
| PInf.

Definition ext_lt (x y : ext) : bool :=
  match x, y with
  | Fin a, Fin b => match a ?= b with Lt => true | _ => false end
  | Fin _, PInf => true
  | PInf, _ => false
  end.

(** [Q = np.zeros((m,m)); for i,j in combinations(xrange(m),2):
       Q[i,j] = d[i,j]-u[i]-u[j]; Q[j,i] = Q[i,j]
     np.fill_diagonal(Q, np.inf)] *)
Definition Qmatrix (d : qmatrix) (u : list Q) (m : nat) : list (list ext) :=
  map (fun a =>
         map (fun b =>
                if Nat.eqb a b then PInf
                else if Nat.ltb a b
                     then Fin (get d a b - nth a u 0 - nth b u 0)
                     else Fin (get d b a - nth b u 0 - nth a u 0))
             (seq 0 m))
      (seq 0 m).

(** The entries of a two-dimensional array in row-major order, each
    with its index pair. *)
Definition entries {A : Type} (M : list (list A)) : list (nat * nat * A) :=
  flat_map (fun ir => map (fun jv => (fst ir, fst jv, snd jv))
                          (combine (seq 0 (List.length (snd ir))) (snd ir)))
           (combine (seq 0 (List.length M)) M).

(** [np.unravel_index(Q.argmin(), (m,m))]: the index pair of the first
    minimum in row-major order (a later entry replaces the best one only
    when it is strictly smaller); [argmin] of an empty array raises
    [ValueError]. *)
Definition better (best x : nat * nat * ext) : nat * nat * ext :=
  if ext_lt (snd x) (snd best) then x else best.

Definition argmin2 (M : list (list ext)) : result (nat * nat) :=
  match entries M with
  | [] => Raise ValueError
  | e :: es => Ok (fst (fold_left better es e))
  end.

(** [int(v)]: truncation towards zero. *)
Definition int (v : Q) : Z := Z.quot (Qnum v) (Zpos (Qden v)).

(** [np.delete(internals, [i,j])]: the array without its entries at
    positions [i] and [j]. *)
Definition delete2 {A : Type} (internals : list A) (i j : nat) : list A :=
  if Nat.eqb i j then remove_nth i internals
  else if Nat.ltb i j then remove_nth i (remove_nth j internals)
  else remove_nth j (remove_nth i internals).

(** The state of the loop of [neighbor_joining]. *)
Record state : Type := mkState {
  st_D : qmatrix;
  st_tree : Tree;
  st_internals : list nat
}.

(** What one pass of the loop computes before it touches [D] and the
    tree: [d], [u], the joined pair and the index of the new node. *)
Record choice : Type := mkChoice {
  ch_d : qmatrix;
  ch_u : list Q;
  ch_i : nat;
  ch_j : nat;
  ch_l : nat
}.

(** [d = D[internals[:,None],internals]
     u = d.sum(axis=1)/(m-2)
     Q = ...
     i,j = np.unravel_index(Q.argmin(), (m,m))
     l = len(D)+2-m]
    A negative [l] would index [D] from its end; that is left out of
    the model. *)
Definition choose (D : qmatrix) (internals : list nat) : result choice :=
  let m := List.length internals in
  (d <- gather D internals ;;
   let u := map (fun row => qsum row / inject_Z (Z.of_nat (m - 2))) d in
   ij <- argmin2 (Qmatrix d u m) ;;
   if Nat.ltb (List.length D + 2) m then Raise OutOfModel
   else Ok (mkChoice d u (fst ij) (snd ij) (List.length D + 2 - m)))%py.

Definition vi (c : choice) : Q :=
  (get (ch_d c) (ch_i c) (ch_j c) + nth (ch_i c) (ch_u c) 0 - nth (ch_j c) (ch_u c) 0) / 2.
Definition vj (c : choice) : Q :=
  (get (ch_d c) (ch_i c) (ch_j c) + nth (ch_j c) (ch_u c) 0 - nth (ch_i c) (ch_u c) 0) / 2.

(** [for k in xrange(m):
       D[l,internals[k]] = D[internals[k],l] = d[i,k]+d[j,k]-d[i,j]
     D[l,internals[i]] = D[internals[i],l] = vi = (d[i,j]+u[i]-u[j])/2
     D[l,internals[j]] = D[internals[j],l] = vj = (d[i,j]+u[j]-u[i])/2] *)
Definition new_distance (c : choice) (k : nat) : Q :=
  get (ch_d c) (ch_i c) k + get (ch_d c) (ch_j c) k - get (ch_d c) (ch_i c) (ch_j c).

Definition store_pair (l a : nat) (v : Q) (D : qmatrix) : qmatrix :=
  set a l v (set l a v D).

Definition update_D (c : choice) (internals : list nat) (D : qmatrix) : qmatrix :=
  let l := ch_l c in
  let D1 :=
    fold_left (fun D' ka => store_pair l (snd ka) (new_distance c (fst ka)) D')
              (combine (seq 0 (List.length internals)) internals) D in
  let D2 := store_pair l (nth (ch_i c) internals 0%nat) (vi c) D1 in
  store_pair l (nth (ch_j c) internals 0%nat) (vj c) D2.

(** [ci = tree&str(internals[i])
     cj = tree&str(internals[j])
     ci.detach()
     cj.detach()
     node = Tree(name=str(l))
     node.add_child(ci,dist=int(vi))
     node.add_child(cj,dist=int(vj))
     tree.add_child(node)] *)
Definition join (c : choice) (internals : list nat) (tree : Tree) : result Tree :=
  (ii <- index internals (ch_i c) ;;
   jj <- index internals (ch_j c) ;;
   pi <- search_name tree (str ii) ;;
   pj <- search_name tree (str jj) ;;
   '(ci, cj, rest) <- detach2 pi pj tree ;;
   let node := Node (str (ch_l c)) DEFAULT_DIST
                    [set_dist (inject_Z (int (vi c))) ci;
                     set_dist (inject_Z (int (vj c))) cj] in
   Ok (add_child rest node))%py.

(** The entries the pass assigns to, [D[l,internals[k]]] and
    [D[internals[k],l]] for every [k], exist; numpy raises
    [IndexError] at the first that does not. *)
Definition writable (D : qmatrix) (l : nat) (internals : list nat) : bool :=
  forallb (fun a => in_bounds D l a && in_bounds D a l) internals.

(** One pass of the loop body. *)
Definition nj_step (s : state) : result state :=
  (c <- choose (st_D s) (st_internals s) ;;
   if writable (st_D s) (ch_l c) (st_internals s) then
     let D' := update_D c (st_internals s) (st_D s) in
     tree' <- join c (st_internals s) (st_tree s) ;;
     let internals' := delete2 (st_internals s) (ch_i c) (ch_j c) ++ [ch_l c] in
     Ok (mkState D' tree' internals')
   else Raise IndexError)%py.

(** [m = len(internals)
     while m > 2: ...; m = len(internals)
     return tree]
    Every pass that joins two different nodes shortens [internals] by
    one, so [len(internals)] passes are enough; running out of them
    stands for a loop that does not end. *)
Fixpoint nj_loop (fuel : nat) (s : state) : result state :=
  if Nat.ltb 2 (List.length (st_internals s)) then
    match fuel with
    | O => Raise OutOfModel
    | S fuel' => (s' <- nj_step s ;; nj_loop fuel' s')%py
    end
  else Ok s.

Definition neighbor_joining (D : qmatrix) (tree : Tree) (internals : list nat) : result Tree :=
  (s <- nj_loop (List.length internals) (mkState D tree internals) ;; Ok (st_tree s))%py.

(** A [dim] x [dim] array. *)
Definition square (dim : nat) (D : qmatrix) : Prop :=
  List.length D = dim /\ Forall (fun r => List.length r = dim) D.

(** What every pass of the loop keeps true when it starts from the star
    tree over [m0] samples and a square array: the array stays square;
    the children of the root are the active
    nodes, in the order of [internals] and named after them; the active
    indices are distinct and below the next fresh index; every subtree
    hanging from the root is binary; no leaf is lost and every pass adds
    one node with children. *)
Definition nj_inv (m0 : nat) (s : state) : Prop :=
  let m := List.length (st_internals s) in
  let cs := children (st_tree s) in
  (square (2 * m0 - 2) (st_D s) /\
   2 <= m <= m0 /\
   name (st_tree s) = DEFAULT_NAME /\
   map name cs = map str (st_internals s) /\
   NoDup (st_internals s) /\
   Forall (fun k => k < 2 * m0 - m) (st_internals s) /\
   forallb is_binary cs = true /\
   list_sum (map n_leaves cs) = m0 /\
   list_sum (map n_internal cs) = m0 - m)%nat.

(** [D[a,b] == D[b,a]] and [D[a,b] >= 0] for all entries. *)
Definition symmetric_nonneg (D : qmatrix) : bool :=
  forallb (fun a =>
             forallb (fun b => Qeq_bool (get D a b) (get D b a) && Qle_bool 0 (get D a b))
                     (seq 0 (List.length D)))
          (seq 0 (List.length D)).

(** Three leaves at distances 1, 10 and 1 (symmetric, non-negative),
    in the 4 x 4 array neighbor joining works in. *)
Definition D3 : qmatrix :=
  [[0; 1; 10; 0]; [1; 0; 1; 0]; [10; 1; 0; 0]; [0; 0; 0; 0]].

(** Four leaves: two close pairs at distance 2, the pairs 4 apart. *)
Definition D4 : qmatrix :=
  [[0; 2; 4; 4; 0; 0]; [2; 0; 4; 4; 0; 0]; [4; 4; 0; 2; 0; 0];
   [4; 4; 2; 0; 0; 0]; [0; 0; 0; 0; 0; 0]; [0; 0; 0; 0; 0; 0]].

End NJ.

(** ** 4.5 Likelihood propagation (over the reals) *)

Module Lik.
Import Phred.
Local Open Scope nat_scope.
#[local] Set Warnings "-register-all".

(** A stack of (site x genotype) matrices, as [PLm] is. *)
Definition tensor := list matrix.

(** An [ete2] node with the attributes the program attaches to it:
    [sid], [PL0] and [PLm] exist only once they have been set. *)
Inductive Tree : Type :=
| TreeNode (name : string) (sid : option (list Z)) (PL0 : option matrix)
           (PLm : option tensor) (children : list Tree).

Definition name (t : Tree) : string := let 'TreeNode n _ _ _ _ := t in n.
Definition sid (t : Tree) : option (list Z) := let 'TreeNode _ s _ _ _ := t in s.
Definition PL0 (t : Tree) : option matrix := let 'TreeNode _ _ p _ _ := t in p.
Definition PLm (t : Tree) : option tensor := let 'TreeNode _ _ _ p _ := t in p.
Definition children (t : Tree) : list Tree := let 'TreeNode _ _ _ _ cs := t in cs.

Definition set_sid (s : list Z) (t : Tree) : Tree :=
  TreeNode (name t) (Some s) (PL0 t) (PLm t) (children t).

(** [node.is_leaf()], [len(node)] (the number of leaves under the
    node) and [node.get_leaf_names()]. *)
Definition is_leaf (t : Tree) : bool :=
  match children t with [] => true | _ => false end.

Fixpoint len (t : Tree) : nat :=
  match t with
  | TreeNode _ _ _ _ [] => 1
  | TreeNode _ _ _ _ cs => list_sum (map len cs)
  end.

Fixpoint get_leaf_names (t : Tree) : list string :=
  match t with
  | TreeNode n _ _ _ [] => [n]
  | TreeNode _ _ _ _ cs => flat_map get_leaf_names cs
  end.

(** *** [int] of a string

    [int(s)] drops the white space at both ends of [s] and reads an
    optional sign followed by decimal digits; any other string is
    refused with [ValueError].  Strings that versions of Python read
    differently are outside the model: those with an underscore, with
    the letter L (the mark of a long) or with a character that is
    neither printable ASCII nor white space, and those with white
    space right after the sign. *)
Definition is_space (c : ascii) : bool :=
  let n := nat_of_ascii c in Nat.eqb n 32 || (Nat.leb 9 n && Nat.leb n 13).

Definition modelled (c : ascii) : bool :=
  let n := nat_of_ascii c in
  (is_space c || (Nat.leb 33 n && Nat.leb n 126))
  && negb (Nat.eqb n 95 || Nat.eqb n 76 || Nat.eqb n 108).

Fixpoint lstrip (l : list ascii) : list ascii :=
  match l with
  | c :: l' => if is_space c then lstrip l' else l
  | [] => []
  end.

Definition strip (l : list ascii) : list ascii :=
  List.rev (lstrip (List.rev (lstrip l))).

(** The value of a non-empty row of decimal digits. *)
Definition digits (l : list ascii) : option Z :=
  match NilZero.uint_of_string (string_of_list_ascii l) with
  | Some d => Some (Z.of_uint d)
  | None => None
  end.

Definition int (s : string) : result Z :=
  let l := list_ascii_of_string s in
  if negb (forallb modelled l) then Raise OutOfModel
  else
    match strip l with
    | [] => Raise ValueError
    | c :: r =>
      let signed := Ascii.eqb c "-"%char || Ascii.eqb c "+"%char in
      if signed && match r with d :: _ => is_space d | [] => false end
      then Raise OutOfModel
      else
        match digits (if signed then r else c :: r) with
        | Some z => Ok (if Ascii.eqb c "-"%char then (- z)%Z else z)
        | None => Raise ValueError
        end
    end.

(** [sorted] on integers. *)
Fixpoint insert (z : Z) (l : list Z) : list Z :=
  match l with
  | [] => [z]
  | y :: l' => if Z.leb z y then z :: l else y :: insert z l'
  end.

Definition sorted (l : list Z) : list Z := fold_right insert [] l.

(** [sorted(map(int,child.get_leaf_names()))] *)
Definition leaf_sid (t : Tree) : result (list Z) :=
  (zs <- mapM int (get_leaf_names t) ;; Ok (sorted zs))%py.

(** *** numpy on arrays of one shape

    The arrays of one run share the number of sites and of genotypes;
    an operation on arrays of different shapes raises [ValueError]
    (numpy's stretching of axes of length one is not used by the
    program and not modelled). *)

Definition shape (M : matrix) : nat * nat := (List.length M, List.length (hd [] M)).

Definition same_shape (A B : matrix) : bool :=
  Nat.eqb (List.length A) (List.length B)
  && forallb (fun ab => Nat.eqb (List.length (fst ab)) (List.length (snd ab))) (combine A B).

Definition vadd_chk (a b : vector) : result vector :=
  if Nat.eqb (List.length a) (List.length b) then Ok (vadd a b) else Raise ValueError.

Definition madd_chk (A B : matrix) : result matrix :=
  if same_shape A B then Ok (madd A B) else Raise ValueError.

(** [np.dot(X, mm)] for a (site x genotype) [X] and a square [mm]. *)
Definition dot_row (x : vector) (mm : matrix) : result vector :=
  if Nat.eqb (List.length x) (List.length mm)
  then Ok (map (fun j => rsum (map (fun xr => (fst xr * nth j (snd xr) 0)%R) (combine x mm)))
               (seq 0 (List.length (hd [] mm))))
  else Raise ValueError.

Definition dot (X mm : matrix) : result matrix := mapM (fun x => dot_row x mm) X.

(** [p2phred(np.dot(phred2p(X), mm))], for a matrix and for a stack. *)
Definition channel (mm X : matrix) : result matrix :=
  (Y <- dot (map (map phred2p) X) mm ;; Ok (map (map p2phred) Y))%py.

Definition channel3 (mm : matrix) (T : tensor) : result tensor := mapM (channel mm) T.

(** [T[i:i+len(X)] = X] and [T[i] = M]. *)
Definition write_rows (T : tensor) (i : nat) (X : tensor) : result tensor :=
  if Nat.leb (i + List.length X) (List.length T)
     && forallb (fun tx => same_shape (fst tx) (snd tx)) (combine (skipn i T) X)
  then Ok (firstn i T ++ X ++ skipn (i + List.length X) T)
  else Raise ValueError.

Definition write_row (T : tensor) (i : nat) (M : matrix) : result tensor :=
  match nth_error T i with
  | None => Raise IndexError
  | Some old =>
    if same_shape old M then Ok (firstn i T ++ M :: skipn (S i) T)
    else Raise ValueError
  end.

(** *** Filling [PLm]

    [i = 0
     for child in node.children:
         sister = child.get_sisters()[0]
         if not child.is_leaf():
             l = child.PLm.shape[0]
             node.PLm[i:(i+l)] = p2phred(np.dot(phred2p(child.PLm), mm0))
                                 + p2phred(np.dot(phred2p(sister.PL0), mm0))
             i += l
         node.PLm[i] = p2phred(np.dot(phred2p(child.PL0), mm1))
                       + p2phred(np.dot(phred2p(sister.PL0), mm0))
         i += 1]
    [all] are the children of the node, [k] the position of the next
    child [todo] starts with, [T] the current [node.PLm]. *)
Fixpoint fill_PLm (mm0 mm1 : matrix) (all : list Tree) (k : nat) (todo : list Tree)
         (i : nat) (T : tensor) : result tensor :=
  match todo with
  | [] => Ok T
  | child :: rest =>
    (sister <- index (remove_nth k all) 0 ;;
     iT <- (if is_leaf child then Ok (i, T)
            else
              cPLm <- attr (PLm child) ;;
              a <- channel3 mm0 cPLm ;;
              sP0 <- attr (PL0 sister) ;;
              b <- channel mm0 sP0 ;;
              X <- mapM (fun M => madd_chk M b) a ;;
              T' <- write_rows T i X ;;
              Ok (i + List.length cPLm, T')) ;;
     cP0 <- attr (PL0 child) ;;
     a <- channel mm1 cP0 ;;
     sP0 <- attr (PL0 sister) ;;
     b <- channel mm0 sP0 ;;
     M <- madd_chk a b ;;
     T2 <- write_row (snd iT) (fst iT) M ;;
     fill_PLm mm0 mm1 all (S k) rest (S (fst iT)) T2)%py
  end.

(** [np.zeros((l,n,g))] *)
Definition zeros3 (l n g : nat) : tensor := repeat (zeros n g) l.

(** *** [update_PL] *)

Section Refresh.
Variables mm0 mm1 : matrix.
Variable update : Tree -> result Tree.

(** [sid = sorted(map(int,child.get_leaf_names()))
     if child.sid != sid:
         update_PL(child, mm0, mm1)
         child.sid = sid] *)
Definition refresh_child (child : Tree) : result Tree :=
  (s <- leaf_sid child ;;
   cs <- attr (sid child) ;;
   if list_eq_dec Z.eq_dec cs s then Ok child
   else child' <- update child ;; Ok (set_sid s child'))%py.

(** [for child in node.children:
         ... (refresh the child) ...
         node.PL0 += p2phred(np.dot(phred2p(child.PL0), mm0))] *)
Fixpoint sum_children (cs : list Tree) (acc : matrix) : result (list Tree * matrix) :=
  match cs with
  | [] => Ok ([], acc)
  | child :: rest =>
    (child' <- refresh_child child ;;
     cP0 <- attr (PL0 child') ;;
     t <- channel mm0 cP0 ;;
     acc' <- madd_chk acc t ;;
     r <- sum_children rest acc' ;;
     Ok (child' :: fst r, snd r))%py
  end.

End Refresh.

(** [def update_PL(node, mm0, mm1):
       n,g = node.PL0.shape
       l = 2*len(node)-2
       node.PL0.fill(0.0)
       node.PLm = np.zeros((l,n,g), dtype=np.longdouble)
       for child in node.children: ...
       i = 0
       for child in node.children: ...]
    The node is changed in place; the result is the node after the
    call.  A leaf's [PL0] is a view of the input array [PLs], which
    [fill] would overwrite as well; [PLs] is not part of the model. *)
Fixpoint update_PL (mm0 mm1 : matrix) (node : Tree) : result Tree :=
  match node with
  | TreeNode nm s pl0 plm cs =>
    (P0 <- attr pl0 ;;
     let n := fst (shape P0) in
     let g := snd (shape P0) in
     let l := 2 * len node - 2 in
     r <- sum_children mm0 (update_PL mm0 mm1) cs (zeros n g) ;;
     T <- fill_PLm mm0 mm1 (fst r) 0 (fst r) 0 (zeros3 l n g) ;;
     Ok (TreeNode nm s (Some (snd r)) (Some T) (fst r)))%py
  end.

(** *** [calc_mut_likelihoods] *)

(** [for node in tree.traverse(strategy='postorder'):
         if not node.is_leaf():
             node.PLm = np.zeros((2*len(node)-2,n,g), dtype=np.longdouble)] *)
Fixpoint alloc_PLm (n g : nat) (t : Tree) : Tree :=
  match t with
  | TreeNode nm s pl0 plm [] => t
  | TreeNode nm s pl0 plm cs =>
    TreeNode nm s pl0 (Some (zeros3 (2 * len t - 2) n g)) (map (alloc_PLm n g) cs)
  end.

(** [for node in tree.traverse(strategy='postorder'): i = 0; for child in
    node.children: ...]: the children are filled before their parent;
    a node without children is passed over. *)
Fixpoint fill_tree (mm0 mm1 : matrix) (t : Tree) : result Tree :=
  match t with
  | TreeNode nm s pl0 plm cs =>
    (cs' <- mapM (fill_tree mm0 mm1) cs ;;
     match cs' with
     | [] => Ok (TreeNode nm s pl0 plm [])
     | _ =>
       T <- attr plm ;;
       T' <- fill_PLm mm0 mm1 cs' 0 cs' 0 T ;;
       Ok (TreeNode nm s pl0 (Some T') cs')
     end)%py
  end.

(** [def calc_mut_likelihoods(tree, mm0, mm1):
       n,g = tree.PL0.shape
       for node in ...: (allocate)
       for node in ...: (fill)
       return tree] *)
Definition calc_mut_likelihoods (mm0 mm1 : matrix) (tree : Tree) : result Tree :=
  (P0 <- attr (PL0 tree) ;;
   fill_tree mm0 mm1 (alloc_PLm (fst (shape P0)) (snd (shape P0)) tree))%py.

(** *** The row-count invariant *)



(** A child is stale when its recorded [sid] differs from its leaves. *)
Definition stale (t : Tree) : bool :=
  match leaf_sid t, sid t with
  | Ok s, Some cs => if list_eq_dec Z.eq_dec cs s then false else true
  | _, _ => false
  end.


(** What a refresh leaves alone: the number of leaves, the leaf names
    and the number of children of a node. *)
Definition same_skeleton (t t' : Tree) : Prop :=
  len t' = len t /\ get_leaf_names t' = get_leaf_names t /\
  List.length (children t') = List.length (children t).

(** *** A small populated tree: one site, three genotypes, two samples *)

Definition mm0_ex : matrix := [[1; 0; 0]; [0; 1; 0]; [0; 0; 1]]%R.
Definition mm1_ex : matrix := [[0; 1; 1]; [1; 0; 1]; [1; 1; 0]]%R.

Definition leaf0 : Tree := TreeNode "0" (Some [0%Z]) (Some [[0; 10; 20]]%R) None [].
Definition leaf1 : Tree := TreeNode "1" (Some [1%Z]) (Some [[20; 10; 0]]%R) None [].
Definition leaf2 : Tree := TreeNode "2" (Some [2%Z]) (Some [[10; 0; 10]]%R) None [].

(** The cherry [(0,1)] and the tree [((0,1),2)], with [PL0] set on
    every node and no [PLm] yet. *)
Definition cherry : Tree :=
  TreeNode "" (Some [0%Z; 1%Z]) (Some [[0; 0; 0]]%R) None [leaf0; leaf1].
Definition tree3 : Tree :=
  TreeNode "" (Some [0%Z; 1%Z; 2%Z]) (Some [[0; 0; 0]]%R) None [cherry; leaf2].

(** [tree3] after its two subtrees have been exchanged for [(0,2)] and
    [1] while the recorded [sid]s still describe the old grouping. *)
Definition tree3_edited : Tree :=
  TreeNode "" (Some [0%Z; 1%Z; 2%Z]) (Some [[0; 0; 0]]%R) (Some (zeros3 4 1 3))
           [TreeNode "" (Some [0%Z; 1%Z]) (Some [[0; 0; 0]]%R) (Some (zeros3 2 1 3))
                     [leaf0; leaf2];
            leaf1].

End Lik.

(** ** 4.6 - 4.10 Scoring and local search *)

Module Search.
Import Phred Lik.
Local Open Scope nat_scope.
#[local] Set Warnings "-register-all".

(** *** Python values and calls

    Trees, arrays, numbers, [None] and tuples are what the search
    procedures pass to and return from one another.  A call of a
    function with another number of arguments than it has parameters
    raises [TypeError]; unpacking a tuple into another number of names
    than it has items raises [ValueError]. *)
Inductive pyval : Type :=
| VNone
| VInt (z : Z)
| VFloat (r : R)
| VArray (M : matrix)
| VVector (v : vector)
| VTree (t : Tree)
| VTuple (vs : list pyval).

(** [a, b = v] ([k = 2]) and [a, b, c = v] ([k = 3]). *)
Definition unpack (k : nat) (v : pyval) : result (list pyval) :=
  match v with
  | VTuple vs => if Nat.eqb (List.length vs) k then Ok vs else Raise ValueError
  | VNone | VInt _ | VFloat _ => Raise TypeError
  | _ => Raise OutOfModel
  end.

Definition as_tree (v : pyval) : result Tree :=
  match v with VTree t => Ok t | _ => Raise OutOfModel end.
Definition as_float (v : pyval) : result R :=
  match v with VFloat r => Ok r | _ => Raise OutOfModel end.

(** *** Positions in a tree *)

Definition path := list nat.

Definition with_children (t : Tree) (cs : list Tree) : Tree :=
  TreeNode (name t) (sid t) (PL0 t) (PLm t) cs.

Fixpoint subtree (t : Tree) (p : path) : result Tree :=
  match p with
  | [] => Ok t
  | k :: p' =>
    match nth_error (children t) k with
    | Some c => subtree c p'
    | None => Raise OutOfModel
    end
  end.

(** [tree.traverse('postorder')] as positions; [iter_descendants]
    leaves the root out. *)
Fixpoint postorder (t : Tree) : list path :=
  match t with
  | TreeNode _ _ _ _ cs =>
    (fix go (k : nat) (cs : list Tree) : list path :=
       match cs with
       | [] => []
       | c :: cs' => map (cons k) (postorder c) ++ go (S k) cs'
       end) 0 cs ++ [[]]
  end.

Definition iter_descendants (t : Tree) : list path := removelast (postorder t).

(** The nodes at depth [d], left to right, and [tree.traverse()]. *)
Fixpoint paths_at_depth (d : nat) (t : Tree) : list (path * Tree) :=
  match d with
  | O => [([], t)]
  | S d' =>
    flat_map (fun kc => map (fun pn => (fst kc :: fst pn, snd pn)) (paths_at_depth d' (snd kc)))
             (combine (seq 0 (List.length (children t))) (children t))
  end.

Fixpoint height (t : Tree) : nat :=
  match t with
  | TreeNode _ _ _ _ cs => fold_right (fun c h => Nat.max (S (height c)) h) 0 cs
  end.

Definition levelorder (t : Tree) : list (path * Tree) :=
  flat_map (fun d => paths_at_depth d t) (seq 0 (S (height t))).

(** [tree.search_nodes(sid=s)[0]]: the first node in level order that
    has a [sid] equal to [s]. *)
Definition has_sid (s : list Z) (t : Tree) : bool :=
  match sid t with
  | Some s' => if list_eq_dec Z.eq_dec s' s then true else false
  | None => false
  end.

Definition search_sid (t : Tree) (s : list Z) : result path :=
  match find (fun pn => has_sid s (snd pn)) (levelorder t) with
  | Some pn => Ok (fst pn)
  | None => Raise IndexError
  end.

(** *** [ete2]'s [set_outgroup]

    The outgroup becomes the first child of the root.  On the way from
    the root to the outgroup every node loses the child that leads to
    the outgroup and, from the second node on, takes its former parent
    as last child; the first takes the rest of the root.  When the root
    has more than one other child they are grouped under a fresh node,
    which has none of the program's attributes. *)
Definition fresh_node (cs : list Tree) : Tree := TreeNode "NoName" None None None cs.

Fixpoint hang (v : Tree) (p : path) (extra : Tree) : result (Tree * Tree) :=
  match p with
  | [] => Raise OutOfModel
  | [k] =>
    (x <- index (children v) k ;;
     Ok (x, with_children v (remove_nth k (children v) ++ [extra])))%py
  | k :: p' =>
    (c <- index (children v) k ;;
     hang c p' (with_children v (remove_nth k (children v) ++ [extra])))%py
  end.

Definition set_outgroup (t : Tree) (p : path) : result Tree :=
  match p with
  | [] => Raise ValueError
  | k :: p' =>
    (n <- index (children t) k ;;
     let others := remove_nth k (children t) in
     let connector := match others with [c] => c | _ => fresh_node others end in
     match p' with
     | [] => Ok (with_children t [n; connector])
     | _ => r <- hang n p' connector ;; Ok (with_children t [fst r; snd r])
     end)%py
  end.

(** *** 4.6 [score] *)

(** [phred2p(row+base_prior).sum()] for the genotypes of one site. *)
Definition site_p (base_prior row : vector) : result R :=
  (v <- vadd_chk row base_prior ;; Ok (rsum (map phred2p v)))%py.

(** [def score(tree, base_prior):
       Pm = phred2p(tree.PLm+base_prior).sum(axis=(0,2))
       P0 = phred2p(tree.PL0+base_prior).sum(axis=1)
       return p2phred(Pm+P0).sum()] *)
Definition score (tree : Tree) (base_prior : vector) : result R :=
  (T <- attr (PLm tree) ;;
   P0 <- attr (PL0 tree) ;;
   rows <- mapM (mapM (site_p base_prior)) T ;;
   Pm <- (fix sum_rows (rows : list vector) (acc : vector) : result vector :=
            match rows with
            | [] => Ok acc
            | r :: rows' => acc' <- vadd_chk acc r ;; sum_rows rows' acc'
            end) rows (repeat 0%R (List.length P0)) ;;
   p0 <- mapM (site_p base_prior) P0 ;;
   s <- vadd_chk Pm p0 ;;
   Ok (rsum (map p2phred s)))%py.

(** *** 4.7 [reroot] *)

Section Reroot.
Variables (tree : Tree) (mm0 mm1 : matrix) (base_prior : vector) (DELTA : R).

(** [tree_reroot = tree.copy()
     new_root = tree_reroot.search_nodes(sid=node.sid)[0]
     tree_reroot.set_outgroup(new_root)
     update_PL(tree_reroot, mm0, mm1)
     PL_reroot = score(tree_reroot, base_prior)] *)
Definition candidate (node : Tree) : result (Tree * R) :=
  (s <- attr (sid node) ;;
   p <- search_sid tree s ;;
   t1 <- set_outgroup tree p ;;
   t2 <- update_PL mm0 mm1 t1 ;;
   pl <- score t2 base_prior ;;
   Ok (t2, pl))%py.

(** [if PL_reroot < best_PL * (1-DELTA):
         best_tree = tree_reroot; best_PL = PL_reroot; flag = 1] *)
Definition accept (best : Tree * R * Z) (cand : Tree * R) : Tree * R * Z :=
  if Rlt_dec (snd cand) (snd (fst best) * (1 - DELTA))%R
  then (fst cand, snd cand, 1%Z)
  else best.

Fixpoint reroot_loop (nodes : list Tree) (best : Tree * R * Z) : result (Tree * R * Z) :=
  match nodes with
  | [] => Ok best
  | node :: rest => (c <- candidate node ;; reroot_loop rest (accept best c))%py
  end.

(** [best_tree = tree; best_PL = score(tree, base_prior); flag = 0
     for node in tree.iter_descendants('postorder'): ...
     return best_tree,best_PL,flag] *)
Definition reroot_body : result pyval :=
  (best_PL <- score tree base_prior ;;
   nodes <- mapM (subtree tree) (iter_descendants tree) ;;
   r <- reroot_loop nodes (tree, best_PL, 0%Z) ;;
   Ok (VTuple [VTree (fst (fst r)); VFloat (snd (fst r)); VInt (snd r)]))%py.

End Reroot.

(** Scoring the tree and every candidate rerooting succeed; then
    [reroot] returns, whatever the comparisons with [DELTA] decide. *)
Definition reroot_runs (tree : Tree) (mm0 mm1 : matrix) (bp : vector) : bool :=
  is_ok (score tree bp)
  && match mapM (subtree tree) (iter_descendants tree) with
     | Ok nodes => forallb (fun n => is_ok (candidate tree mm0 mm1 bp n)) nodes
     | Raise _ => false
     end.

(** [def reroot(tree, mm0, mm1, base_prior,DELTA)]: five parameters,
    none with a default. *)
Definition reroot (args : list pyval) : result pyval :=
  match args with
  | [a1; a2; a3; a4; a5] =>
    match a1, a2, a3, a4, a5 with
    | VTree tree, VArray mm0, VArray mm1, VVector base_prior, VFloat DELTA =>
      reroot_body tree mm0 mm1 base_prior DELTA
    | _, _, _, _, _ => Raise OutOfModel
    end
  | _ => Raise TypeError
  end.

(** *** 4.8 [recursive_reroot] *)

(** [parent = node.up; parent.remove_child(node); parent.add_child(new)]
    for the node at a non-empty path. *)
Fixpoint regraft (t : Tree) (p : path) (new : Tree) : result Tree :=
  match p with
  | [] => Raise AttributeError
  | [k] =>
    if Nat.ltb k (List.length (children t))
    then Ok (with_children t (remove_nth k (children t) ++ [new]))
    else Raise OutOfModel
  | k :: p' =>
    match nth_error (children t) k with
    | Some c =>
      (c' <- regraft c p' new ;;
       Ok (with_children t (firstn k (children t) ++ c' :: skipn (S k) (children t))))%py
    | None => Raise OutOfModel
    end
  end.

(** Where the node at [q] is after the node at [p] has been taken out
    of its parent: the later children of that parent move up by one. *)
Fixpoint shift_after (p q : path) : path :=
  match p, q with
  | [k], k' :: q' => if Nat.ltb k k' then (k' - 1) :: q' else q
  | k :: p', k' :: q' => if Nat.eqb k k' then k' :: shift_after p' q' else q
  | _, _ => q
  end.

(** The position now of the node that was at [q] when the traversal was
    laid out, after the moves [moved] (oldest first). *)
Definition position (moved : list path) (q : path) : path :=
  fold_left (fun q' p => shift_after p q') moved q.

Section RecursiveReroot.
Variables (mm0 mm1 : matrix) (base_prior : vector) (DELTA : R).

(** [for node in tree.iter_descendants('postorder'):
         if node.is_leaf():
             continue
         new_node,new_PL = reroot(node,mm0,mm1,base_prior,DELTA)
         parent = node.up
         parent.remove_child(node)
         parent.add_child(new_node)
         update_PL(tree, mm0, mm1)]
    The traversal was laid out before the loop; [moved] records the
    nodes regrafted so far, which the positions still to visit follow. *)
Fixpoint reroot_sweep (todo : list path) (moved : list path) (tree : Tree) : result Tree :=
  match todo with
  | [] => Ok tree
  | q :: rest =>
    let p := position moved q in
    (node <- subtree tree p ;;
     if is_leaf node then reroot_sweep rest moved tree
     else
       r <- reroot [VTree node; VArray mm0; VArray mm1; VVector base_prior; VFloat DELTA] ;;
       vs <- unpack 2 r ;;
       new_node <- as_tree (nth 0 vs VNone) ;;
       t1 <- regraft tree p new_node ;;
       t2 <- update_PL mm0 mm1 t1 ;;
       reroot_sweep rest (moved ++ [p]) t2)%py
  end.

(** [def recursive_reroot(tree, mm0, mm1, base_prior,DELTA):
       for node in ...: ...
       new_tree,new_PL = reroot(tree, mm0, mm1, base_prior,DELTA)
       return new_tree,new_PL] *)
Definition recursive_reroot (tree : Tree) : result pyval :=
  (t <- reroot_sweep (iter_descendants tree) [] tree ;;
   r <- reroot [VTree t; VArray mm0; VArray mm1; VVector base_prior; VFloat DELTA] ;;
   vs <- unpack 2 r ;;
   Ok (VTuple [nth 0 vs VNone; nth 1 vs VNone]))%py.

End RecursiveReroot.

(** *** 4.9 [nearest_neighbor_interchange] *)

(** [a, b = node.children] *)
Definition two_children (t : Tree) : result (Tree * Tree) :=
  match children t with
  | [a; b] => Ok (a, b)
  | _ => Raise ValueError
  end.

Section NNI.
Variables (mm0 mm1 : matrix) (base_prior : vector) (DELTA : R).

(** [node_copy = node.copy()
     c1,c2 = node_copy.children
     c11,c12 = c1.children
     c21,c22 = c2.children
     c12 = c12.detach(); c22 = c22.detach()     (third tree: c21)
     c1.add_child(c22); c2.add_child(c12)       (third tree: c21)
     update_PL(node_copy, mm0, mm1)] *)
Definition swapped (node : Tree) (third : bool) : result Tree :=
  (cc <- two_children node ;;
   c1x <- two_children (fst cc) ;;
   c2x <- two_children (snd cc) ;;
   let c11 := fst c1x in let c12 := snd c1x in
   let c21 := fst c2x in let c22 := snd c2x in
   let node' :=
     if third
     then with_children node [with_children (fst cc) [c11; c21];
                              with_children (snd cc) [c22; c12]]
     else with_children node [with_children (fst cc) [c11; c22];
                              with_children (snd cc) [c21; c12]] in
   update_PL mm0 mm1 node')%py.

(** [node_k,PL_k,flag = reroot(node_copy_k, mm0, mm1, base_prior)]:
    the call passes four arguments. *)
Definition reroot4 (node : Tree) : result (list pyval) :=
  (r <- reroot [VTree node; VArray mm0; VArray mm1; VVector base_prior] ;;
   unpack 3 r)%py.

(** [def nearest_neighbor_interchange(node, mm0, mm1, base_prior,DELTA)] *)
Definition nearest_neighbor_interchange (node : Tree) : result pyval :=
  (cc <- two_children node ;;
   let c1 := fst cc in
   let c2 := snd cc in
   if is_leaf c1 && is_leaf c2 then Ok (VTuple [VNone; VNone; VInt 0])
   else if is_leaf c1 || is_leaf c2
   then reroot [VTree node; VArray mm0; VArray mm1; VVector base_prior]
   else
     r0 <- reroot4 node ;;
     node_copy1 <- swapped node false ;;
     r1 <- reroot4 node_copy1 ;;
     node_copy2 <- swapped node true ;;
     r2 <- reroot4 node_copy2 ;;
     PL0 <- as_float (nth 1 r0 VNone) ;;
     PL1 <- as_float (nth 1 r1 VNone) ;;
     PL2 <- as_float (nth 1 r2 VNone) ;;
     if Rlt_dec PL1 (PL0 * (1 - DELTA))%R
     then if Rlt_dec PL1 PL2
          then Ok (VTuple [nth 0 r1 VNone; VFloat PL1; VInt 1])
          else Ok (VTuple [nth 0 r2 VNone; VFloat PL2; VInt 1])
     else if Rlt_dec PL2 (PL0 * (1 - DELTA))%R
          then Ok (VTuple [nth 0 r2 VNone; VFloat PL2; VInt 1])
          else Ok (VTuple [nth 0 r0 VNone; VFloat PL0; nth 2 r2 VNone]))%py.

(** *** 4.10 [recursive_NNI] *)

(** One pass of [for node in tree.traverse('postorder')]:
    [if node.is_leaf(): continue
     node_nni,PL_nni,nniflag = nearest_neighbor_interchange(node, ...)
     if node_nni is None: continue
     if node.is_root(): tree = node_nni; PL = PL_nni
     else:
         parent = node.up; node.detach(); parent.add_child(node_nni)
         update_PL(tree, mm0, mm1); PL = score(tree, base_prior)
     if nniflag==1: num_nnis+=1]
    The state is the tree, [num_nnis], the local name [PL] ([None]
    while nothing has been assigned to it) and the nodes moved so
    far. *)
Fixpoint nni_sweep (todo : list path) (moved : list path) (tree : Tree) (num_nnis : nat)
         (PL : option pyval) : result (Tree * nat * option pyval) :=
  match todo with
  | [] => Ok (tree, num_nnis, PL)
  | q :: rest =>
    let p := position moved q in
    (node <- subtree tree p ;;
     if is_leaf node then nni_sweep rest moved tree num_nnis PL
     else
       r <- nearest_neighbor_interchange node ;;
       vs <- unpack 3 r ;;
       match nth 0 vs VNone with
       | VNone => nni_sweep rest moved tree num_nnis PL
       | v =>
         node_nni <- as_tree v ;;
         st <- match p with
               | [] => Ok (node_nni, nth 1 vs VNone)
               | _ => t1 <- regraft tree p node_nni ;;
                      t2 <- update_PL mm0 mm1 t1 ;;
                      pl <- score t2 base_prior ;;
                      Ok (t2, VFloat pl)
               end ;;
         let num' := match nth 2 vs VNone with
                     | VInt 1 => S num_nnis
                     | _ => num_nnis
                     end in
         nni_sweep rest (moved ++ [p]) (fst st) num' (Some (snd st))
       end)%py
  end.

(** [num_nnis=1
     while(num_nnis>0):
         num_nnis=0
         for node in tree.traverse('postorder'): ...
     return tree,PL]
    [fuel] bounds the number of passes of the [while] loop; [None]
    stands for a loop that needs more.  [PL] is assigned only in the
    loop, after an interchange that returned a tree: read before that,
    at [return tree,PL], it raises [UnboundLocalError]. *)
Fixpoint nni_while (fuel : nat) (tree : Tree) (PL : option pyval) : option (result pyval) :=
  match fuel with
  | O => None
  | S fuel' =>
    match nni_sweep (postorder tree) [] tree 0 PL with
    | Raise e => Some (Raise e)
    | Ok (tree', num_nnis, PL') =>
      if Nat.ltb 0 num_nnis then nni_while fuel' tree' PL'
      else Some (match PL' with
                 | Some pl => Ok (VTuple [VTree tree'; pl])
                 | None => Raise UnboundLocalError
                 end)
    end
  end.

(** [def recursive_NNI(tree, mm0, mm1, base_prior,DELTA)] *)
Definition recursive_NNI (fuel : nat) (tree : Tree) : option (result pyval) :=
  nni_while fuel tree None.

End NNI.

(** The base prior of [make_base_prior(30, GTYPE3)], rounded. *)
Definition bp_ex : vector := [3; 33; 3]%R.

(** [cherry] and [tree3] with their likelihoods in place. *)
Definition populated (t : Tree) : Tree :=
  match update_PL mm0_ex mm1_ex t with
  | Ok t' => t'
  | Raise _ => t
  end.

End Search.

(** ** The base prior *)

Module Prior.
Import Phred.
Local Open Scope R_scope.

(** [g[0]!=g[1]] for a genotype string; a string of fewer than two
    characters raises [IndexError]. *)
Definition is_het (g : string) : result bool :=
  match g with
  | String a (String b _) => Ok (negb (Ascii.eqb a b))
  | _ => Raise IndexError
  end.

(** [np.array([...], dtype=np.longdouble)*het]: [True] counts 1. *)
Definition het_phred (het : R) (f : bool) : R := (if f then 1 else 0) * het.

(** [def make_base_prior(het, gtypes):
       return normalize_PL(np.array([g[0]!=g[1] for g in gtypes],
                                    dtype=np.longdouble)*het)] *)
Definition make_base_prior (het : R) (gtypes : list string) : result vector :=
  (flags <- mapM is_het gtypes ;; Ok (normalize_PL (map (het_phred het) flags)))%py.

End Prior.

(** ** Names in a neighbor-joining tree *)

Module NJNames.
Import NJ.
#[local] Set Warnings "-register-all".

(** [tree.get_leaf_names()]: the names of the leaves, left to right. *)
Fixpoint get_leaf_names (t : Tree) : list string :=
  match t with
  | Node n _ [] => [n]
  | Node _ _ cs => flat_map get_leaf_names cs
  end.

(** The names of all nodes below a node, each node before its
    descendants. *)
Fixpoint descendant_names (t : Tree) : list string :=
  match t with
  | Node _ _ cs => flat_map (fun c => name c :: descendant_names c) cs
  end.

(** [D[a,b] == D[b,a]] for all indices. *)
Definition symmetric (D : qmatrix) : Prop := forall a b, get D a b = get D b a.

(** What the loop keeps true about names: the leaves are the samples,
    and the nodes below the root carry the indices handed out so far. *)
Definition names_inv (m0 : nat) (s : state) : Prop :=
  Permutation (flat_map get_leaf_names (children (st_tree s))) (map str (seq 0 m0)) /\
  Permutation (flat_map (fun c => name c :: descendant_names c) (children (st_tree s)))
              (map str (seq 0 (2 * m0 - List.length (st_internals s))%nat)).

End NJNames.

(** ** 4.1 The evidence filter of [read_vcf] *)

Module Vcf.
Import Lik.
Local Open Scope Z_scope.

(** The [PL]s of one variant: a row of genotype likelihoods (Phred
    scaled integers, as the [uint16] array holds them) per sample. *)
Definition site := list (list Z).

(** [A.sum(axis=1)] of a (sample x genotype) block with [g] genotypes;
    the sums are taken in a wider integer type and do not wrap. *)
Definition column (j : nat) (pl : site) : Z :=
  fold_right Z.add 0 (map (fun r => nth j r 0) pl).

Definition sum_axis1 (g : nat) (pl : site) : list Z :=
  map (fun j => column j pl) (seq 0 g).

(** [np.sort(PLs)]: every sample's row in ascending order. *)
Definition np_sort (pl : site) : site := map sorted pl.

(** [k_ev = (np.sort(PLs).sum(axis=1)>=evidence).sum(axis=1)==2] for an
    array of [g] genotypes per sample. *)
Definition k_ev (evidence : Z) (g : nat) (PLs : list site) : list bool :=
  map (fun pl =>
         Nat.eqb (List.length (filter (fun s => Z.leb evidence s) (sum_axis1 g (np_sort pl)))) 2)
      PLs.

(** [a[k_ev]] for a boolean [k_ev] as long as [a]. *)
Definition select {A : Type} (mask : list bool) (a : list A) : list A :=
  map snd (filter fst (combine mask a)).

(** [variants,ADs,PLs = variants[k_ev],ADs[k_ev],PLs[k_ev]] *)
Definition evidence_filter {V A : Type} (evidence : Z) (g : nat)
           (variants : list V) (ADs : list A) (PLs : list site)
  : list V * list A * list site :=
  let k := k_ev evidence g PLs in
  (select k variants, select k ADs, select k PLs).

(** The sums over the samples of the smallest and of the second
    smallest likelihood of each sample. *)
Definition smallest (pl : site) : Z := column 0 (np_sort pl).
Definition second (pl : site) : Z := column 1 (np_sort pl).

Definition strong (evidence : Z) (pl : site) : bool :=
  Z.ltb (smallest pl) evidence && Z.leb evidence (second pl).

(** Three variants of two samples: one with strong evidence, one with
    weak evidence, one at which no genotype is likely. *)
Definition PLs_ex : list site :=
  [[[0; 40; 90]; [35; 0; 70]]; [[0; 10; 90]; [20; 0; 70]]; [[70; 80; 90]; [60; 65; 70]]].

End Vcf.

(** ** 4.5 Preparing the tree: [init_tree] and [populate_tree_PL] *)

Module Init.
Import Phred Lik.
Local Open Scope nat_scope.
#[local] Set Warnings "-register-all".

(** The first loop of [init_tree]:
    [for node in tree.traverse(strategy='postorder'):
         if node.is_leaf():
             node.sid = [int(node.name)]
         else:
             node.name = ''
             node.sid = []
             for child in node.children:
                 node.sid.extend(child.sid)] *)
Fixpoint collect_sid (t : Tree) : result Tree :=
  match t with
  | TreeNode nm s p q cs =>
    match cs with
    | [] => (z <- int nm ;; Ok (TreeNode nm (Some [z]) p q []))%py
    | _ => (cs' <- mapM collect_sid cs ;;
            sids <- mapM (fun c => attr (sid c)) cs' ;;
            Ok (TreeNode EmptyString (Some (List.concat sids)) p q cs'))%py
    end
  end.

(** The second loop:
    [for i,node in zip(xrange(2*m-1), tree.traverse(strategy='postorder')):
         node.nid = i
         node.sid = sorted(node.sid)]
    [number limit t i] visits the nodes of [t] in postorder, the first
    of them being the [i]-th of the traversal, and returns the next
    index; the nodes from the [limit]-th on are not reached.  The
    [nid] of a node is its index; the nodes of the model do not carry
    it. *)
Fixpoint number (limit : nat) (t : Tree) (i : nat) : Tree * nat :=
  match t with
  | TreeNode nm s p q cs =>
    let r := (fix go (cs : list Tree) (i : nat) {struct cs} : list Tree * nat :=
                match cs with
                | [] => ([], i)
                | c :: cs' =>
                  let r1 := number limit c i in
                  let r2 := go cs' (snd r1) in
                  (fst r1 :: fst r2, snd r2)
                end) cs i in
    (TreeNode nm (if Nat.ltb (snd r) limit then option_map sorted s else s) p q (fst r),
     S (snd r))
  end.

Fixpoint number_children (limit : nat) (cs : list Tree) (i : nat) : list Tree * nat :=
  match cs with
  | [] => ([], i)
  | c :: cs' =>
    let r1 := number limit c i in
    let r2 := number_children limit cs' (snd r1) in
    (fst r1 :: fst r2, snd r2)
  end.

(** [def init_tree(tree):
       tree.leaf_order = map(int, tree.get_leaf_names())
       for node in ...: (first loop)
       m = len(tree)
       for i,node in ...: (second loop)
       return tree] *)
Definition init_tree (tree : Tree) : result Tree :=
  (leaf_order <- mapM int (get_leaf_names tree) ;;
   t1 <- collect_sid tree ;;
   Ok (fst (number (2 * len t1 - 1) t1 0)))%py.

(** The number of nodes of a tree. *)
Fixpoint size (t : Tree) : nat :=
  match t with
  | TreeNode _ _ _ _ cs => S (list_sum (map size cs))
  end.

(** No node has exactly one child. *)
Fixpoint no_unary (t : Tree) : bool :=
  match t with
  | TreeNode _ _ _ _ cs => negb (Nat.eqb (List.length cs) 1) && forallb no_unary cs
  end.

(** Every node records the numbers of the leaves under it, in the order
    of the leaves ([sids_raw], the state between the two loops) or in
    ascending order ([sids_fresh]: what [update_PL] compares a child's
    [sid] with). *)
Definition sid_is (f : list Z -> list Z) (t : Tree) : bool :=
  match sid t, mapM int (get_leaf_names t) with
  | Some a, Ok b => if list_eq_dec Z.eq_dec a (f b) then true else false
  | _, _ => false
  end.

Fixpoint sids_raw (t : Tree) : bool :=
  match t with
  | TreeNode _ _ _ _ cs => sid_is (fun l => l) t && forallb sids_raw cs
  end.

Fixpoint sids_fresh (t : Tree) : bool :=
  match t with
  | TreeNode _ _ _ _ cs => sid_is sorted t && forallb sids_fresh cs
  end.

(** The facts about a node that the two loops and the population of the
    likelihoods leave alone. *)
Definition same_frame (t t' : Tree) : Prop :=
  get_leaf_names t' = get_leaf_names t /\ len t' = len t /\ size t' = size t /\
  no_unary t' = no_unary t /\ PL0 t' = PL0 t /\ PLm t' = PLm t /\
  List.length (children t') = List.length (children t).

(** What attaching likelihoods to a node leaves alone. *)
Definition same_labels (t t' : Tree) : Prop :=
  get_leaf_names t' = get_leaf_names t /\ len t' = len t /\ sid t' = sid t /\
  sids_fresh t' = sids_fresh t /\
  List.length (children t') = List.length (children t).

(** *** [populate_tree_PL]

    [PLs] has a row of [g] likelihoods for each of [m] samples at each
    site.  [PLs[:,k,]] takes the sample [k] at every site; a negative
    [k] counts from the last sample. *)
Definition take_sample (m : nat) (PLs : list matrix) (k : Z) : result matrix :=
  if (Z.leb 0 k && Z.ltb k (Z.of_nat m))%bool then Ok (map (fun site => nth (Z.to_nat k) site []) PLs)
  else if (Z.leb (- Z.of_nat m) k && Z.ltb k 0)%bool
       then Ok (map (fun site => nth (Z.to_nat (Z.of_nat m + k)) site []) PLs)
       else Raise IndexError.

(** [setattr(node, attr, np.zeros((n,g)))
     for child in node.children:
         setattr(node, attr, getattr(node, attr)
                             + p2phred(np.dot(phred2p(getattr(child, attr)), mm)))] *)
Fixpoint add_children (mm : matrix) (cs : list Tree) (acc : matrix) : result matrix :=
  match cs with
  | [] => Ok acc
  | child :: rest =>
    (cP <- attr (PL0 child) ;;
     t <- channel mm cP ;;
     acc' <- madd_chk acc t ;;
     add_children mm rest acc')%py
  end.

(** [def populate_tree_PL(tree, PLs, mm, attr):
       n,m,g = PLs.shape
       for node in tree.traverse(strategy='postorder'):
           if node.is_leaf():
               setattr(node, attr, PLs[:,node.sid[0],])
           else: ...
       return tree]
    for [attr = 'PL0'], the attribute every call in the program names. *)
Fixpoint populate_tree_PL (m g : nat) (PLs : list matrix) (mm : matrix) (t : Tree)
  : result Tree :=
  match t with
  | TreeNode nm s p q cs =>
    match cs with
    | [] => (sd <- attr s ;;
             k <- index sd 0 ;;
             P <- take_sample m PLs k ;;
             Ok (TreeNode nm s (Some P) q []))%py
    | _ => (cs' <- mapM (populate_tree_PL m g PLs mm) cs ;;
            P <- add_children mm cs' (zeros (List.length PLs) g) ;;
            Ok (TreeNode nm s (Some P) q cs'))%py
    end
  end.

(** The tree [((0,1),2)] as neighbor joining leaves it: names only. *)
Definition bare (nm : string) (cs : list Tree) : Tree := TreeNode nm None None None cs.
Definition nj_tree3 : Tree :=
  bare "NoName" [bare "3" [bare "0" []; bare "1" []]; bare "2" []].

(** One site, three samples, three genotypes. *)
Definition PLs3 : list matrix := [[[0; 10; 20]; [20; 10; 0]; [10; 0; 10]]]%R.

End Init.

(** ** The rerootings [reroot] chooses from *)

Module Rerootings.
Import Phred Lik Search.
Local Open Scope nat_scope.

(** The nodes of [tree.iter_descendants('postorder')]. *)
Definition descendants (tree : Tree) : list Tree :=
  match mapM (subtree tree) (iter_descendants tree) with
  | Ok nodes => nodes
  | Raise _ => []
  end.

(** The rerooted trees the loop of [reroot] builds, with their scores,
    in the order of the loop. *)
Definition rerootings (tree : Tree) (mm0 mm1 : matrix) (base_prior : vector)
  : list (Tree * R) :=
  flat_map (fun node => match candidate tree mm0 mm1 base_prior node with
                        | Ok c => [c]
                        | Raise _ => []
                        end) (descendants tree).

End Rerootings.

(** ** From neighbor joining to the likelihood code *)

Module Handover.
Import Lik.

(** The tree neighbor joining built, as [init_tree] receives it: the
    same nodes, with their names and children; the branch lengths are
    not read again, and no node has a [sid], [PL0] or [PLm] yet. *)
Fixpoint of_nj (t : NJ.Tree) : Tree :=
  match t with
  | NJ.Node nm _ cs => TreeNode nm None None None (map of_nj cs)
  end.

(** What holds of every character of [str(n)]: it is in the model of
    [int], no white space and no sign. *)
Definition digit (c : ascii) : bool :=
  modelled c && negb (is_space c) && negb (Ascii.eqb c "-"%char || Ascii.eqb c "+"%char).

(** [int(name)] where it succeeds. *)
Definition number_of (nm : string) : Z :=
  match int nm with
  | Ok z => z
  | Raise _ => 0%Z
  end.

End Handover.

(* ================================================================== *)
(** * Properties *)
(* ================================================================== *)


(** ** Phred normalisation *)

Section PhredFacts.
Import Phred.
Local Open Scope R_scope.

Lemma Rpower10_pos (y : R) : 0 < Rpower 10 y.
Proof. unfold Rpower. apply exp_pos. Qed.

Lemma phred2p_pos (x : R) : 0 < phred2p x.
Proof. apply Rpower10_pos. Qed.

Lemma Rpower10_shift (v c : R) :
  Rpower 10 (- (v + c) / 10) = Rpower 10 (- v / 10) * Rpower 10 (- c / 10).
Proof.
  rewrite <- Rpower_plus. f_equal. lra.
Qed.

Lemma rsum_map_scale (f : R -> R) (k : R) (x : vector) :
  rsum (map (fun v => f v * k) x) = rsum (map f x) * k.
Proof.
  induction x as [|v x IH]; simpl.
  - ring.
  - rewrite IH. ring.
Qed.

Lemma rsum_nonneg (f : R -> R) (x : vector) :
  (forall v, 0 < f v) -> 0 <= rsum (map f x).
Proof.
  intros Hf. induction x as [|u x IHx]; simpl.
  - lra.
  - specialize (Hf u). lra.
Qed.

Lemma rsum_pos_ge (f : R -> R) (x : vector) :
  (forall v, 0 < f v) -> forall v, In v x -> f v <= rsum (map f x).
Proof.
  intros Hf. induction x as [|w x IH]; simpl; intros v Hin.
  - contradiction.
  - pose proof (rsum_nonneg f x Hf) as Hnonneg.
    destruct Hin as [->|Hin].
    + lra.
    + specialize (IH v Hin). specialize (Hf w). lra.
Qed.

Lemma rsum_pos_in (f : R -> R) (x : vector) (v : R) :
  (forall u, 0 < f u) -> In v x -> 0 < rsum (map f x).
Proof.
  intros Hf Hin. pose proof (rsum_pos_ge f x Hf v Hin). specialize (Hf v). lra.
Qed.

Lemma normalize_PL_shift (c : R) (x : vector) :
  normalize_PL (shift c x) = normalize_PL x.
Proof.
  unfold normalize_PL, shift. rewrite !map_map.
  set (P := fun v => Rpower 10 (- v / 10)).
  assert (HS : map (fun v => Rpower 10 (- (v + c) / 10)) x
               = map (fun v => P v * Rpower 10 (- c / 10)) x).
  { apply map_ext. intros v. apply Rpower10_shift. }
  rewrite HS, rsum_map_scale.
  apply map_ext_in. intros v Hin.
  do 2 f_equal. rewrite Rpower10_shift. fold (P v).
  assert (0 < rsum (map P x)) by (apply rsum_pos_in with v; [intro; apply Rpower10_pos|exact Hin]).
  pose proof (Rpower10_pos (- c / 10)).
  field. split; lra.
Qed.

Lemma normalize2d_PL_rows (x : matrix) :
  normalize2d_PL x = map normalize_PL x.
Proof.
  unfold normalize2d_PL, normalize_PL. rewrite map_map. reflexivity.
Qed.

Lemma normalize2d_PL_shift_row (r : nat) (c : R) (x : matrix) :
  normalize2d_PL (shift_row r c x) = normalize2d_PL x.
Proof.
  rewrite !normalize2d_PL_rows. revert r.
  induction x as [|row x IH]; intros [|r]; simpl; try reflexivity.
  - now rewrite normalize_PL_shift.
  - now rewrite IH.
Qed.

Lemma nth_shift_row_same (i : nat) (c : R) (site : matrix) :
  nth i (shift_row i c site) [] = shift c (nth i site []).
Proof.
  revert i. induction site as [|v site IH]; intros [|i]; simpl; auto.
Qed.

Lemma nth_shift_row_other (i j : nat) (c : R) (site : matrix) :
  i <> j -> nth j (shift_row i c site) [] = nth j site [].
Proof.
  revert i j. induction site as [|v site IH]; intros [|i] [|j] Hij; simpl; auto;
    try (exfalso; lia).
Qed.

Lemma sample_shift_sample_same (s i : nat) (c : R) (PLs : list matrix) :
  sample (shift_sample s i c PLs) i = shift_row s c (sample PLs i).
Proof.
  revert s. induction PLs as [|site PLs IH]; intros [|s]; simpl; auto.
  - now rewrite nth_shift_row_same.
  - now rewrite IH.
Qed.

Lemma sample_shift_sample_other (s i j : nat) (c : R) (PLs : list matrix) :
  i <> j -> sample (shift_sample s i c PLs) j = sample PLs j.
Proof.
  intros Hij. revert s. induction PLs as [|site PLs IH]; intros [|s]; simpl; auto.
  - now rewrite nth_shift_row_other.
  - now rewrite IH.
Qed.

Lemma normalize2d_sample_shift (s i j : nat) (c : R) (PLs : list matrix) :
  normalize2d_PL (sample (shift_sample s i c PLs) j) = normalize2d_PL (sample PLs j).
Proof.
  destruct (Nat.eq_dec i j) as [->|Hne].
  - rewrite sample_shift_sample_same. apply normalize2d_PL_shift_row.
  - now rewrite sample_shift_sample_other.
Qed.

(** C10.  Phred normalisation ignores a constant offset: for every Phred
    vector [x] and every real [c], [normalize_PL (x + c) = normalize_PL x];
    adding [c] to one row of a matrix leaves the output of
    [normalize2d_PL] on that row (indeed on every row) unchanged; hence
    the pairwise distance fed to neighbor joining does not change when a
    constant is added to the Phred vector of one sample at one site. *)
Theorem C10_normalize_offset_invariant :
  (forall (x : vector) (c : R), normalize_PL (shift c x) = normalize_PL x) /\
  (forall (x : matrix) (r : nat) (c : R),
      nth r (normalize2d_PL (shift_row r c x)) [] = nth r (normalize2d_PL x) []) /\
  (forall (PLs : list matrix) (s k : nat) (c : R) (i j : nat),
      pairwise_diff (shift_sample s k c PLs) i j = pairwise_diff PLs i j).
Proof.
  split; [|split].
  - intros x c. apply normalize_PL_shift.
  - intros x r c. now rewrite normalize2d_PL_shift_row.
  - intros PLs s k c i j. unfold pairwise_diff.
    now rewrite !normalize2d_sample_shift.
Qed.

End PhredFacts.

(** ** The distance matrix that seeds neighbor joining *)

Section MakeDFacts.
Import Phred.
Local Open Scope R_scope.

Lemma upd_length {A : Type} (k : nat) (f : A -> A) (l : list A) :
  List.length (upd k f l) = List.length l.
Proof.
  revert k. induction l as [|a l IH]; intros [|k]; simpl; auto.
Qed.

Lemma nth_upd_same {A : Type} (k : nat) (f : A -> A) (l : list A) (d : A) :
  (k < List.length l)%nat -> nth k (upd k f l) d = f (nth k l d).
Proof.
  revert k. induction l as [|a l IH]; intros [|k] Hk; simpl in *; try lia; auto.
  apply IH. lia.
Qed.

Lemma nth_upd_other {A : Type} (k k' : nat) (f : A -> A) (l : list A) (d : A) :
  k <> k' -> nth k' (upd k f l) d = nth k' l d.
Proof.
  revert k k'. induction l as [|a l IH]; intros [|k] [|k'] Hk; simpl; auto;
    try (exfalso; lia).
Qed.

Lemma square_row (dim : nat) (D : matrix) (i : nat) :
  square dim D -> (i < dim)%nat -> List.length (nth i D []) = dim.
Proof.
  intros [HL Hrows] Hi. apply Hrows. apply nth_In. lia.
Qed.

Lemma zeros_square (dim : nat) : square dim (zeros dim dim).
Proof.
  unfold zeros. split.
  - apply repeat_length.
  - intros r Hr. apply repeat_spec in Hr. subst r. apply repeat_length.
Qed.

Lemma mset_square (dim i j : nat) (v : R) (D : matrix) :
  square dim D -> square dim (mset i j v D).
Proof.
  intros [HL Hrows]. unfold mset. split.
  - now rewrite upd_length.
  - intros r Hr. apply In_nth with (d := []) in Hr.
    destruct Hr as (k & Hk & <-). rewrite upd_length in Hk.
    destruct (Nat.eq_dec i k) as [->|Hne].
    + rewrite nth_upd_same by lia. rewrite upd_length. apply Hrows, nth_In. lia.
    + rewrite nth_upd_other by exact Hne. apply Hrows, nth_In. lia.
Qed.

Lemma mget_mset_same (dim i j : nat) (v : R) (D : matrix) :
  square dim D -> (i < dim)%nat -> (j < dim)%nat -> mget (mset i j v D) i j = v.
Proof.
  intros HD Hi Hj. unfold mget, mset.
  rewrite nth_upd_same by (destruct HD; lia).
  rewrite nth_upd_same by (rewrite (square_row HD Hi); exact Hj).
  reflexivity.
Qed.

Lemma mget_mset_other (i j i' j' : nat) (v : R) (D : matrix) :
  (i, j) <> (i', j') -> mget (mset i j v D) i' j' = mget D i' j'.
Proof.
  intros Hne. unfold mget, mset.
  destruct (Nat.eq_dec i i') as [->|Hi].
  - destruct (Nat.lt_ge_cases i' (List.length D)) as [Hlt|Hge].
    + rewrite nth_upd_same by exact Hlt.
      rewrite nth_upd_other; [reflexivity|congruence].
    + rewrite !(nth_overflow _ []); [reflexivity|exact Hge|now rewrite upd_length].
  - now rewrite nth_upd_other.
Qed.

Lemma make_D_step_square (dim : nat) (PLs : list matrix) (D : matrix) (ij : nat * nat) :
  square dim D -> square dim (make_D_step PLs D ij).
Proof.
  destruct ij as [i j]. intros HD. unfold make_D_step.
  now do 2 apply mset_square.
Qed.

Lemma make_D_step_writes (dim : nat) (PLs : list matrix) (D : matrix) (i j : nat) :
  square dim D -> (i < j < dim)%nat ->
  mget (make_D_step PLs D (i, j)) i j = pairwise_diff PLs i j /\
  mget (make_D_step PLs D (i, j)) j i = pairwise_diff PLs i j.
Proof.
  intros HD Hij. unfold make_D_step.
  assert (H1 : mget (mset i j (pairwise_diff PLs i j) D) i j = pairwise_diff PLs i j)
    by (apply mget_mset_same with dim; auto; lia).
  rewrite H1. split.
  - rewrite mget_mset_other; [exact H1|]. intros E. inversion E. lia.
  - apply mget_mset_same with dim; [now apply mset_square|lia|lia].
Qed.

Lemma make_D_step_keeps (PLs : list matrix) (D : matrix) (a b i j : nat) :
  (a < b)%nat -> (i < j)%nat -> (a, b) <> (i, j) ->
  mget (make_D_step PLs D (a, b)) i j = mget D i j /\
  mget (make_D_step PLs D (a, b)) j i = mget D j i.
Proof.
  intros Hab Hij Hne. unfold make_D_step. split.
  - rewrite !mget_mset_other; auto. intros E. inversion E. lia.
  - rewrite !mget_mset_other; auto.
    + intros E. inversion E. lia.
    + intros E. inversion E. subst. apply Hne. reflexivity.
Qed.

Lemma make_D_fold (dim : nat) (PLs : list matrix) (i j : nat) (L : list (nat * nat)) :
  (i < j < dim)%nat ->
  (forall a b, In (a, b) L -> (a < b < dim)%nat) ->
  forall D, square dim D ->
    In (i, j) L \/
    (mget D i j = pairwise_diff PLs i j /\ mget D j i = pairwise_diff PLs i j) ->
    mget (fold_left (make_D_step PLs) L D) i j = pairwise_diff PLs i j /\
    mget (fold_left (make_D_step PLs) L D) j i = pairwise_diff PLs i j.
Proof.
  intros Hij. induction L as [|[a b] L IH]; intros HL D HD Hcase; cbn [fold_left].
  - destruct Hcase as [[]|H]. exact H.
  - assert (Hab : (a < b < dim)%nat) by (apply HL; now left).
    apply IH.
    + intros a' b' Hin. apply HL. now right.
    + now apply make_D_step_square.
    + destruct (Nat.eq_dec a i) as [->|Hai]; [destruct (Nat.eq_dec b j) as [->|Hbj]|].
      * right. apply make_D_step_writes with dim; auto.
      * destruct Hcase as [[E|Hin]|H].
        -- inversion E. lia.
        -- now left.
        -- right. destruct (@make_D_step_keeps PLs D i b i j) as [E1 E2]; try lia.
           ++ congruence.
           ++ now rewrite E1, E2.
      * destruct Hcase as [[E|Hin]|H].
        -- inversion E. lia.
        -- now left.
        -- right. destruct (@make_D_step_keeps PLs D a b i j) as [E1 E2]; try lia.
           ++ congruence.
           ++ now rewrite E1, E2.
Qed.

Lemma in_combinations2 (m a b : nat) :
  In (a, b) (combinations2 m) <-> (a < b < m)%nat.
Proof.
  unfold combinations2. rewrite in_flat_map. split.
  - intros (i & Hi & Hin). apply in_map_iff in Hin. destruct Hin as (j & E & Hj).
    inversion E; subst. apply in_seq in Hi. apply in_seq in Hj. lia.
  - intros H. exists a. split.
    + apply in_seq. lia.
    + apply in_map_iff. exists b. split; [reflexivity|]. apply in_seq. lia.
Qed.

Lemma make_D_entries (m : nat) (PLs : list matrix) (D : matrix) (i j : nat) :
  (i < j < m)%nat -> make_D m PLs = Ok D ->
  mget D i j = pairwise_diff PLs i j /\ mget D j i = pairwise_diff PLs i j.
Proof.
  intros Hij HD. unfold make_D in HD.
  destruct m as [|m']; [discriminate|]. injection HD as <-.
  set (m := S m') in *.
  apply (@make_D_fold (2 * m - 2) PLs i j (combinations2 m)).
  - lia.
  - intros a b Hin. apply in_combinations2 in Hin. lia.
  - apply zeros_square.
  - left. now apply in_combinations2.
Qed.

(** *** [pairwise_diff] in probability space *)

Lemma phred2p_plus_p2phred (x y : R) :
  0 < x -> 0 < y -> phred2p (-10 * log10 x + -10 * log10 y) = x * y.
Proof.
  intros Hx Hy. unfold phred2p, log10.
  replace (- (-10 * Rlog 10 x + -10 * Rlog 10 y) / 10) with (Rlog 10 x + Rlog 10 y) by lra.
  rewrite Rpower_plus, !Rpower_Rlog; auto; lra.
Qed.

Lemma prob_pos (x : vector) : Forall (fun q => 0 < q) (prob x).
Proof.
  unfold prob. apply Forall_forall. intros q Hq.
  apply in_map_iff in Hq. destruct Hq as (pv & <- & Hpv).
  apply in_map_iff in Hpv. destruct Hpv as (v & <- & Hv).
  pose proof (phred2p_pos v).
  pose proof (rsum_pos_in phred2p x v phred2p_pos Hv).
  apply Rdiv_lt_0_compat; assumption.
Qed.

Lemma normalize_PL_prob (x : vector) :
  normalize_PL x = map (fun q => -10 * log10 q) (prob x).
Proof.
  unfold normalize_PL, prob. rewrite !map_map. reflexivity.
Qed.

Lemma phred2p_vadd_log (X Y : vector) :
  Forall (fun q => 0 < q) X -> Forall (fun q => 0 < q) Y ->
  map phred2p (vadd (map (fun q => -10 * log10 q) X) (map (fun q => -10 * log10 q) Y))
  = vmul X Y.
Proof.
  intros HX. revert Y. induction HX as [|x X Hx HX IH]; intros Y HY; simpl.
  - reflexivity.
  - destruct HY as [|y Y Hy HY]; simpl.
    + reflexivity.
    + unfold vadd, vmul in *. simpl. rewrite IH by exact HY.
      now rewrite phred2p_plus_p2phred.
Qed.

Lemma pairwise_diff_rows (A B : matrix) :
  map (map phred2p) (madd (normalize2d_PL A) (normalize2d_PL B))
  = map (fun rr => vmul (prob (fst rr)) (prob (snd rr))) (combine A B).
Proof.
  rewrite !normalize2d_PL_rows. revert B.
  induction A as [|a A IH]; intros [|b B]; simpl; try reflexivity.
  unfold madd in *. simpl. rewrite IH. f_equal.
  rewrite !normalize_PL_prob. apply phred2p_vadd_log; apply prob_pos.
Qed.

Lemma pairwise_diff_product (PLs : list matrix) (i j : nat) :
  pairwise_diff PLs i j = site_product_distance (sample PLs i) (sample PLs j).
Proof.
  unfold pairwise_diff, site_product_distance.
  rewrite pairwise_diff_rows, map_map. reflexivity.
Qed.

(** C6 (as amended).  For all samples [i < j < m], the entries [D[i,j]]
    and [D[j,i]] of the matrix that seeds neighbor joining equal the sum
    over sites of one minus the per-site genotype-sum of [p], where [p]
    is the element-wise PRODUCT of the two samples' normalised
    probability distributions (the code adds the normalised vectors on
    the Phred scale). *)
Theorem C6_make_D_product_distance (m : nat) (PLs : list matrix) (D : matrix) (i j : nat) :
  (i < j < m)%nat -> make_D m PLs = Ok D ->
  mget D i j = site_product_distance (sample PLs i) (sample PLs j) /\
  mget D j i = site_product_distance (sample PLs i) (sample PLs j).
Proof.
  intros Hij HD. rewrite <- pairwise_diff_product.
  exact (make_D_entries PLs Hij HD).
Qed.

Lemma prob_flat : prob [0; 0; 0] = [1 / 3; 1 / 3; 1 / 3].
Proof.
  unfold prob, phred2p. simpl.
  replace (- 0 / 10) with 0 by lra.
  rewrite Rpower_O by lra.
  repeat f_equal; lra.
Qed.

Lemma C6_make_D_product_distance_witness :
  let D := fold_left (make_D_step PLs_flat) (combinations2 2) (zeros 2 2) in
  mget D 0 1 = site_product_distance (sample PLs_flat 0) (sample PLs_flat 1) /\
  mget D 1 0 = site_product_distance (sample PLs_flat 0) (sample PLs_flat 1).
Proof.
  intros D.
  apply (@C6_make_D_product_distance 2 PLs_flat D 0%nat 1%nat); [lia|reflexivity].
Defined.

(** C6 as worded fails: with every genotype equally likely at one site,
    summing the two probability distributions gives a per-site
    genotype-sum of 2 and a distance of -1, while the code stores 2/3. *)
Lemma C6_sum_of_distributions_counterexample :
  exists D, make_D 2 PLs_flat = Ok D /\
    mget D 0 1 = 2 / 3 /\
    pairwise_site_distance (sample PLs_flat 0) (sample PLs_flat 1) = -1 /\
    mget D 0 1 <> pairwise_site_distance (sample PLs_flat 0) (sample PLs_flat 1).
Proof.
  eexists. split; [reflexivity|].
  assert (E1 : mget (fold_left (make_D_step PLs_flat) (combinations2 2)
                                 (zeros (2 * 2 - 2) (2 * 2 - 2))) 0 1 = 2 / 3).
  { replace (mget _ 0 1) with (pairwise_diff PLs_flat 0 1) by reflexivity.
    rewrite pairwise_diff_product.
    unfold site_product_distance, PLs_flat, sample.
    cbn [map nth combine fst snd]. rewrite prob_flat.
    unfold vmul, rsum. cbn [map combine fst snd fold_right]. lra. }
  assert (E2 : pairwise_site_distance (sample PLs_flat 0) (sample PLs_flat 1) = -1).
  { unfold pairwise_site_distance, PLs_flat, sample.
    cbn [map nth combine fst snd]. rewrite prob_flat.
    unfold vadd, rsum. cbn [map combine fst snd fold_right]. lra. }
  rewrite E1, E2. repeat split; lra.
Qed.

End MakeDFacts.

(** ** The mutation matrix *)

Section MutMatrixFacts.
Import Phred MutMatrix.
Local Open Scope R_scope.

Lemma gtype_distance_GTYPE3 :
  gtype_distance GTYPE3 = [[0; 1; 2]; [1; 0; 1]; [2; 1; 0]]%nat.
Proof. reflexivity. Qed.

(** The three matrices, entry by entry, with [p = phred2p mu]. *)
Lemma make_mut_matrix_GTYPE3 (mu : R) :
  let p := phred2p mu in
  make_mut_matrix mu GTYPE3 =
  ([[1 - p - p * p; p; p * p]; [p; 1 - 2 * p; p]; [p * p; p; 1 - p - p * p]],
   [[1 - p - p * p; 0; 0]; [0; 1 - 2 * p; 0]; [0; 0; 1 - p - p * p]],
   [[0; p; p * p]; [p; 0; p]; [p * p; p; 0]]).
Proof.
  intros p. unfold make_mut_matrix. rewrite gtype_distance_GTYPE3. fold p.
  unfold msub, vsub, diagflat, diagonal, fill_diagonal, colsums, column, rsum.
  cbn [map seq List.length hd combine fst snd nth upd Nat.eqb fold_right pow].
  repeat (f_equal; try ring).
Qed.

(** C1 (as amended).  For every mutation rate [mu] and the three
    genotype symbols, [make_mut_matrix] returns [(mm, mm0, mm1)] where
    every off-diagonal entry of [mm] is [phred2p mu] raised to the
    genotype distance, every diagonal entry is 2.0 minus the column total
    of the raw matrix (whose diagonal is 1), so that every column and
    every row of [mm] totals 1.0; [mm0] is exactly the diagonal part of
    [mm], [mm1] exactly the off-diagonal part, and [mm = mm0 + mm1]. *)
Theorem C1_make_mut_matrix_columns_total_one (mu : R) :
  let r := make_mut_matrix mu GTYPE3 in
  let mm := mm_of r in
  let mm0 := mm0_of r in
  let mm1 := mm1_of r in
  (forall i j, (i < 3)%nat -> (j < 3)%nat -> i <> j ->
     mget mm i j = phred2p mu ^ nth j (nth i (gtype_distance GTYPE3) []) 0%nat) /\
  (forall j, (j < 3)%nat -> rsum (column j mm) = 1 /\ rsum (row j mm) = 1) /\
  (forall i j, (i < 3)%nat -> (j < 3)%nat ->
     mget mm0 i j = (if Nat.eqb i j then mget mm i j else 0) /\
     mget mm1 i j = (if Nat.eqb i j then 0 else mget mm i j)) /\
  mm = madd mm0 mm1.
Proof.
  intros r mm mm0 mm1. subst mm mm0 mm1 r.
  rewrite make_mut_matrix_GTYPE3, gtype_distance_GTYPE3.
  unfold mm_of, mm0_of, mm1_of. cbn [fst snd].
  set (p := phred2p mu).
  assert (Hcases : forall k, (k < 3)%nat -> k = 0%nat \/ k = 1%nat \/ k = 2%nat) by (intros; lia).
  split; [|split; [|split]].
  - intros i j Hi Hj Hne.
    destruct (Hcases i Hi) as [-> | [-> | ->]]; destruct (Hcases j Hj) as [-> | [-> | ->]];
      try (exfalso; apply Hne; reflexivity);
      unfold mget; cbn [nth pow]; ring.
  - intros j Hj.
    destruct (Hcases j Hj) as [-> | [-> | ->]];
      unfold column, row, rsum; cbn [map nth fold_right]; split; ring.
  - intros i j Hi Hj.
    destruct (Hcases i Hi) as [-> | [-> | ->]]; destruct (Hcases j Hj) as [-> | [-> | ->]];
      unfold mget; cbn [nth Nat.eqb]; split; reflexivity.
  - unfold madd, vadd. cbn [map combine fst snd].
    repeat (f_equal; try ring).
Qed.

(** C1 as worded fails: at the default rate [mu = 80] the first column
    of [mm] totals 1, not 2. *)
Lemma C1_column_total_two_counterexample :
  rsum (column 0 (mm_of (make_mut_matrix 80 GTYPE3))) = 1 /\
  rsum (column 0 (mm_of (make_mut_matrix 80 GTYPE3))) <> 2.
Proof.
  rewrite make_mut_matrix_GTYPE3. unfold mm_of. cbn [fst].
  unfold column, rsum. cbn [map nth fold_right].
  split; [ring|].
  intros E. ring_simplify in E. lra.
Qed.

End MutMatrixFacts.

(** ** Neighbor joining *)

Unset Implicit Arguments.

Section NJFacts.
Import NJ.
Local Open Scope nat_scope.

(** *** Lists *)

Lemma remove_nth_length {A : Type} (k : nat) (l : list A) :
  k < List.length l -> List.length (remove_nth k l) = List.length l - 1.
Proof.
  revert k. induction l as [|a l IH]; intros [|k] Hk; simpl in *; try lia.
  rewrite IH; lia.
Qed.

Lemma remove_nth_map {A B : Type} (f : A -> B) (k : nat) (l : list A) :
  map f (remove_nth k l) = remove_nth k (map f l).
Proof.
  revert k. induction l as [|a l IH]; intros [|k]; simpl; auto.
  now rewrite IH.
Qed.

Lemma remove_nth_In {A : Type} (k : nat) (l : list A) (x : A) :
  In x (remove_nth k l) -> In x l.
Proof.
  revert k. induction l as [|a l IH]; intros [|k] H; simpl in *; auto.
  destruct H as [H|H]; eauto.
Qed.

Lemma remove_nth_NoDup {A : Type} (k : nat) (l : list A) :
  NoDup l -> NoDup (remove_nth k l).
Proof.
  intros H. revert k. induction H as [|a l Ha Hl IH]; intros [|k]; simpl.
  - constructor.
  - constructor.
  - exact Hl.
  - constructor; [|apply IH]. intros Hin. apply Ha. eapply remove_nth_In; eauto.
Qed.

Lemma remove_nth_sum {A : Type} (f : A -> nat) (k : nat) (l : list A) (d : A) :
  k < List.length l ->
  list_sum (map f (remove_nth k l)) + f (nth k l d) = list_sum (map f l).
Proof.
  revert k. induction l as [|a l IH]; intros [|k] Hk; simpl in *; try lia.
  specialize (IH k). lia.
Qed.

Lemma remove_nth_Forall {A : Type} (P : A -> Prop) (k : nat) (l : list A) :
  Forall P l -> Forall P (remove_nth k l).
Proof.
  intros H. apply Forall_forall. intros x Hx.
  rewrite Forall_forall in H. apply H. eapply remove_nth_In; eauto.
Qed.

Lemma nth_remove_nth_lt {A : Type} (i j : nat) (l : list A) (d : A) :
  i < j -> nth i (remove_nth j l) d = nth i l d.
Proof.
  revert i j. induction l as [|a l IH]; intros i j H.
  - destruct j; reflexivity.
  - destruct j as [|j]; [lia|]. destruct i as [|i]; simpl; [reflexivity|].
    apply IH. lia.
Qed.

(** *** Names *)

Lemma str_inj (a b : nat) : str a = str b -> a = b.
Proof.
  unfold str. intros H.
  assert (E : Nat.to_uint a = Nat.to_uint b).
  { apply (f_equal NilEmpty.uint_of_string) in H.
    rewrite !NilEmpty.usu in H. now injection H. }
  apply (f_equal Nat.of_uint) in E.
  now rewrite !DecimalNat.Unsigned.of_to in E.
Qed.

Lemma str_not_default (a : nat) : str a <> DEFAULT_NAME.
Proof.
  unfold str. intros H.
  apply (f_equal NilEmpty.uint_of_string) in H.
  rewrite NilEmpty.usu in H. discriminate H.
Qed.

(** *** Searching and cutting *)

Lemma find_app_l {A : Type} (f : A -> bool) (l1 l2 : list A) :
  find f (l1 ++ l2) = match find f l1 with Some x => Some x | None => find f l2 end.
Proof.
  induction l1 as [|a l1 IH]; simpl; auto. destruct (f a); auto.
Qed.

Lemma flat_map_single {A B : Type} (f : A -> B) (l : list A) :
  flat_map (fun x => [f x]) l = map f l.
Proof.
  induction l as [|a l IH]; simpl; [reflexivity|now rewrite IH].
Qed.

Lemma at_depth_1 (t : Tree) :
  at_depth 1 t
  = map (fun kc => ([fst kc], snd kc))
        (combine (seq 0 (List.length (children t))) (children t)).
Proof.
  cbn [at_depth map fst snd]. apply flat_map_single.
Qed.

Lemma find_child (s : string) (d : Tree) (cs : list Tree) :
  NoDup (map name cs) ->
  forall a k, k < List.length cs -> name (nth k cs d) = s ->
  find (fun pn : path * Tree => String.eqb (name (snd pn)) s)
       (map (fun kc => ([fst kc], snd kc)) (combine (seq a (List.length cs)) cs))
  = Some ([a + k], nth k cs d).
Proof.
  induction cs as [|c cs IH]; intros Hnd a k Hk Hs; simpl in *; [lia|].
  apply NoDup_cons_iff in Hnd. destruct Hnd as [Hnotin Hnd'].
  destruct k as [|k].
  - rewrite Hs, String.eqb_refl. now rewrite Nat.add_0_r.
  - destruct (String.eqb (name c) s) eqn:E.
    + apply String.eqb_eq in E. exfalso. apply Hnotin.
      rewrite E, <- Hs. apply in_map. apply nth_In. lia.
    + rewrite (IH Hnd' (S a) k) by (auto; lia).
      now replace (S a + k) with (a + S k) by lia.
Qed.

Lemma height_pos (n : string) (d : Q) (c : Tree) (cs : list Tree) :
  exists h, height (Node n d (c :: cs)) = S h.
Proof.
  cbn [height fold_right].
  destruct (Nat.max (S (height c)) (fold_right (fun c0 h => Nat.max (S (height c0)) h) 0 cs)) eqn:E.
  - lia.
  - eauto.
Qed.

Lemma search_name_child (n : string) (d : Q) (cs : list Tree) (s : string)
      (dflt : Tree) (k : nat) :
  n <> s -> NoDup (map name cs) -> k < List.length cs -> name (nth k cs dflt) = s ->
  search_name (Node n d cs) s = Ok [k].
Proof.
  intros Hn Hnd Hk Hs. unfold search_name, levelorder.
  destruct cs as [|c cs]; [simpl in Hk; lia|].
  destruct (height_pos n d c cs) as [h Hh]. rewrite Hh.
  cbn [seq flat_map]. rewrite !find_app_l.
  cbn [at_depth find snd name].
  destruct (String.eqb n s) eqn:E; [apply String.eqb_eq in E; contradiction|].
  change (flat_map _ (combine (seq 0 (List.length (children (Node n d (c :: cs)))))
                              (children (Node n d (c :: cs)))))
    with (at_depth 1 (Node n d (c :: cs))).
  rewrite at_depth_1. cbn [children].
  rewrite (find_child s dflt (c :: cs) Hnd 0 k Hk Hs). reflexivity.
Qed.

Lemma cut_child (n : string) (d : Q) (cs : list Tree) (dflt : Tree) (k : nat) :
  k < List.length cs ->
  cut [k] (Node n d cs) = Some (nth k cs dflt, Node n d (remove_nth k cs)).
Proof.
  intros Hk. cbn [cut children name dist].
  now rewrite (nth_error_nth' cs dflt Hk).
Qed.

Lemma detach2_children (n : string) (d : Q) (cs : list Tree) (dflt : Tree) (i j : nat) :
  i <> j -> i < List.length cs -> j < List.length cs ->
  detach2 [i] [j] (Node n d cs)
  = Ok (nth i cs dflt, nth j cs dflt, Node n d (delete2 cs i j)).
Proof.
  intros Hne Hi Hj. unfold detach2, delete2. cbn [is_prefix lex_lt].
  assert (Eij : Nat.eqb i j = false) by now apply Nat.eqb_neq.
  assert (Eji : Nat.eqb j i = false) by (apply Nat.eqb_neq; auto).
  rewrite Eij, Eji. cbn [andb orb]. rewrite orb_false_r.
  destruct (Nat.ltb i j) eqn:Elt.
  - apply Nat.ltb_lt in Elt.
    rewrite (cut_child n d cs dflt j Hj).
    rewrite (cut_child n d (remove_nth j cs) dflt i) by (rewrite remove_nth_length; lia).
    now rewrite nth_remove_nth_lt.
  - apply Nat.ltb_ge in Elt.
    rewrite (cut_child n d cs dflt i Hi).
    rewrite (cut_child n d (remove_nth i cs) dflt j) by (rewrite remove_nth_length; lia).
    rewrite nth_remove_nth_lt by lia. reflexivity.
Qed.

Lemma delete2_length {A : Type} (l : list A) (i j : nat) :
  i <> j -> i < List.length l -> j < List.length l ->
  List.length (delete2 l i j) = List.length l - 2.
Proof.
  intros Hne Hi Hj. unfold delete2.
  destruct (Nat.eqb i j) eqn:E; [apply Nat.eqb_eq in E; contradiction|].
  destruct (Nat.ltb i j) eqn:Elt.
  - apply Nat.ltb_lt in Elt. rewrite !remove_nth_length; try lia.
    rewrite remove_nth_length; lia.
  - apply Nat.ltb_ge in Elt. rewrite !remove_nth_length; try lia.
    rewrite remove_nth_length; lia.
Qed.

Lemma delete2_map {A B : Type} (f : A -> B) (l : list A) (i j : nat) :
  map f (delete2 l i j) = delete2 (map f l) i j.
Proof.
  unfold delete2. destruct (Nat.eqb i j); [|destruct (Nat.ltb i j)];
    now rewrite ?remove_nth_map.
Qed.

Lemma delete2_In {A : Type} (l : list A) (i j : nat) (x : A) :
  In x (delete2 l i j) -> In x l.
Proof.
  unfold delete2. destruct (Nat.eqb i j); [|destruct (Nat.ltb i j)]; intros H;
    repeat (apply remove_nth_In in H); exact H.
Qed.

Lemma delete2_NoDup {A : Type} (l : list A) (i j : nat) :
  NoDup l -> NoDup (delete2 l i j).
Proof.
  intros H. unfold delete2. destruct (Nat.eqb i j); [|destruct (Nat.ltb i j)];
    repeat apply remove_nth_NoDup; exact H.
Qed.

Lemma delete2_Forall {A : Type} (P : A -> Prop) (l : list A) (i j : nat) :
  Forall P l -> Forall P (delete2 l i j).
Proof.
  intros H. apply Forall_forall. intros x Hx.
  rewrite Forall_forall in H. apply H. eapply delete2_In; eauto.
Qed.

Lemma delete2_sum {A : Type} (f : A -> nat) (l : list A) (d : A) (i j : nat) :
  i <> j -> i < List.length l -> j < List.length l ->
  list_sum (map f (delete2 l i j)) + f (nth i l d) + f (nth j l d) = list_sum (map f l).
Proof.
  intros Hne Hi Hj. unfold delete2.
  destruct (Nat.eqb i j) eqn:E; [apply Nat.eqb_eq in E; contradiction|].
  destruct (Nat.ltb i j) eqn:Elt.
  - apply Nat.ltb_lt in Elt.
    pose proof (remove_nth_sum f j l d Hj) as H1.
    assert (Hi' : i < List.length (remove_nth j l)) by (rewrite remove_nth_length; lia).
    pose proof (remove_nth_sum f i (remove_nth j l) d Hi') as H2.
    rewrite nth_remove_nth_lt in H2 by lia. lia.
  - apply Nat.ltb_ge in Elt.
    pose proof (remove_nth_sum f i l d Hi) as H1.
    assert (Hj' : j < List.length (remove_nth i l)) by (rewrite remove_nth_length; lia).
    pose proof (remove_nth_sum f j (remove_nth i l) d Hj') as H2.
    rewrite nth_remove_nth_lt in H2 by lia. lia.
Qed.

(** *** The joined pair *)

Lemma In_combine_seq {A : Type} (l : list A) (a k : nat) (x : A) :
  In (k, x) (combine (seq a (List.length l)) l) <->
  a <= k /\ nth_error l (k - a) = Some x.
Proof.
  revert a. induction l as [|y l IH]; intros a; simpl.
  - split; [tauto|]. intros [_ H]. destruct (k - a); discriminate.
  - rewrite IH. split.
    + intros [E|[Hle Hn]].
      * inversion E; subst. rewrite Nat.sub_diag. split; [lia|reflexivity].
      * split; [lia|]. replace (k - a) with (S (k - S a)) by lia. exact Hn.
    + intros [Hle Hn]. destruct (Nat.eq_dec a k) as [->|Hne].
      * rewrite Nat.sub_diag in Hn. injection Hn as ->. now left.
      * right. split; [lia|]. replace (k - a) with (S (k - S a)) in Hn by lia. exact Hn.
Qed.

Lemma In_entries {A : Type} (M : list (list A)) (i j : nat) (v : A) :
  In (i, j, v) (entries M) <->
  exists row, nth_error M i = Some row /\ nth_error row j = Some v.
Proof.
  unfold entries. rewrite in_flat_map. split.
  - intros ([i' row] & Hrow & Hin). cbn [fst snd] in Hin.
    apply in_map_iff in Hin. destruct Hin as ([j' v'] & E & Hjv).
    cbn [fst snd] in E. inversion E; subst.
    apply In_combine_seq in Hrow. apply In_combine_seq in Hjv.
    rewrite Nat.sub_0_r in *. exists row. tauto.
  - intros (row & Hrow & Hv). exists (i, row). split.
    + apply In_combine_seq. rewrite Nat.sub_0_r. split; [lia|exact Hrow].
    + cbn [fst snd]. apply in_map_iff. exists (j, v). split; [reflexivity|].
      apply In_combine_seq. rewrite Nat.sub_0_r. split; [lia|exact Hv].
Qed.

Lemma nth_error_map_seq {B : Type} (f : nat -> B) (m k : nat) :
  nth_error (map f (seq 0 m)) k = if Nat.ltb k m then Some (f k) else None.
Proof.
  destruct (Nat.ltb k m) eqn:E.
  - apply Nat.ltb_lt in E. rewrite nth_error_map, nth_error_nth' with (d := 0).
    + rewrite seq_nth by exact E. reflexivity.
    + now rewrite length_seq.
  - apply Nat.ltb_ge in E. apply nth_error_None. now rewrite length_map, length_seq.
Qed.

(** The entry of [Q] at [(a, b)]. *)
Lemma In_entries_Qmatrix (d : qmatrix) (u : list Q) (m a b : nat) (v : ext) :
  In (a, b, v) (entries (Qmatrix d u m)) <->
  a < m /\ b < m /\
  v = (if Nat.eqb a b then PInf
       else if Nat.ltb a b
            then Fin (get d a b - nth a u 0 - nth b u 0)%Q
            else Fin (get d b a - nth b u 0 - nth a u 0)%Q).
Proof.
  rewrite In_entries. unfold Qmatrix. split.
  - intros (row & Hrow & Hv). rewrite nth_error_map_seq in Hrow.
    destruct (Nat.ltb a m) eqn:Ea; [|discriminate]. injection Hrow as <-.
    rewrite nth_error_map_seq in Hv.
    destruct (Nat.ltb b m) eqn:Eb; [|discriminate]. injection Hv as <-.
    apply Nat.ltb_lt in Ea. apply Nat.ltb_lt in Eb. auto.
  - intros (Ha & Hb & ->). eexists. split.
    + rewrite nth_error_map_seq. apply Nat.ltb_lt in Ha. rewrite Ha. reflexivity.
    + rewrite nth_error_map_seq. apply Nat.ltb_lt in Hb. rewrite Hb. reflexivity.
Qed.

Lemma fold_better_in (es : list (nat * nat * ext)) (e : nat * nat * ext) :
  In (fold_left better es e) (e :: es).
Proof.
  revert e. induction es as [|x es IH]; intros e; cbn [fold_left].
  - now left.
  - destruct (IH (better e x)) as [H|H].
    + rewrite <- H. unfold better. destruct (ext_lt (snd x) (snd e)).
      * right. now left.
      * now left.
    + right. now right.
Qed.

Lemma fold_better_inf (es : list (nat * nat * ext)) (e : nat * nat * ext) :
  snd (fold_left better es e) = PInf ->
  forall x, In x (e :: es) -> snd x = PInf.
Proof.
  revert e. induction es as [|y es IH]; intros e Hr x Hx; cbn [fold_left] in Hr.
  - destruct Hx as [<-|[]]. exact Hr.
  - specialize (IH (better e y) Hr). unfold better in IH.
    destruct (ext_lt (snd y) (snd e)) eqn:E.
    + assert (Hy : snd y = PInf) by (apply IH; now left).
      rewrite Hy in E. discriminate E.
    + assert (He : snd e = PInf) by (apply IH; now left).
      destruct Hx as [<-|[<-|Hx]].
      * exact He.
      * rewrite He in E. destruct (snd y); [discriminate E|reflexivity].
      * apply IH. now right.
Qed.

Lemma argmin2_offdiag (d : qmatrix) (u : list Q) (m : nat) :
  2 <= m ->
  exists i j, argmin2 (Qmatrix d u m) = Ok (i, j) /\ i < m /\ j < m /\ i <> j.
Proof.
  intros Hm.
  assert (H01 : exists q, In (0, 1, Fin q) (entries (Qmatrix d u m))).
  { eexists. apply In_entries_Qmatrix. repeat split; lia. }
  destruct H01 as [q H01]. unfold argmin2.
  destruct (entries (Qmatrix d u m)) as [|e es] eqn:Ees; [destruct H01|].
  pose proof (fold_better_in es e) as Hin. rewrite <- Ees in Hin.
  destruct (fold_left better es e) as [[i j] v] eqn:Er.
  apply In_entries_Qmatrix in Hin. destruct Hin as (Hi & Hj & Hv).
  exists i, j. cbn [fst]. repeat split; auto.
  intros ->. rewrite Nat.eqb_refl in Hv.
  assert (Hinf : snd (fold_left better es e) = PInf) by (rewrite Er; exact Hv).
  pose proof (fold_better_inf es e Hinf _ H01) as Hcontra.
  discriminate Hcontra.
Qed.

(** *** One pass of the loop *)

Lemma set_length (i j : nat) (v : Q) (D : qmatrix) :
  List.length (set i j v D) = List.length D.
Proof. unfold set. apply upd_length. Qed.

Lemma update_D_length (c : choice) (internals : list nat) (D : qmatrix) :
  List.length (update_D c internals D) = List.length D.
Proof.
  unfold update_D, store_pair. rewrite !set_length.
  generalize (combine (seq 0 (List.length internals)) internals). intros L.
  revert D. induction L as [|ka L IH]; intros D; cbn [fold_left]; [reflexivity|].
  rewrite IH. now rewrite !set_length.
Qed.

Lemma set_square (dim i j : nat) (v : Q) (D : qmatrix) :
  square dim D -> square dim (set i j v D).
Proof.
  intros [HL Hrows]. unfold set. split.
  - now rewrite upd_length.
  - rewrite Forall_forall in *. intros r Hr. apply In_nth with (d := []) in Hr.
    destruct Hr as (k & Hk & <-). rewrite upd_length in Hk.
    destruct (Nat.eq_dec i k) as [->|Hne].
    + rewrite (@nth_upd_same _ k (Phred.upd j (fun _ => v)) D [] Hk).
      rewrite upd_length. apply Hrows, nth_In. exact Hk.
    + rewrite (@nth_upd_other _ i k (Phred.upd j (fun _ => v)) D [] Hne).
      apply Hrows, nth_In. exact Hk.
Qed.

Lemma update_D_square (dim : nat) (c : choice) (internals : list nat) (D : qmatrix) :
  square dim D -> square dim (update_D c internals D).
Proof.
  intros HD. unfold update_D, store_pair. do 4 apply set_square.
  generalize (combine (seq 0 (List.length internals)) internals). intros L.
  revert D HD. induction L as [|ka L IH]; intros D HD; cbn [fold_left]; [exact HD|].
  apply IH. now do 2 apply set_square.
Qed.

(** In a square array every entry with indices below the dimension
    exists. *)
Lemma in_bounds_square (dim : nat) (D : qmatrix) (a b : nat) :
  square dim D -> a < dim -> b < dim -> in_bounds D a b = true.
Proof.
  intros [HL Hrows] Ha Hb. unfold in_bounds.
  assert (Hr : List.length (nth a D []) = dim).
  { rewrite Forall_forall in Hrows. apply Hrows, nth_In. lia. }
  rewrite Hr, HL. apply andb_true_iff. split; apply Nat.ltb_lt; assumption.
Qed.

Lemma gather_square (dim : nat) (D : qmatrix) (ints : list nat) :
  square dim D -> Forall (fun k => k < dim) ints ->
  gather D ints = Ok (map (fun a => map (fun b => get D a b) ints) ints).
Proof.
  intros HD Hlt. unfold gather.
  assert (Hg : forallb (fun a => forallb (fun b => in_bounds D a b) ints) ints = true).
  { rewrite Forall_forall in Hlt. apply forallb_forall. intros a Ha.
    apply forallb_forall. intros b Hb. apply (in_bounds_square dim); auto. }
  now rewrite Hg.
Qed.

Lemma writable_square (dim : nat) (D : qmatrix) (l : nat) (ints : list nat) :
  square dim D -> l < dim -> Forall (fun k => k < dim) ints -> writable D l ints = true.
Proof.
  intros HD Hl Hlt. unfold writable. rewrite Forall_forall in Hlt.
  apply forallb_forall. intros a Ha.
  rewrite !(in_bounds_square dim) by auto. reflexivity.
Qed.

Lemma NoDup_map_str (l : list nat) : NoDup l -> NoDup (map str l).
Proof.
  induction 1 as [|a l Ha Hl IH]; simpl; constructor; auto.
  intros Hin. apply in_map_iff in Hin. destruct Hin as (b & E & Hb).
  apply str_inj in E. subst b. contradiction.
Qed.

Lemma NoDup_snoc {A : Type} (l : list A) (x : A) :
  NoDup l -> ~ In x l -> NoDup (l ++ [x]).
Proof.
  induction 1 as [|a l Ha Hl IH]; intros Hx; simpl.
  - constructor; [tauto|constructor].
  - constructor.
    + rewrite in_app_iff. intros [H|[H|[]]]; [contradiction|].
      subst. apply Hx. now left.
    + apply IH. intros H. apply Hx. now right.
Qed.

Lemma is_binary_set_dist (d : Q) (t : Tree) : is_binary (set_dist d t) = is_binary t.
Proof. destruct t as [n d0 cs]. reflexivity. Qed.

Lemma n_leaves_set_dist (d : Q) (t : Tree) : n_leaves (set_dist d t) = n_leaves t.
Proof. destruct t as [n d0 cs]. reflexivity. Qed.

Lemma n_internal_set_dist (d : Q) (t : Tree) : n_internal (set_dist d t) = n_internal t.
Proof. destruct t as [n d0 cs]. reflexivity. Qed.

Lemma name_nth (cs : list Tree) (ints : list nat) (dflt : Tree) (k : nat) :
  map name cs = map str ints -> k < List.length ints ->
  name (nth k cs dflt) = str (nth k ints 0).
Proof.
  intros E Hk.
  rewrite <- (map_nth name cs dflt k), E.
  rewrite (nth_indep (map str ints) (name dflt) (str 0)) by now rewrite length_map.
  apply map_nth.
Qed.

Lemma forallb_nth (f : Tree -> bool) (cs : list Tree) (dflt : Tree) (k : nat) :
  forallb f cs = true -> k < List.length cs -> f (nth k cs dflt) = true.
Proof.
  intros H Hk. rewrite forallb_forall in H. apply H. now apply nth_In.
Qed.

Lemma forallb_delete2 (f : Tree -> bool) (cs : list Tree) (i j : nat) :
  forallb f cs = true -> forallb f (delete2 cs i j) = true.
Proof.
  rewrite !forallb_forall. intros H x Hx. apply H. eapply delete2_In; eauto.
Qed.

Lemma nj_step_inv (m0 : nat) (s : state) :
  nj_inv m0 s -> 2 < List.length (st_internals s) ->
  exists s', nj_step s = Ok s' /\ nj_inv m0 s' /\
             List.length (st_internals s') = List.length (st_internals s) - 1.
Proof.
  destruct s as [D [rn rd cs] ints].
  unfold nj_inv. cbn [st_D st_tree st_internals children name].
  set (m := List.length ints).
  intros (HD & Hm & Hname & Hnames & Hnd & Hlt & Hbin & Hleaves & Hint) Hm2.
  assert (Hcs : List.length cs = m).
  { unfold m. rewrite <- (length_map name cs), Hnames. apply length_map. }
  pose proof HD as HDsq. destruct HD as [HD Hrows].
  assert (Hdim : Forall (fun k => k < 2 * m0 - 2) ints).
  { eapply Forall_impl; [|exact Hlt]. cbn beta. intros a Ha. lia. }
  unfold nj_step, choose. cbn [st_D st_tree st_internals]. fold m.
  (* gather *)
  rewrite (gather_square (2 * m0 - 2) D ints HDsq Hdim). cbn [bind].
  set (d := map (fun a => map (fun b => get D a b) ints) ints).
  set (u := map (fun row => (qsum row / inject_Z (Z.of_nat (m - 2)))%Q) d).
  destruct (argmin2_offdiag d u m) as (i & j & Harg & Hi & Hj & Hij); [lia|].
  rewrite Harg. cbn [bind fst snd].
  assert (Hl : Nat.ltb (List.length D + 2) m = false) by (apply Nat.ltb_ge; lia).
  rewrite Hl. cbn [bind].
  set (c := mkChoice d u i j (List.length D + 2 - m)).
  (* the writes *)
  assert (Hw : writable D (ch_l c) ints = true).
  { apply (writable_square (2 * m0 - 2)); [exact HDsq|cbn [ch_l c]; lia|exact Hdim]. }
  rewrite Hw.
  (* join *)
  unfold join, index. cbn [ch_i ch_j ch_l c].
  rewrite (nth_error_nth' ints 0 Hi), (nth_error_nth' ints 0 Hj). cbn [bind].
  set (dflt := Node EmptyString 0%Q []).
  assert (Hrn : rn <> str (nth i ints 0) /\ rn <> str (nth j ints 0)).
  { rewrite Hname. split; intros E; symmetry in E; revert E; apply str_not_default. }
  assert (Hndn : NoDup (map name cs)) by (rewrite Hnames; now apply NoDup_map_str).
  rewrite (search_name_child rn rd cs (str (nth i ints 0)) dflt i);
    [|tauto|exact Hndn|lia|now apply name_nth].
  rewrite (search_name_child rn rd cs (str (nth j ints 0)) dflt j);
    [|tauto|exact Hndn|lia|now apply name_nth].
  cbn [bind].
  rewrite (detach2_children rn rd cs dflt i j) by lia.
  cbn [bind].
  eexists. split; [reflexivity|].
  cbn [st_D st_tree st_internals add_child children name dist].
  assert (Hlen' : List.length (delete2 ints i j ++ [List.length D + 2 - m]) = m - 1).
  { rewrite length_app, delete2_length by (auto; lia). cbn [List.length]. fold m. lia. }
  rewrite Hlen'.
  split; [|reflexivity].
  split; [now apply update_D_square|].
  repeat split.
  - lia.
  - lia.
  - exact Hname.
  - rewrite !map_app, !delete2_map, Hnames. reflexivity.
  - apply NoDup_snoc; [now apply delete2_NoDup|].
    intros Hin. apply delete2_In in Hin. rewrite Forall_forall in Hlt.
    specialize (Hlt _ Hin). lia.
  - apply Forall_app. split.
    + apply delete2_Forall. eapply Forall_impl; [|exact Hlt].
      cbn beta. intros a Ha. lia.
    + constructor; [lia|constructor].
  - rewrite forallb_app. rewrite forallb_delete2 by exact Hbin.
    cbn [forallb is_binary andb]. rewrite !is_binary_set_dist.
    rewrite !forallb_nth by (auto; lia). reflexivity.
  - rewrite map_app, list_sum_app. cbn [map list_sum n_leaves].
    rewrite !n_leaves_set_dist.
    pose proof (delete2_sum n_leaves cs dflt i j Hij ltac:(lia) ltac:(lia)) as Hs.
    unfold list_sum in *. cbn [fold_right] in *. lia.
  - rewrite map_app, list_sum_app. cbn [map list_sum n_internal].
    rewrite !n_internal_set_dist.
    pose proof (delete2_sum n_internal cs dflt i j Hij ltac:(lia) ltac:(lia)) as Hs.
    unfold list_sum in *. cbn [fold_right] in *. lia.
Qed.

Lemma nj_loop_inv (m0 : nat) (fuel : nat) :
  forall s, nj_inv m0 s -> List.length (st_internals s) <= fuel + 2 ->
  exists s', nj_loop fuel s = Ok s' /\ nj_inv m0 s' /\ List.length (st_internals s') = 2.
Proof.
  induction fuel as [|fuel IH]; intros s Hinv Hfuel.
  - exists s. assert (Hm : 2 <= List.length (st_internals s)) by (destruct Hinv; tauto).
    cbn [nj_loop].
    replace (Nat.ltb 2 (List.length (st_internals s))) with false
      by (symmetry; apply Nat.ltb_ge; lia).
    split; [reflexivity|split; [exact Hinv|lia]].
  - cbn [nj_loop]. destruct (Nat.ltb 2 (List.length (st_internals s))) eqn:E.
    + apply Nat.ltb_lt in E.
      destruct (nj_step_inv m0 s Hinv E) as (s1 & Hstep & Hinv1 & Hlen1).
      rewrite Hstep. cbn [bind]. apply IH; [exact Hinv1|lia].
    + apply Nat.ltb_ge in E.
      assert (Hm : 2 <= List.length (st_internals s)) by (destruct Hinv; tauto).
      exists s. split; [reflexivity|split; [exact Hinv|lia]].
Qed.

Lemma list_sum_const {A : Type} (f : A -> nat) (c : nat) (l : list A) :
  (forall x, f x = c) -> list_sum (map f l) = c * List.length l.
Proof.
  intros Hf. induction l as [|a l IH]; simpl; [lia|].
  rewrite Hf, IH. lia.
Qed.

Lemma init_inv (m : nat) (D : qmatrix) :
  2 <= m -> square (2 * m - 2) D ->
  nj_inv m (mkState D (init_star_tree m) (arange m)).
Proof.
  intros Hm HD. unfold nj_inv, init_star_tree, arange.
  cbn [st_D st_tree st_internals children name]. rewrite length_seq.
  split; [exact HD|].
  repeat split; auto; try lia.
  - rewrite map_map. reflexivity.
  - apply seq_NoDup.
  - apply Forall_forall. intros k Hk. apply in_seq in Hk. lia.
  - apply forallb_forall. intros t Ht. apply in_map_iff in Ht.
    destruct Ht as (k & <- & _). reflexivity.
  - rewrite map_map, (list_sum_const _ 1) by reflexivity.
    rewrite length_seq. lia.
  - rewrite map_map, (list_sum_const _ 0) by reflexivity. lia.
Qed.

(** *** The tree neighbor joining returns *)

(** C4 (as amended).  For every distance matrix over [m >= 3] active
    nodes, held in the (2m-2)-square array the program allocates (the
    symmetric non-negative ones among them), [neighbor_joining] on the
    star tree returns a single binary tree with exactly [m] leaves and
    [m-2] internal nodes besides the root.  Nothing is promised about
    the sign of the branch lengths. *)
Theorem C4_neighbor_joining_binary_tree (m : nat) (D : qmatrix) :
  3 <= m -> square (2 * m - 2) D ->
  exists t, neighbor_joining D (init_star_tree m) (arange m) = Ok t /\
            is_binary t = true /\
            n_leaves t = m /\
            n_internal t = S (m - 2).
Proof.
  intros Hm HD. unfold neighbor_joining.
  assert (Hinv : nj_inv m (mkState D (init_star_tree m) (arange m)))
    by (apply init_inv; [lia|exact HD]).
  destruct (nj_loop_inv m (List.length (arange m)) _ Hinv) as (s & Hloop & Hs & Hlen).
  { cbn [st_internals]. lia. }
  rewrite Hloop. cbn [bind]. exists (st_tree s). split; [reflexivity|].
  destruct s as [D' [rn rd cs] ints].
  unfold nj_inv in Hs. cbn [st_D st_tree st_internals children name] in *.
  destruct Hs as (_ & _ & _ & Hnames & _ & _ & Hbin & Hleaves & Hint).
  assert (Hcs : List.length cs = 2).
  { rewrite <- (length_map name cs), Hnames, length_map. exact Hlen. }
  destruct cs as [|c1 [|c2 [|c3 cs]]]; cbn [List.length] in Hcs; try lia.
  rewrite Hlen in Hint.
  repeat split.
  - cbn [is_binary]. rewrite Hbin. reflexivity.
  - cbn [n_leaves]. exact Hleaves.
  - cbn [n_internal]. now rewrite Hint.
Qed.

Lemma D3_square : square 4 D3.
Proof. split; [reflexivity|repeat constructor]. Qed.

Lemma C4_neighbor_joining_binary_tree_witness :
  exists t, neighbor_joining D3 (init_star_tree 3) (arange 3) = Ok t /\
            is_binary t = true /\ n_leaves t = 3 /\ n_internal t = 2.
Proof.
  apply (C4_neighbor_joining_binary_tree 3 D3); [lia|exact D3_square].
Defined.

(** C4 as worded fails: [D3] is symmetric and non-negative, and the tree
    neighbor joining builds from it stores the branch length -4 on the
    leaf named 1. *)
Lemma C4_negative_branch_length_counterexample :
  symmetric_nonneg D3 = true /\
  neighbor_joining D3 (init_star_tree 3) (arange 3)
  = Ok (Node "NoName" 1 [Node "2" 1 []; Node "3" 1 [Node "0" 5 []; Node "1" (-4) []]]) /\
  exists t, neighbor_joining D3 (init_star_tree 3) (arange 3) = Ok t /\
            exists b, In b (branch_lengths t) /\ (b < 0)%Q.
Proof.
  split; [reflexivity|]. split; [vm_compute; reflexivity|].
  eexists. split; [vm_compute; reflexivity|].
  exists (-4)%Q. split; [cbn; tauto|reflexivity].
Qed.

(** *** The distances stored for a new node *)

(** C5 at the input [D4] (four samples, first pass of the loop): the
    pass joins nodes 0 and 1 into node 4 with branch lengths
    [int(vi) = int(vj) = 1], and stores as the distance from node 4 to
    node 2 the whole of [d[0,2]+d[1,2]-d[0,1] = 6], not its half 3. *)
Theorem C5_new_distance_not_halved :
  exists s', nj_step (mkState D4 (init_star_tree 4) (arange 4)) = Ok s' /\
    st_internals s' = [2; 3; 4] /\
    st_tree s' = Node "NoName" 1
                      [Node "2" 1 []; Node "3" 1 [];
                       Node "4" 1 [Node "0" 1 []; Node "1" 1 []]] /\
    (get (st_D s') 4 2 == get D4 0 2 + get D4 1 2 - get D4 0 1)%Q /\
    (get (st_D s') 4 2 == 6)%Q /\
    ~ (get (st_D s') 4 2 == (get D4 0 2 + get D4 1 2 - get D4 0 1) / 2)%Q.
Proof.
  eexists. split; [vm_compute; reflexivity|].
  split; [reflexivity|]. split; [reflexivity|].
  split; [reflexivity|]. split; [reflexivity|].
  intros H. vm_compute in H. discriminate H.
Qed.

End NJFacts.

(** ** Likelihood propagation *)

Section LikFacts.
Import Phred Lik.
Local Open Scope nat_scope.

Lemma bind_Ok {A B : Type} (r : result A) (k : A -> result B) (b : B) :
  bind r k = Ok b -> exists a, r = Ok a /\ k a = Ok b.
Proof. destruct r as [a|e]; simpl; intros H; [eauto|discriminate]. Qed.

Ltac inv_bind H :=
  repeat match type of H with
         | bind ?r ?k = Ok ?b =>
           let a := fresh "x" in
           let E := fresh "E" in
           apply bind_Ok in H; destruct H as (a & E & H); cbv beta in H
         end.


Lemma Tree_ind' (P : Tree -> Prop) :
  (forall nm s pl0 plm cs, Forall P cs -> P (TreeNode nm s pl0 plm cs)) ->
  forall t, P t.
Proof.
  intros H. fix IH 1. intros [nm s pl0 plm cs]. apply H.
  induction cs as [|c cs IHcs]; constructor; [apply IH|exact IHcs].
Qed.

(** *** What a refresh leaves alone *)

Lemma same_skeleton_refl (t : Tree) : same_skeleton t t.
Proof. repeat split. Qed.

Lemma same_skeleton_set_sid (s : list Z) (t t' : Tree) :
  same_skeleton t t' -> same_skeleton t (set_sid s t').
Proof. destruct t' as [nm s' p q cs]. exact (fun H => H). Qed.

Lemma same_skeleton_node (nm nm' : string) (s s' : option (list Z))
      (p p' : option matrix) (q q' : option tensor) (cs cs' : list Tree) :
  nm' = nm -> Forall2 same_skeleton cs cs' ->
  same_skeleton (TreeNode nm s p q cs) (TreeNode nm' s' p' q' cs').
Proof.
  intros -> H.
  assert (Hlen : map len cs' = map len cs).
  { clear - H. induction H as [|c c' cs cs' Hc _ IH]; cbn [map]; [reflexivity|].
    destruct Hc as (-> & _ & _). now rewrite IH. }
  assert (Hnames : flat_map get_leaf_names cs' = flat_map get_leaf_names cs).
  { clear - H. induction H as [|c c' cs cs' Hc _ IH]; cbn [flat_map]; [reflexivity|].
    destruct Hc as (_ & -> & _). now rewrite IH. }
  assert (Hn : List.length cs' = List.length cs)
    by (symmetry; eapply Forall2_length; eauto).
  destruct H as [|c c' cs cs' Hc Hcs].
  - split; [reflexivity|split; reflexivity].
  - unfold same_skeleton. cbn [len get_leaf_names children].
    rewrite Hlen, Hnames. split; [reflexivity|split; [reflexivity|exact Hn]].
Qed.

Lemma refresh_child_skeleton (update : Tree -> result Tree) (c c' : Tree) :
  (forall x, update c = Ok x -> same_skeleton c x) ->
  refresh_child update c = Ok c' -> same_skeleton c c'.
Proof.
  intros Hup H. unfold refresh_child in H. inv_bind H.
  destruct (list_eq_dec Z.eq_dec x0 x).
  - injection H as <-. apply same_skeleton_refl.
  - inv_bind H. injection H as <-. apply same_skeleton_set_sid. now apply Hup.
Qed.

Lemma sum_children_skeleton (mm0 : matrix) (update : Tree -> result Tree) (cs : list Tree) :
  Forall (fun c => forall x, update c = Ok x -> same_skeleton c x) cs ->
  forall acc r, sum_children mm0 update cs acc = Ok r -> Forall2 same_skeleton cs (fst r).
Proof.
  induction 1 as [|c cs Hc Hcs IH]; intros acc r H; cbn [sum_children] in H.
  - injection H as <-. constructor.
  - inv_bind H. injection H as <-. cbn [fst]. constructor.
    + eapply refresh_child_skeleton; eauto.
    + eapply IH; eauto.
Qed.

Lemma update_PL_skeleton (mm0 mm1 : matrix) (t : Tree) :
  forall t', update_PL mm0 mm1 t = Ok t' -> same_skeleton t t'.
Proof.
  induction t as [nm s pl0 plm cs IH] using Tree_ind'. intros t' H.
  cbn [update_PL] in H. inv_bind H. injection H as <-.
  apply same_skeleton_node; [reflexivity|].
  eapply sum_children_skeleton; eauto.
Qed.

(** *** The number of rows of [PLm] *)












(** *** After [calc_mut_likelihoods] *)



Lemma mapM_Forall2 {A B : Type} (f : A -> result B) (P : A -> B -> Prop) (l : list A) :
  Forall (fun a => forall b, f a = Ok b -> P a b) l ->
  forall l', mapM f l = Ok l' -> Forall2 P l l'.
Proof.
  induction 1 as [|a l Ha Hl IH]; intros l' H; cbn [mapM] in H.
  - injection H as <-. constructor.
  - inv_bind H. injection H as <-. constructor; auto.
Qed.





(** *** A second refresh changes nothing *)

Lemma vadd_length (a b : vector) :
  List.length a = List.length b -> List.length (vadd a b) = List.length a.
Proof.
  intros H. unfold vadd. rewrite length_map, length_combine. lia.
Qed.

Lemma madd_chk_lengths (A B C : matrix) :
  madd_chk A B = Ok C -> map (@List.length R) C = map (@List.length R) A.
Proof.
  unfold madd_chk, same_shape.
  destruct (Nat.eqb (List.length A) (List.length B)) eqn:E; [|discriminate].
  cbn [andb]. destruct (forallb _ _) eqn:F; [|discriminate].
  intros H. injection H as <-. apply Nat.eqb_eq in E.
  unfold madd. revert B E F. induction A as [|a A IH]; intros [|b B] E F;
    cbn [List.length] in E; try discriminate; [reflexivity|].
  cbn [combine map fst snd forallb] in *. apply andb_true_iff in F. destruct F as [Fa F].
  apply Nat.eqb_eq in Fa. rewrite vadd_length by exact Fa.
  f_equal. apply IH; [lia|exact F].
Qed.

Lemma sum_children_lengths (mm0 : matrix) (update : Tree -> result Tree) (cs : list Tree) :
  forall acc r, sum_children mm0 update cs acc = Ok r ->
                map (@List.length R) (snd r) = map (@List.length R) acc.
Proof.
  induction cs as [|c cs IH]; intros acc r H; cbn [sum_children] in H.
  - now injection H as <-.
  - inv_bind H. injection H as <-. cbn [snd].
    match goal with
    | Hs : sum_children _ _ cs _ = Ok _, Hm : madd_chk acc _ = Ok _ |- _ =>
      rewrite (IH _ _ Hs); exact (madd_chk_lengths _ _ _ Hm)
    end.
Qed.

Lemma zeros_lengths (n g : nat) : map (@List.length R) (zeros n g) = repeat g n.
Proof.
  unfold zeros. induction n as [|n IH]; cbn [repeat map]; [reflexivity|].
  now rewrite IH, repeat_length.
Qed.

Lemma zeros_of_shape (A : matrix) (n g : nat) :
  map (@List.length R) A = repeat g n ->
  zeros (fst (shape A)) (snd (shape A)) = zeros n g.
Proof.
  intros H. unfold shape. cbn [fst snd].
  assert (Hn : List.length A = n).
  { rewrite <- (length_map (@List.length R) A), H. apply repeat_length. }
  rewrite Hn. destruct n as [|n]; [reflexivity|].
  destruct A as [|a A]; [discriminate Hn|].
  cbn [map repeat hd] in *. injection H as -> _. reflexivity.
Qed.

Lemma leaf_sid_names (t t' : Tree) :
  get_leaf_names t' = get_leaf_names t -> leaf_sid t' = leaf_sid t.
Proof. unfold leaf_sid. now intros ->. Qed.

Lemma refresh_child_again (update update' : Tree -> result Tree) (c c' : Tree) :
  (forall x, update c = Ok x -> same_skeleton c x) ->
  refresh_child update c = Ok c' -> refresh_child update' c' = Ok c'.
Proof.
  intros Hup H. unfold refresh_child in H. inv_bind H.
  match goal with
  | Hl : leaf_sid c = Ok ?s, Ha : attr (sid c) = Ok ?s0 |- _ =>
    destruct (list_eq_dec Z.eq_dec s0 s) as [Heq|Hne]
  end.
  - injection H as <-. unfold refresh_child.
    match goal with
    | Hl : leaf_sid c = Ok _, Ha : attr (sid c) = Ok _ |- _ => rewrite Hl, Ha
    end.
    cbn [bind]. destruct (list_eq_dec Z.eq_dec _ _); [reflexivity|contradiction].
  - inv_bind H. injection H as <-.
    match goal with
    | Hu : update c = Ok ?z |- _ =>
      destruct (Hup _ Hu) as (_ & Hnames & _); destruct z as [nm s' p q cs]
    end.
    unfold refresh_child, set_sid. cbn [name PL0 PLm children sid attr].
    match goal with
    | Hl : leaf_sid c = Ok ?s |- _ =>
      replace (leaf_sid (TreeNode nm (Some s) p q cs)) with (Ok s)
        by (rewrite <- Hl; symmetry; apply leaf_sid_names; exact Hnames)
    end.
    cbn [bind]. destruct (list_eq_dec Z.eq_dec _ _); [reflexivity|contradiction].
Qed.

Lemma sum_children_again (mm0 : matrix) (update update' : Tree -> result Tree)
      (cs : list Tree) :
  Forall (fun c => forall x, update c = Ok x -> same_skeleton c x) cs ->
  forall acc r, sum_children mm0 update cs acc = Ok r ->
                sum_children mm0 update' (fst r) acc = Ok r.
Proof.
  induction 1 as [|c cs Hc Hcs IH]; intros acc r H; cbn [sum_children] in H.
  - injection H as <-. reflexivity.
  - inv_bind H. injection H as <-. cbn [fst sum_children].
    match goal with
    | Hr : refresh_child update c = Ok _ |- _ =>
      rewrite (refresh_child_again update update' _ _ Hc Hr)
    end.
    cbn [bind].
    repeat match goal with
           | Hx : ?e = Ok _ |- context [bind ?e _] => rewrite Hx; cbn [bind]
           end.
    match goal with
    | Hs : sum_children mm0 update cs _ = Ok ?r1 |- _ =>
      rewrite (IH _ _ Hs); cbn [bind]; destruct r1; reflexivity
    end.
Qed.

Lemma update_PL_idempotent (mm0 mm1 : matrix) (t t1 : Tree) :
  update_PL mm0 mm1 t = Ok t1 -> update_PL mm0 mm1 t1 = Ok t1.
Proof.
  intros H. pose proof (update_PL_skeleton mm0 mm1 t t1 H) as (Hlen & _ & _).
  destruct t as [nm s pl0 plm cs].
  cbn [update_PL] in H. inv_bind H. injection H as <-.
  match goal with
  | Ha : attr pl0 = Ok ?P0, Hs : sum_children _ _ cs _ = Ok ?r,
    Hf : fill_PLm _ _ _ _ _ _ _ = Ok ?T |- _ =>
    pose proof (sum_children_lengths _ _ _ _ _ Hs) as Hacc;
    rewrite zeros_lengths in Hacc;
    pose proof (zeros_of_shape _ _ _ Hacc) as Hz;
    assert (Hagain : sum_children mm0 (update_PL mm0 mm1) (fst r)
                                  (zeros (fst (shape P0)) (snd (shape P0))) = Ok r)
      by (apply (sum_children_again mm0 (update_PL mm0 mm1)) with (cs := cs);
          [apply Forall_forall; intros c _ z Hz'; eapply update_PL_skeleton; eauto
          |exact Hs]);
    cbn [update_PL attr bind]; unfold zeros3 in *;
    rewrite Hz, Hlen, Hagain; cbn [bind]; rewrite Hf; reflexivity
  end.
Qed.

(** C8.  [update_PL] is idempotent: when a call on a node returns, a
    second call on the same node, the tree not having been edited in
    between, returns too and leaves the node as the first call left it,
    its [PL0] and [PLm] (and those of all its descendants) included. *)
Theorem C8_update_PL_idempotent (mm0 mm1 : matrix) (node node1 : Tree) :
  update_PL mm0 mm1 node = Ok node1 ->
  exists node2, update_PL mm0 mm1 node1 = Ok node2 /\
                PL0 node2 = PL0 node1 /\ PLm node2 = PLm node1 /\ node2 = node1.
Proof.
  intros H. exists node1. split; [|auto].
  exact (update_PL_idempotent mm0 mm1 node node1 H).
Qed.

Lemma C8_update_PL_idempotent_witness :
  exists node1 node2,
    update_PL mm0_ex mm1_ex tree3_edited = Ok node1 /\
    update_PL mm0_ex mm1_ex node1 = Ok node2 /\
    PL0 node2 = PL0 node1 /\ PLm node2 = PLm node1 /\ node2 = node1.
Proof.
  eexists.
  destruct (C8_update_PL_idempotent mm0_ex mm1_ex tree3_edited _ eq_refl)
    as (node2 & H2 & H).
  exists node2. split; [reflexivity|]. split; [exact H2|exact H].
Defined.

End LikFacts.

(** ** Rerooting and nearest-neighbor interchange *)

Section SearchFacts.
Import Phred Lik Search.
Local Open Scope nat_scope.

(** *** What [reroot] returns, and how it is called *)

Lemma reroot_returns_triple (args : list pyval) (v : pyval) :
  reroot args = Ok v -> exists a b c, v = VTuple [a; b; c].
Proof.
  unfold reroot.
  destruct args as [|a1 [|a2 [|a3 [|a4 [|a5 [|a6 args]]]]]]; try discriminate.
  destruct a1; try discriminate. destruct a2; try discriminate.
  destruct a3; try discriminate. destruct a4; try discriminate.
  destruct a5; try discriminate.
  unfold reroot_body. intros H.
  destruct (score t v0) as [best|e]; [|discriminate]. cbn [bind] in H.
  destruct (mapM (subtree t) (iter_descendants t)) as [nodes|e]; [|discriminate].
  cbn [bind] in H.
  destruct (reroot_loop t M M0 v0 r nodes (t, best, 0%Z)) as [res|e]; [|discriminate].
  cbn [bind] in H. injection H as <-. eauto.
Qed.

Lemma reroot_four_arguments (a b c d : pyval) : reroot [a; b; c; d] = Raise TypeError.
Proof. reflexivity. Qed.

Lemma unpack2_of_reroot {A : Type} (args : list pyval) (k : list pyval -> result A) :
  is_ok (r <- reroot args ;; vs <- unpack 2 r ;; k vs)%py = false.
Proof.
  destruct (reroot args) as [v|e] eqn:E; [|reflexivity].
  destruct (reroot_returns_triple args v E) as (a & b & c & ->). reflexivity.
Qed.

Lemma unpack2_of_triple {A : Type} (args : list pyval) (k : list pyval -> result A)
      (v : pyval) :
  reroot args = Ok v -> (r <- reroot args ;; vs <- unpack 2 r ;; k vs)%py = Raise ValueError.
Proof.
  intros E. rewrite E. destruct (reroot_returns_triple args v E) as (a & b & c & ->).
  reflexivity.
Qed.

Lemma reroot_loop_ok (tree : Tree) (mm0 mm1 : matrix) (bp : vector) (DELTA : R)
      (nodes : list Tree) :
  forallb (fun n => is_ok (candidate tree mm0 mm1 bp n)) nodes = true ->
  forall best, is_ok (reroot_loop tree mm0 mm1 bp DELTA nodes best) = true.
Proof.
  induction nodes as [|n nodes IH]; intros H best; cbn [reroot_loop].
  - reflexivity.
  - cbn [forallb] in H. apply andb_true_iff in H. destruct H as [Hn H].
    destruct (candidate tree mm0 mm1 bp n) as [c|e]; [|discriminate Hn].
    cbn [bind]. apply IH. exact H.
Qed.

Lemma reroot_ok (tree : Tree) (mm0 mm1 : matrix) (bp : vector) (DELTA : R) :
  reroot_runs tree mm0 mm1 bp = true ->
  exists v, reroot [VTree tree; VArray mm0; VArray mm1; VVector bp; VFloat DELTA] = Ok v.
Proof.
  unfold reroot_runs. intros H. apply andb_true_iff in H. destruct H as [Hs Hn].
  cbn [reroot]. unfold reroot_body.
  destruct (score tree bp) as [best|e]; [|discriminate Hs]. cbn [bind].
  destruct (mapM (subtree tree) (iter_descendants tree)) as [nodes|e]; [|discriminate Hn].
  cbn [bind].
  pose proof (reroot_loop_ok tree mm0 mm1 bp DELTA nodes Hn (tree, best, 0%Z)) as Hl.
  destruct (reroot_loop tree mm0 mm1 bp DELTA nodes (tree, best, 0%Z)) as [res|e];
    [|discriminate Hl].
  cbn [bind]. eauto.
Qed.

(** *** [recursive_reroot] *)

(** The sweep returns only when it met no node with children, and then
    it returns the tree as it was. *)
Lemma reroot_sweep_leaves (mm0 mm1 : matrix) (bp : vector) (DELTA : R) (todo : list path) :
  forall moved tree t,
    reroot_sweep mm0 mm1 bp DELTA todo moved tree = Ok t -> t = tree.
Proof.
  induction todo as [|q rest IH]; intros moved tree t H; cbn [reroot_sweep] in H.
  - now injection H as <-.
  - destruct (subtree tree (position moved q)) as [node|e]; [|discriminate H].
    cbn [bind] in H. destruct (is_leaf node).
    + now apply IH in H.
    + destruct (reroot [VTree node; VArray mm0; VArray mm1; VVector bp; VFloat DELTA])
        as [v|e] eqn:E; [|discriminate H].
      destruct (reroot_returns_triple _ _ E) as (a & b & c & ->).
      discriminate H.
Qed.

(** For no tree at all does [recursive_reroot] return. *)
Lemma recursive_reroot_never_returns (mm0 mm1 : matrix) (bp : vector) (DELTA : R)
      (tree : Tree) :
  is_ok (recursive_reroot mm0 mm1 bp DELTA tree) = false.
Proof.
  unfold recursive_reroot.
  destruct (reroot_sweep mm0 mm1 bp DELTA (iter_descendants tree) [] tree) as [t|e];
    [|reflexivity].
  cbn [bind]. apply unpack2_of_reroot.
Qed.

Lemma cherry_reroot_runs : reroot_runs (populated cherry) mm0_ex mm1_ex bp_ex = true.
Proof. vm_compute. reflexivity. Qed.

(** C2 at the populated two-leaf tree [(0,1)], for every [DELTA]: the
    sweep finds no internal descendant, the rerooting procedure runs on
    the whole tree and returns its triple (tree, score, flag), and
    unpacking the triple into [new_tree,new_PL] raises [ValueError]. *)
Theorem C2_recursive_reroot_raises (DELTA : R) :
  (exists v, reroot [VTree (populated cherry); VArray mm0_ex; VArray mm1_ex;
                     VVector bp_ex; VFloat DELTA] = Ok v) /\
  recursive_reroot mm0_ex mm1_ex bp_ex DELTA (populated cherry) = Raise ValueError.
Proof.
  destruct (reroot_ok (populated cherry) mm0_ex mm1_ex bp_ex DELTA cherry_reroot_runs)
    as [v Hv].
  split; [eauto|].
  unfold recursive_reroot.
  assert (Hs : reroot_sweep mm0_ex mm1_ex bp_ex DELTA
                            (iter_descendants (populated cherry)) [] (populated cherry)
               = Ok (populated cherry)) by reflexivity.
  rewrite Hs. cbn [bind]. eapply unpack2_of_triple. exact Hv.
Qed.

(** *** [nearest_neighbor_interchange] *)

Lemma nni_both_leaves (mm0 mm1 : matrix) (bp : vector) (DELTA : R) (node c1 c2 : Tree) :
  children node = [c1; c2] -> is_leaf c1 = true -> is_leaf c2 = true ->
  nearest_neighbor_interchange mm0 mm1 bp DELTA node = Ok (VTuple [VNone; VNone; VInt 0]).
Proof.
  intros Hc H1 H2. unfold nearest_neighbor_interchange, two_children.
  rewrite Hc. cbn [bind fst snd]. now rewrite H1, H2.
Qed.

Lemma nni_one_leaf (mm0 mm1 : matrix) (bp : vector) (DELTA : R) (node c1 c2 : Tree) :
  children node = [c1; c2] -> xorb (is_leaf c1) (is_leaf c2) = true ->
  nearest_neighbor_interchange mm0 mm1 bp DELTA node = Raise TypeError.
Proof.
  intros Hc Hx. unfold nearest_neighbor_interchange, two_children.
  rewrite Hc. cbn [bind fst snd].
  destruct (is_leaf c1), (is_leaf c2); try discriminate Hx; reflexivity.
Qed.

(** Whenever [nearest_neighbor_interchange] returns, it signals "no
    move": every other path goes through a call of [reroot] with four
    arguments. *)
Lemma nni_returns_no_move (mm0 mm1 : matrix) (bp : vector) (DELTA : R) (node : Tree)
      (v : pyval) :
  nearest_neighbor_interchange mm0 mm1 bp DELTA node = Ok v ->
  v = VTuple [VNone; VNone; VInt 0].
Proof.
  unfold nearest_neighbor_interchange. intros H.
  destruct (two_children node) as [[c1 c2]|e]; [|discriminate H].
  cbn [bind fst snd] in H.
  destruct (is_leaf c1 && is_leaf c2); [now injection H as <-|].
  destruct (is_leaf c1 || is_leaf c2); [discriminate H|].
  unfold reroot4 in H. rewrite reroot_four_arguments in H. discriminate H.
Qed.

(** C3 at the tree [((0,1),2)], whose root has one leaf child, and at
    the cherry [(0,1)]: with two leaf children the procedure signals
    "no move"; with exactly one it calls [reroot] without [DELTA] and
    raises [TypeError] instead of returning that procedure's result. *)
Theorem C3_nni_one_leaf_raises (DELTA : R) :
  nearest_neighbor_interchange mm0_ex mm1_ex bp_ex DELTA (populated cherry)
  = Ok (VTuple [VNone; VNone; VInt 0]) /\
  nearest_neighbor_interchange mm0_ex mm1_ex bp_ex DELTA (populated tree3)
  = Raise TypeError.
Proof.
  split.
  - apply nni_both_leaves with leaf0 leaf1; reflexivity.
  - eapply nni_one_leaf; [reflexivity|reflexivity].
Qed.

(** *** [recursive_NNI] *)

(** No pass of the loop changes anything: an interchange that returns
    has signalled "no move". *)
Lemma nni_sweep_no_change (mm0 mm1 : matrix) (bp : vector) (DELTA : R) (todo : list path) :
  forall moved tree n PL r,
    nni_sweep mm0 mm1 bp DELTA todo moved tree n PL = Ok r -> r = (tree, n, PL).
Proof.
  induction todo as [|q rest IH]; intros moved tree n PL r H; cbn [nni_sweep] in H.
  - now injection H as <-.
  - destruct (subtree tree (position moved q)) as [node|e]; [|discriminate H].
    cbn [bind] in H. destruct (is_leaf node); [now apply IH in H|].
    destruct (nearest_neighbor_interchange mm0 mm1 bp DELTA node) as [v|e] eqn:E;
      [|discriminate H].
    apply nni_returns_no_move in E. subst v. cbn [bind unpack List.length Nat.eqb nth] in H.
    now apply IH in H.
Qed.

Lemma nni_raises (mm0 mm1 : matrix) (bp : vector) (DELTA : R) (node : Tree) (e : exn) :
  nearest_neighbor_interchange mm0 mm1 bp DELTA node = Raise e ->
  e = TypeError \/ e = ValueError.
Proof.
  unfold nearest_neighbor_interchange, two_children. intros H.
  destruct (children node) as [|c1 [|c2 [|c3 cs]]];
    try (injection H as <-; now right).
  cbn [bind fst snd] in H.
  destruct (is_leaf c1 && is_leaf c2); [discriminate H|].
  destruct (is_leaf c1 || is_leaf c2).
  - cbn [reroot] in H. injection H as <-. now left.
  - unfold reroot4 in H. rewrite reroot_four_arguments in H. cbn [bind] in H.
    injection H as <-. now left.
Qed.

(** A sweep over positions of the tree raises only what an interchange
    raises. *)
Lemma nni_sweep_raises (mm0 mm1 : matrix) (bp : vector) (DELTA : R) (todo : list path) :
  forall tree n PL e,
    Forall (fun q => is_ok (subtree tree q) = true) todo ->
    nni_sweep mm0 mm1 bp DELTA todo [] tree n PL = Raise e ->
    e = TypeError \/ e = ValueError.
Proof.
  induction todo as [|q rest IH]; intros tree n PL e Hq H; cbn [nni_sweep] in H;
    [discriminate H|].
  apply Forall_cons_iff in Hq. destruct Hq as [Hq Hrest].
  cbn [position fold_left] in H.
  destruct (subtree tree q) as [node|e0]; [|discriminate Hq].
  cbn [bind] in H. destruct (is_leaf node); [now apply IH in H|].
  destruct (nearest_neighbor_interchange mm0 mm1 bp DELTA node) as [v|e0] eqn:E.
  - apply nni_returns_no_move in E. subst v. cbn [bind unpack List.length Nat.eqb nth] in H.
    now apply IH in H.
  - cbn [bind] in H. injection H as <-. exact (nni_raises _ _ _ _ _ _ E).
Qed.

Lemma postorder_subtree (t : Tree) :
  Forall (fun q => is_ok (subtree t q) = true) (postorder t).
Proof.
  induction t as [nm s p q cs IH] using Tree_ind'.
  cbn [postorder]. apply Forall_app. split; [|repeat constructor].
  assert (H : forall suf pre,
             cs = pre ++ suf ->
             Forall (fun q1 => is_ok (subtree (TreeNode nm s p q cs) q1) = true)
                    ((fix go (k : nat) (cs : list Tree) : list path :=
                        match cs with
                        | [] => []
                        | c :: cs' => map (cons k) (postorder c) ++ go (S k) cs'
                        end) (List.length pre) suf)).
  { induction suf as [|c suf IHs]; intros pre E; [constructor|].
    apply Forall_app. split.
    - apply Forall_forall. intros q1 Hq1. apply in_map_iff in Hq1.
      destruct Hq1 as (q2 & <- & Hq2).
      assert (Hn : nth_error cs (List.length pre) = Some c).
      { rewrite E, nth_error_app2, Nat.sub_diag by lia. reflexivity. }
      assert (Hc : In c cs) by (rewrite E; apply in_or_app; right; now left).
      rewrite Forall_forall in IH. specialize (IH c Hc). rewrite Forall_forall in IH.
      specialize (IH q2 Hq2).
      destruct q2 as [|k2 q2]; cbn [subtree children]; rewrite Hn; exact IH.
    - specialize (IHs (pre ++ [c])). rewrite length_app, Nat.add_1_r in IHs.
      apply IHs. rewrite <- app_assoc. exact E. }
  exact (H cs [] eq_refl).
Qed.

(** One pass of the [while] loop is the last, and it ends in an
    exception. *)
Lemma recursive_NNI_one_pass (mm0 mm1 : matrix) (bp : vector) (DELTA : R) (tree : Tree)
      (fuel : nat) :
  recursive_NNI mm0 mm1 bp DELTA (S fuel) tree
  = Some (match nni_sweep mm0 mm1 bp DELTA (postorder tree) [] tree 0 None with
          | Ok _ => Raise UnboundLocalError
          | Raise e => Raise e
          end).
Proof.
  unfold recursive_NNI. cbn [nni_while].
  destruct (nni_sweep mm0 mm1 bp DELTA (postorder tree) [] tree 0 None) as [r|e] eqn:E;
    [|reflexivity].
  apply nni_sweep_no_change in E. subst r. reflexivity.
Qed.

Lemma recursive_NNI_raises (mm0 mm1 : matrix) (bp : vector) (DELTA : R) (tree : Tree)
      (fuel : nat) :
  exists e, recursive_NNI mm0 mm1 bp DELTA (S fuel) tree = Some (Raise e) /\
            (e = UnboundLocalError \/ e = TypeError \/ e = ValueError).
Proof.
  rewrite recursive_NNI_one_pass.
  destruct (nni_sweep mm0 mm1 bp DELTA (postorder tree) [] tree 0 None) as [r|e] eqn:E.
  - exists UnboundLocalError. split; [reflexivity|now left].
  - exists e. split; [reflexivity|right].
    exact (nni_sweep_raises mm0 mm1 bp DELTA _ _ _ _ _ (postorder_subtree tree) E).
Qed.

Lemma populated_cherry_shape :
  exists nm s p q, populated cherry = TreeNode nm s p q [leaf0; leaf1].
Proof. vm_compute. repeat eexists. Qed.

Lemma populated_tree3_shape :
  exists nm s p q nm1 s1 p1 q1,
    populated tree3 = TreeNode nm s p q [TreeNode nm1 s1 p1 q1 [leaf0; leaf1]; leaf2].
Proof. vm_compute. repeat eexists. Qed.

(** One step of a sweep: at a leaf, at a node where the interchange
    signals "no move", and at a node where it raises. *)
Lemma nni_sweep_leaf (mm0 mm1 : matrix) (bp : vector) (DELTA : R) (q : path)
      (rest moved : list path) (tree : Tree) (n : nat) (PL : option pyval) (node : Tree) :
  subtree tree (position moved q) = Ok node -> is_leaf node = true ->
  nni_sweep mm0 mm1 bp DELTA (q :: rest) moved tree n PL
  = nni_sweep mm0 mm1 bp DELTA rest moved tree n PL.
Proof. intros Hs Hl. cbn [nni_sweep]. rewrite Hs. cbn [bind]. now rewrite Hl. Qed.

Lemma nni_sweep_no_move (mm0 mm1 : matrix) (bp : vector) (DELTA : R) (q : path)
      (rest moved : list path) (tree : Tree) (n : nat) (PL : option pyval) (node : Tree) :
  subtree tree (position moved q) = Ok node -> is_leaf node = false ->
  nearest_neighbor_interchange mm0 mm1 bp DELTA node = Ok (VTuple [VNone; VNone; VInt 0]) ->
  nni_sweep mm0 mm1 bp DELTA (q :: rest) moved tree n PL
  = nni_sweep mm0 mm1 bp DELTA rest moved tree n PL.
Proof.
  intros Hs Hl Hn. cbn [nni_sweep]. rewrite Hs. cbn [bind]. rewrite Hl, Hn. reflexivity.
Qed.

Lemma nni_sweep_raise (mm0 mm1 : matrix) (bp : vector) (DELTA : R) (q : path)
      (rest moved : list path) (tree : Tree) (n : nat) (PL : option pyval) (node : Tree)
      (e : exn) :
  subtree tree (position moved q) = Ok node -> is_leaf node = false ->
  nearest_neighbor_interchange mm0 mm1 bp DELTA node = Raise e ->
  nni_sweep mm0 mm1 bp DELTA (q :: rest) moved tree n PL = Raise e.
Proof.
  intros Hs Hl Hn. cbn [nni_sweep]. rewrite Hs. cbn [bind]. rewrite Hl, Hn. reflexivity.
Qed.

Lemma cherry_sweep (DELTA : R) :
  nni_sweep mm0_ex mm1_ex bp_ex DELTA (postorder (populated cherry)) [] (populated cherry)
            0 None
  = Ok (populated cherry, 0, None).
Proof.
  destruct populated_cherry_shape as (nm & s & p & q & ->).
  set (t := TreeNode nm s p q [leaf0; leaf1]).
  change (postorder t) with [[0]; [1]; @nil nat].
  rewrite (nni_sweep_leaf _ _ _ _ [0] _ [] t 0 None leaf0 eq_refl eq_refl).
  rewrite (nni_sweep_leaf _ _ _ _ [1] _ [] t 0 None leaf1 eq_refl eq_refl).
  rewrite (nni_sweep_no_move _ _ _ _ [] _ [] t 0 None t eq_refl eq_refl
             (nni_both_leaves _ _ _ _ t leaf0 leaf1 eq_refl eq_refl eq_refl)).
  reflexivity.
Qed.

Lemma tree3_sweep (DELTA : R) :
  nni_sweep mm0_ex mm1_ex bp_ex DELTA (postorder (populated tree3)) [] (populated tree3)
            0 None
  = Raise TypeError.
Proof.
  destruct populated_tree3_shape as (nm & s & p & q & nm1 & s1 & p1 & q1 & ->).
  set (c := TreeNode nm1 s1 p1 q1 [leaf0; leaf1]).
  set (t := TreeNode nm s p q [c; leaf2]).
  change (postorder t) with [[0; 0]; [0; 1]; [0]; [1]; @nil nat].
  rewrite (nni_sweep_leaf _ _ _ _ [0; 0] _ [] t 0 None leaf0 eq_refl eq_refl).
  rewrite (nni_sweep_leaf _ _ _ _ [0; 1] _ [] t 0 None leaf1 eq_refl eq_refl).
  rewrite (nni_sweep_no_move _ _ _ _ [0] _ [] t 0 None c eq_refl eq_refl
             (nni_both_leaves _ _ _ _ c leaf0 leaf1 eq_refl eq_refl eq_refl)).
  rewrite (nni_sweep_leaf _ _ _ _ [1] _ [] t 0 None leaf2 eq_refl eq_refl).
  apply (nni_sweep_raise _ _ _ _ [] _ [] t 0 None t TypeError eq_refl eq_refl).
  apply (nni_one_leaf _ _ _ _ t c leaf2); reflexivity.
Qed.

(** C9.  [recursive_NNI] halts on every tree, but never the way the
    claim describes and never with a result.  On the tree [((0,1),2)]
    the first sweep does not get to its end: at the root
    [nearest_neighbor_interchange] calls [reroot] without [DELTA] and
    [TypeError] ends the call.  On the cherry [(0,1)] the first sweep
    completes with zero accepted changes, the loop ends, and
    [return tree,PL] raises [UnboundLocalError]: [PL] is assigned only
    after an interchange that returned a tree.  On every tree the first
    pass of the loop is the last and the call ends in one of these
    exceptions or in the [ValueError] of [c1,c2 = node.children]; no
    sweep ever accepts a change. *)
Theorem C9_recursive_NNI_raises (DELTA : R) :
  (forall fuel, recursive_NNI mm0_ex mm1_ex bp_ex DELTA (S fuel) (populated tree3)
                = Some (Raise TypeError)) /\
  (nni_sweep mm0_ex mm1_ex bp_ex DELTA (postorder (populated cherry)) []
             (populated cherry) 0 None
   = Ok (populated cherry, 0, None) /\
   forall fuel, recursive_NNI mm0_ex mm1_ex bp_ex DELTA (S fuel) (populated cherry)
                = Some (Raise UnboundLocalError)) /\
  (forall mm0 mm1 bp tree fuel,
      exists e, recursive_NNI mm0 mm1 bp DELTA (S fuel) tree = Some (Raise e) /\
                (e = UnboundLocalError \/ e = TypeError \/ e = ValueError)) /\
  (forall mm0 mm1 bp todo moved tree n PL r,
      nni_sweep mm0 mm1 bp DELTA todo moved tree n PL = Ok r -> r = (tree, n, PL)).
Proof.
  split; [|split; [split|split]].
  - intros fuel. now rewrite recursive_NNI_one_pass, tree3_sweep.
  - apply cherry_sweep.
  - intros fuel. now rewrite recursive_NNI_one_pass, cherry_sweep.
  - intros mm0 mm1 bp tree fuel. apply recursive_NNI_raises.
  - intros mm0 mm1 bp todo. apply nni_sweep_no_change.
Qed.

End SearchFacts.

(** ** More on the Phred utilities *)

Section MorePhredFacts.
Import Phred.
Local Open Scope R_scope.

Lemma ln10_pos : 0 < ln 10.
Proof. rewrite <- ln_1. apply ln_increasing; lra. Qed.

Lemma log10_Rpower (y : R) : log10 (Rpower 10 y) = y.
Proof.
  unfold log10, Rlog, Rpower. rewrite ln_exp. field.
  pose proof ln10_pos. lra.
Qed.

Lemma Rpower_log10 (p : R) : 0 < p -> Rpower 10 (log10 p) = p.
Proof. intros Hp. unfold log10. apply Rpower_Rlog; lra. Qed.

Lemma log10_div (a b : R) : 0 < a -> 0 < b -> log10 (a / b) = log10 a - log10 b.
Proof.
  intros Ha Hb. unfold log10, Rlog.
  replace (a / b) with (a * / b) by reflexivity.
  rewrite ln_mult, ln_Rinv; auto using Rinv_0_lt_compat.
  field. pose proof ln10_pos. lra.
Qed.

Lemma p2phred_phred2p (x : R) : p2phred (phred2p x) = x.
Proof. unfold p2phred, phred2p. rewrite log10_Rpower. lra. Qed.

Lemma phred2p_p2phred (p : R) : 0 < p -> phred2p (p2phred p) = p.
Proof.
  intros Hp. unfold p2phred, phred2p.
  replace (- (-10 * log10 p) / 10) with (log10 p) by lra.
  now apply Rpower_log10.
Qed.

(** X1.  Converting a Phred score to a probability and back gives the score;
    converting a positive probability to a Phred score and back gives
    the probability. *)
Theorem X_phred_round_trip :
  (forall x : R, p2phred (phred2p x) = x) /\
  (forall p : R, 0 < p -> phred2p (p2phred p) = p).
Proof. split; [exact p2phred_phred2p|exact phred2p_p2phred]. Qed.

Lemma X_phred_round_trip_witness :
  p2phred (phred2p 30) = 30 /\ phred2p (p2phred (1 / 2)) = 1 / 2.
Proof.
  split.
  - apply (proj1 X_phred_round_trip).
  - apply (proj2 X_phred_round_trip). lra.
Defined.

Lemma rsum_map_div (f : R -> R) (S : R) (x : vector) :
  rsum (map (fun v => f v / S) x) = rsum (map f x) / S.
Proof.
  unfold Rdiv. apply rsum_map_scale.
Qed.

Lemma prob_sums_to_one (x : vector) : x <> [] -> rsum (prob x) = 1.
Proof.
  intros Hx. unfold prob. rewrite map_map, rsum_map_div.
  destruct x as [|v x]; [contradiction|].
  assert (0 < rsum (map phred2p (v :: x)))
    by (apply rsum_pos_in with v; [exact phred2p_pos|now left]).
  field. lra.
Qed.

Lemma phred2p_normalize_PL (x : vector) : map phred2p (normalize_PL x) = prob x.
Proof.
  rewrite normalize_PL_prob, map_map.
  pose proof (prob_pos x) as Hpos. induction Hpos as [|q l Hq Hl IH]; cbn [map].
  - reflexivity.
  - rewrite IH. f_equal. fold (p2phred q). now apply phred2p_p2phred.
Qed.

(** X2.  The output of [normalize_PL] is a distribution: read back as
    probabilities, the entries of a normalised non-empty vector sum to
    one; so do the entries of every non-empty row of [normalize2d_PL]. *)
Theorem X_normalize_PL_sums_to_one :
  (forall x : vector, x <> [] -> rsum (map phred2p (normalize_PL x)) = 1) /\
  (forall (x : matrix) (r : nat), nth r x [] <> [] ->
      rsum (map phred2p (nth r (normalize2d_PL x) [])) = 1).
Proof.
  split.
  - intros x Hx. rewrite phred2p_normalize_PL. now apply prob_sums_to_one.
  - intros x r Hr. rewrite normalize2d_PL_rows.
    change (@nil R) with (normalize_PL []) at 1. rewrite map_nth.
    rewrite phred2p_normalize_PL. now apply prob_sums_to_one.
Qed.

Lemma X_normalize_PL_sums_to_one_witness :
  rsum (map phred2p (normalize_PL [0; 10; 20])) = 1 /\
  rsum (map phred2p (nth 0 (normalize2d_PL [[0; 10; 20]]) [])) = 1.
Proof.
  split.
  - apply (proj1 X_normalize_PL_sums_to_one). discriminate.
  - apply (proj2 X_normalize_PL_sums_to_one [[0; 10; 20]] 0%nat). simpl. discriminate.
Defined.

(** [normalize_PL] subtracts the Phred sum of the vector from every
    entry. *)
Lemma normalize_PL_minus_sum_PL (x : vector) :
  normalize_PL x = map (fun v => v - sum_PL x) x.
Proof.
  unfold normalize_PL, sum_PL. rewrite map_map. fold phred2p.
  apply map_ext_in. intros v Hv. fold (phred2p v).
  assert (HS : 0 < rsum (map phred2p x))
    by (apply rsum_pos_in with v; [exact phred2p_pos|exact Hv]).
  rewrite log10_div by (auto using phred2p_pos).
  pose proof (p2phred_phred2p v) as Hv'. unfold p2phred in *. lra.
Qed.

(** X3.  [normalize_PL] and [sum_PL] compose: normalising subtracts the
    Phred-scale sum [sum_PL x] from every entry, so differences between
    entries are kept; and a normalised vector is left as it is by a
    second normalisation. *)
Theorem X_normalize_PL_subtracts_sum_PL (x : vector) :
  normalize_PL x = map (fun v => v - sum_PL x) x /\
  (forall i j d, (i < List.length x)%nat -> (j < List.length x)%nat ->
     nth i (normalize_PL x) d - nth j (normalize_PL x) d = nth i x d - nth j x d) /\
  normalize_PL (normalize_PL x) = normalize_PL x.
Proof.
  split; [apply normalize_PL_minus_sum_PL|split].
  - intros i j d Hi Hj. rewrite normalize_PL_minus_sum_PL.
    rewrite !(nth_indep (map _ x) d (d - sum_PL x)) by now rewrite length_map.
    rewrite !(map_nth (fun v => v - sum_PL x)). lra.
  - destruct x as [|v x]; [reflexivity|].
    rewrite (normalize_PL_minus_sum_PL (normalize_PL (v :: x))).
    assert (Hz : sum_PL (normalize_PL (v :: x)) = 0).
    { unfold sum_PL. rewrite phred2p_normalize_PL, prob_sums_to_one by discriminate.
      unfold p2phred, log10, Rlog. rewrite ln_1. lra. }
    rewrite Hz. rewrite <- (map_id (normalize_PL (v :: x))) at 2.
    apply map_ext. intros a. lra.
Qed.

Lemma X_normalize_PL_subtracts_sum_PL_witness :
  nth 0 (normalize_PL [0; 10; 20]) 0 - nth 2 (normalize_PL [0; 10; 20]) 0 = 0 - 20.
Proof.
  rewrite (proj1 (proj2 (X_normalize_PL_subtracts_sum_PL [0; 10; 20])) 0%nat 2%nat 0);
    simpl; try lia. reflexivity.
Defined.

End MorePhredFacts.

(** ** More on the distance matrix *)

Section MoreMakeDFacts.
Import Phred.
Local Open Scope R_scope.

Lemma mget_zeros (r c a b : nat) : mget (zeros r c) a b = 0.
Proof.
  unfold mget, zeros.
  destruct (Nat.lt_ge_cases a r) as [Ha|Ha].
  - rewrite nth_repeat_lt by exact Ha.
    destruct (Nat.lt_ge_cases b c) as [Hb|Hb].
    + now rewrite nth_repeat_lt.
    + apply nth_overflow. now rewrite repeat_length.
  - rewrite (nth_overflow _ []) by now rewrite repeat_length.
    now destruct b.
Qed.

Lemma make_D_fold_untouched (PLs : list matrix) (a b : nat) (L : list (nat * nat)) :
  (forall i j, In (i, j) L -> (i, j) <> (a, b) /\ (j, i) <> (a, b)) ->
  forall D, mget (fold_left (make_D_step PLs) L D) a b = mget D a b.
Proof.
  induction L as [|[i j] L IH]; intros HL D; cbn [fold_left]; [reflexivity|].
  rewrite IH by (intros i' j' Hin; apply HL; now right).
  destruct (HL i j (or_introl eq_refl)) as [H1 H2].
  unfold make_D_step. now rewrite !mget_mset_other.
Qed.

Lemma make_D_fold_square (dim : nat) (PLs : list matrix) (L : list (nat * nat)) :
  forall D, square dim D -> square dim (fold_left (make_D_step PLs) L D).
Proof.
  induction L as [|ij L IH]; intros D HD; cbn [fold_left]; [exact HD|].
  apply IH. now apply make_D_step_square.
Qed.

Lemma make_D_outside (m : nat) (PLs : list matrix) (D : matrix) (a b : nat) :
  make_D m PLs = Ok D -> (a = b \/ (m <= a)%nat \/ (m <= b)%nat) -> mget D a b = 0.
Proof.
  intros HD Hab. unfold make_D in HD. destruct m as [|m']; [discriminate|].
  injection HD as <-. rewrite make_D_fold_untouched; [apply mget_zeros|].
  intros i j Hin. apply in_combinations2 in Hin.
  split; intros E; inversion E; subst; lia.
Qed.

(** X4.  The matrix [make_D] returns is a (2m-2)-square array, symmetric,
    zero on its diagonal and zero outside the block of the [m] samples
    (the rows and columns neighbor joining fills in later). *)
Theorem X_make_D_symmetric (m : nat) (PLs : list matrix) (D : matrix) :
  make_D m PLs = Ok D ->
  square (2 * m - 2) D /\
  (forall a b, mget D a b = mget D b a) /\
  (forall a b, a = b \/ (m <= a)%nat \/ (m <= b)%nat -> mget D a b = 0).
Proof.
  intros HD. split; [|split].
  - unfold make_D in HD. destruct m as [|m']; [discriminate|]. injection HD as <-.
    apply make_D_fold_square, zeros_square.
  - intros a b.
    destruct (Nat.lt_ge_cases a m) as [Ha|Ha]; [destruct (Nat.lt_ge_cases b m) as [Hb|Hb]|].
    + destruct (Nat.lt_trichotomy a b) as [Hlt|[->|Hgt]].
      * destruct (make_D_entries PLs (conj Hlt Hb) HD) as [E1 E2]. now rewrite E1, E2.
      * reflexivity.
      * destruct (make_D_entries PLs (conj Hgt Ha) HD) as [E1 E2]. now rewrite E1, E2.
    + rewrite !(make_D_outside m PLs D _ _ HD); auto.
    + rewrite !(make_D_outside m PLs D _ _ HD); auto.
  - intros a b Hab. now apply (make_D_outside m PLs D a b HD).
Qed.

Lemma X_make_D_symmetric_witness :
  let D := fold_left (make_D_step PLs_flat) (combinations2 2) (zeros 2 2) in
  square 2 D /\ (forall a b, mget D a b = mget D b a) /\
  (forall a b, a = b \/ (2 <= a)%nat \/ (2 <= b)%nat -> mget D a b = 0).
Proof.
  intros D. apply (@X_make_D_symmetric 2 PLs_flat D). reflexivity.
Defined.

(** *** Bounds on a distance *)

Lemma rsum_le_nonneg (X : vector) : Forall (fun q => 0 <= q) X -> 0 <= rsum X.
Proof.
  induction 1 as [|q X Hq HX IH]; simpl; lra.
Qed.

Lemma rsum_vmul_bounds (X Y : vector) :
  Forall (fun q => 0 <= q) X -> Forall (fun q => 0 <= q <= 1) Y ->
  0 <= rsum (vmul X Y) <= rsum X.
Proof.
  intros HX. revert Y. induction HX as [|x X Hx HX IH]; intros Y HY.
  - unfold vmul. simpl. lra.
  - destruct HY as [|y Y Hy HY].
    + unfold vmul. simpl. pose proof (rsum_le_nonneg X HX). lra.
    + specialize (IH Y HY). unfold vmul in *. simpl.
      assert (0 <= x * y <= x) by nra. lra.
Qed.

Lemma prob_in_unit (x : vector) : Forall (fun q => 0 <= q <= 1) (prob x).
Proof.
  unfold prob. apply Forall_forall. intros q Hq.
  apply in_map_iff in Hq. destruct Hq as (pv & <- & Hpv).
  apply in_map_iff in Hpv. destruct Hpv as (v & <- & Hv).
  pose proof (phred2p_pos v).
  pose proof (rsum_pos_in phred2p x v phred2p_pos Hv) as HS.
  pose proof (rsum_pos_ge phred2p x phred2p_pos v Hv) as Hle.
  split.
  - apply Rlt_le. now apply Rdiv_lt_0_compat.
  - apply Rmult_le_reg_r with (rsum (map phred2p x)); [exact HS|].
    unfold Rdiv. rewrite Rmult_assoc, Rinv_l by lra. lra.
Qed.

Lemma rsum_prob_le_one (x : vector) : rsum (prob x) <= 1.
Proof.
  destruct x as [|v x].
  - unfold prob. simpl. lra.
  - rewrite prob_sums_to_one by discriminate. lra.
Qed.

Lemma site_product_distance_bounds (A B : matrix) :
  0 <= site_product_distance A B <= INR (List.length A).
Proof.
  unfold site_product_distance. revert B.
  induction A as [|a A IH]; intros B.
  - simpl. lra.
  - destruct B as [|b B].
    + cbn [combine map rsum fold_right]. pose proof (pos_INR (List.length (a :: A))). lra.
    + specialize (IH B). cbn [combine map fst snd].
      change (rsum (?h :: ?t)) with (h + rsum t).
      assert (Hterm : 0 <= rsum (vmul (prob a) (prob b)) <= 1).
      { pose proof (rsum_vmul_bounds (prob a) (prob b)) as Hb.
        assert (H1 : Forall (fun q => 0 <= q) (prob a)).
        { eapply Forall_impl; [|apply prob_in_unit]. cbn beta. intros; lra. }
        specialize (Hb H1 (prob_in_unit b)).
        pose proof (rsum_prob_le_one a). lra. }
      change (List.length (a :: A)) with (S (List.length A)). rewrite S_INR. lra.
Qed.

(** X5.  Every distance that seeds neighbor joining lies between 0 and the
    number of sites: each site adds one minus the probability that the
    two samples share a genotype. *)
Theorem X_make_D_entry_bounds (m : nat) (PLs : list matrix) (D : matrix) (a b : nat) :
  make_D m PLs = Ok D -> 0 <= mget D a b <= INR (List.length PLs).
Proof.
  intros HD.
  assert (Hcase : forall i j, (i < j < m)%nat ->
            0 <= mget D i j <= INR (List.length PLs) /\
            0 <= mget D j i <= INR (List.length PLs)).
  { intros i j Hij. destruct (make_D_entries PLs Hij HD) as [E1 E2].
    rewrite E1, E2, pairwise_diff_product.
    pose proof (site_product_distance_bounds (sample PLs i) (sample PLs j)) as Hb.
    replace (List.length (sample PLs i)) with (List.length PLs) in Hb
      by (unfold sample; now rewrite length_map).
    tauto. }
  destruct (Nat.lt_ge_cases a m) as [Ha|Ha]; [destruct (Nat.lt_ge_cases b m) as [Hb|Hb]|].
  - destruct (Nat.lt_trichotomy a b) as [Hlt|[->|Hgt]].
    + destruct (Hcase a b (conj Hlt Hb)) as [H1 _]. exact H1.
    + rewrite (make_D_outside m PLs D _ _ HD) by auto. pose proof (pos_INR (List.length PLs)). lra.
    + destruct (Hcase b a (conj Hgt Ha)) as [_ H2]. exact H2.
  - rewrite (make_D_outside m PLs D _ _ HD) by auto. pose proof (pos_INR (List.length PLs)). lra.
  - rewrite (make_D_outside m PLs D _ _ HD) by auto. pose proof (pos_INR (List.length PLs)). lra.
Qed.

Lemma X_make_D_entry_bounds_witness :
  let D := fold_left (make_D_step PLs_flat) (combinations2 2) (zeros 2 2) in
  0 <= mget D 0 1 <= INR (List.length PLs_flat).
Proof.
  intros D. apply (@X_make_D_entry_bounds 2 PLs_flat D 0%nat 1%nat). reflexivity.
Defined.

End MoreMakeDFacts.

(** ** More on the mutation model and the base prior *)

Section MoreMutFacts.
Import Phred MutMatrix Prior.
Local Open Scope R_scope.

Lemma lev_refl (s : list ascii) : lev s s = 0%nat.
Proof.
  induction s as [|a s IH]; [reflexivity|].
  cbn [lev]. rewrite Ascii.eqb_refl, IH. cbn [Nat.add]. apply Nat.min_0_r.
Qed.

Lemma gtype_distance_entry (gt : list string) (i j : nat) :
  (i < List.length gt)%nat -> (j < List.length gt)%nat ->
  nth j (nth i (gtype_distance gt) []) 1%nat
  = Nat.min (strdist (list_ascii_of_string (nth i gt EmptyString))
                     (list_ascii_of_string (nth j gt EmptyString)))
            (strdist (list_ascii_of_string (nth i gt EmptyString))
                     (List.rev (list_ascii_of_string (nth j gt EmptyString)))).
Proof.
  intros Hi Hj. unfold gtype_distance.
  rewrite (nth_indep _ [] (map (fun gj =>
             Nat.min (strdist (list_ascii_of_string EmptyString) (list_ascii_of_string gj))
                     (strdist (list_ascii_of_string EmptyString)
                              (List.rev (list_ascii_of_string gj)))) gt))
    by now rewrite length_map.
  rewrite (map_nth (fun gi => map (fun gj =>
             Nat.min (strdist (list_ascii_of_string gi) (list_ascii_of_string gj))
                     (strdist (list_ascii_of_string gi)
                              (List.rev (list_ascii_of_string gj)))) gt) gt EmptyString i).
  set (si := list_ascii_of_string (nth i gt EmptyString)).
  rewrite (nth_indep _ 1%nat (Nat.min (strdist si (list_ascii_of_string EmptyString))
                                      (strdist si (List.rev (list_ascii_of_string EmptyString)))))
    by now rewrite length_map.
  now rewrite (map_nth (fun gj => Nat.min (strdist si (list_ascii_of_string gj))
                                          (strdist si (List.rev (list_ascii_of_string gj))))
                       gt EmptyString j).
Qed.

(** X6.  For any list of genotype strings, the distance of a genotype to
    itself is 0, and so is its distance to a genotype that spells it
    backwards ("RA" and "AR"): the order of the two alleles does not
    count. *)
Theorem X_gtype_distance_zero (gt : list string) (i j : nat) :
  (i < List.length gt)%nat -> (j < List.length gt)%nat ->
  nth i (nth i (gtype_distance gt) []) 1%nat = 0%nat /\
  (list_ascii_of_string (nth j gt EmptyString)
   = List.rev (list_ascii_of_string (nth i gt EmptyString)) ->
   nth j (nth i (gtype_distance gt) []) 1%nat = 0%nat).
Proof.
  intros Hi Hj. split.
  - rewrite gtype_distance_entry by assumption. unfold strdist.
    rewrite lev_refl. apply Nat.min_0_l.
  - intros Hrev. rewrite gtype_distance_entry by assumption. unfold strdist.
    rewrite Hrev, rev_involutive, lev_refl. apply Nat.min_0_r.
Qed.

Lemma X_gtype_distance_zero_witness :
  nth 0 (nth 0 (gtype_distance ["RA"%string; "AR"%string]) []) 1%nat = 0%nat /\
  nth 1 (nth 0 (gtype_distance ["RA"%string; "AR"%string]) []) 1%nat = 0%nat.
Proof.
  destruct (X_gtype_distance_zero ["RA"%string; "AR"%string] 0 1) as [H1 H2];
    [simpl; lia|simpl; lia|].
  split; [exact H1|apply H2; reflexivity].
Defined.

(** *** The mutation matrix as a matrix of probabilities *)

Lemma phred2p_le_tenth (mu : R) : 10 <= mu -> 0 < phred2p mu <= / 10.
Proof.
  intros Hmu. split; [apply phred2p_pos|].
  unfold phred2p.
  replace (/ 10) with (Rpower 10 (- (1))).
  - apply Rle_Rpower; lra.
  - rewrite Rpower_Ropp, Rpower_1; lra.
Qed.

(** X7.  For a mutation rate of at least 10 on the Phred scale (a mutation
    probability of at most 0.1) every entry of [mm] for the three
    genotypes is a probability: positive and below one, with at least
    0.8 on the diagonal; [mm0] and [mm1] have no negative entry. *)
Theorem X_make_mut_matrix_probabilities (mu : R) (i j : nat) :
  10 <= mu -> (i < 3)%nat -> (j < 3)%nat ->
  let r := make_mut_matrix mu GTYPE3 in
  0 < mget (mm_of r) i j < 1 /\
  8 / 10 <= mget (mm_of r) i i /\
  0 <= mget (mm0_of r) i j /\ 0 <= mget (mm1_of r) i j.
Proof.
  intros Hmu Hi Hj r. subst r. rewrite make_mut_matrix_GTYPE3.
  unfold mm_of, mm0_of, mm1_of. cbn [fst snd].
  pose proof (phred2p_le_tenth mu Hmu) as Hp. set (p := phred2p mu) in *.
  assert (Hpp : 0 < p * p <= / 100) by nra.
  assert (Hcases : forall k, (k < 3)%nat -> k = 0%nat \/ k = 1%nat \/ k = 2%nat) by (intros; lia).
  destruct (Hcases i Hi) as [-> | [-> | ->]]; destruct (Hcases j Hj) as [-> | [-> | ->]];
    unfold mget; cbn [nth]; repeat split; lra.
Qed.

Lemma X_make_mut_matrix_probabilities_witness :
  0 < mget (mm_of (make_mut_matrix 80 GTYPE3)) 0 1 < 1.
Proof.
  apply (X_make_mut_matrix_probabilities 80 0 1); [lra|lia|lia].
Defined.

(** *** The base prior *)

Lemma mapM_length {A B : Type} (f : A -> result B) (l : list A) (l' : list B) :
  mapM f l = Ok l' -> List.length l' = List.length l.
Proof.
  revert l'. induction l as [|a l IH]; intros l' H; cbn [mapM] in H.
  - now injection H as <-.
  - destruct (f a) as [b|e]; [|discriminate H]. cbn [bind] in H.
    destruct (mapM f l) as [bs|e]; [|discriminate H]. cbn [bind] in H.
    injection H as <-. cbn [List.length]. f_equal. now apply IH.
Qed.

Lemma mapM_nth_error {A B : Type} (f : A -> result B) (l : list A) (l' : list B) :
  mapM f l = Ok l' ->
  forall i a, nth_error l i = Some a -> exists b, f a = Ok b /\ nth_error l' i = Some b.
Proof.
  revert l'. induction l as [|x l IH]; intros l' H i a Hi.
  - destruct i; discriminate Hi.
  - cbn [mapM] in H. destruct (f x) as [b|e] eqn:Ef; [|discriminate H]. cbn [bind] in H.
    destruct (mapM f l) as [bs|e]; [|discriminate H]. cbn [bind] in H.
    injection H as <-. destruct i as [|i]; cbn [nth_error] in *.
    + injection Hi as <-. eauto.
    + eapply IH; eauto.
Qed.

Lemma mapM_raise_in {A B : Type} (f : A -> result B) (e : exn) (l : list A) :
  (forall a, is_ok (f a) = false -> f a = Raise e) ->
  (exists a, In a l /\ is_ok (f a) = false) -> mapM f l = Raise e.
Proof.
  intros He. induction l as [|x l IH]; intros (a & Hin & Ha).
  - destruct Hin.
  - cbn [mapM]. destruct (f x) as [b|e'] eqn:Ef.
    + cbn [bind]. destruct Hin as [->|Hin]; [rewrite Ef in Ha; discriminate Ha|].
      rewrite IH by eauto. reflexivity.
    + cbn [bind]. specialize (He x). rewrite Ef in He.
      specialize (He eq_refl). now injection He as ->.
Qed.

(** X8.  [make_base_prior] returns one prior per genotype, a distribution
    (the priors read back as probabilities sum to one) in which every
    heterozygous genotype sits exactly [het] above every homozygous
    one; a genotype string of fewer than two characters makes it raise
    [IndexError]. *)
Theorem X_make_base_prior (het : R) (gtypes : list string) :
  (forall bp, make_base_prior het gtypes = Ok bp ->
     List.length bp = List.length gtypes /\
     (gtypes <> [] -> rsum (map phred2p bp) = 1) /\
     (forall i j gi gj, nth_error gtypes i = Some gi -> nth_error gtypes j = Some gj ->
        is_het gi = Ok true -> is_het gj = Ok false ->
        nth i bp 0 - nth j bp 0 = het)) /\
  ((exists g, In g gtypes /\ (String.length g < 2)%nat) ->
   make_base_prior het gtypes = Raise IndexError).
Proof.
  split.
  - intros bp H. unfold make_base_prior in H.
    destruct (mapM is_het gtypes) as [flags|e] eqn:Ef; [|discriminate H].
    cbn [bind] in H. injection H as <-.
    pose proof (mapM_length is_het gtypes flags Ef) as Hlen.
    split; [|split].
    + unfold normalize_PL. now rewrite !length_map.
    + intros Hne. rewrite phred2p_normalize_PL. apply prob_sums_to_one.
      destruct gtypes; [contradiction|]. destruct flags; [discriminate Hlen|discriminate].
    + intros i j gi gj Hi Hj Hgi Hgj.
      destruct (mapM_nth_error is_het gtypes flags Ef i gi Hi) as (fi & Efi & Hfi).
      destruct (mapM_nth_error is_het gtypes flags Ef j gj Hj) as (fj & Efj & Hfj).
      rewrite Hgi in Efi. rewrite Hgj in Efj. injection Efi as <-. injection Efj as <-.
      rewrite normalize_PL_minus_sum_PL.
      set (x := map (het_phred het) flags).
      assert (Hxi : nth_error x i = Some (het_phred het true))
        by (unfold x; rewrite nth_error_map, Hfi; reflexivity).
      assert (Hxj : nth_error x j = Some (het_phred het false))
        by (unfold x; rewrite nth_error_map, Hfj; reflexivity).
      assert (E1 : nth i (map (fun v => v - sum_PL x) x) 0 = het_phred het true - sum_PL x)
        by (apply nth_error_nth; rewrite nth_error_map, Hxi; reflexivity).
      assert (E2 : nth j (map (fun v => v - sum_PL x) x) 0 = het_phred het false - sum_PL x)
        by (apply nth_error_nth; rewrite nth_error_map, Hxj; reflexivity).
      rewrite E1, E2.
      unfold het_phred. lra.
  - intros (g & Hin & Hg). unfold make_base_prior.
    rewrite (mapM_raise_in is_het IndexError gtypes); [reflexivity| |].
    + intros a Ha. destruct a as [|c1 [|c2 rest]]; try reflexivity. discriminate Ha.
    + exists g. split; [exact Hin|].
      destruct g as [|c1 [|c2 rest]]; try reflexivity. cbn [String.length] in Hg. lia.
Qed.

Lemma X_make_base_prior_witness :
  exists bp, make_base_prior 30 GTYPE3 = Ok bp /\
             List.length bp = 3%nat /\ nth 1 bp 0 - nth 0 bp 0 = 30 /\
             make_base_prior 30 ["R"%string] = Raise IndexError.
Proof.
  eexists. split; [reflexivity|].
  destruct (X_make_base_prior 30 GTYPE3) as [Hok _].
  destruct (Hok _ eq_refl) as (Hlen & _ & Hdiff).
  split; [exact Hlen|]. split.
  - apply (Hdiff 1%nat 0%nat "RA"%string "RR"%string); reflexivity.
  - apply (proj2 (X_make_base_prior 30 ["R"%string])).
    exists "R"%string. split; [now left|simpl; lia].
Defined.

End MoreMutFacts.

(** ** More on neighbor joining *)

Section MoreNJFacts.
Import NJ NJNames.
Local Open Scope nat_scope.

(** One pass of the loop, spelled out. *)
Lemma nj_step_explicit (m0 : nat) (D : qmatrix) (rn : string) (rd : Q)
      (cs : list Tree) (ints : list nat) :
  nj_inv m0 (mkState D (Node rn rd cs) ints) -> 2 < List.length ints ->
  exists c i j dflt,
    i <> j /\ i < List.length cs /\ j < List.length cs /\
    List.length cs = List.length ints /\
    ch_l c = 2 * m0 - List.length ints /\
    nj_step (mkState D (Node rn rd cs) ints)
    = Ok (mkState (update_D c ints D)
                  (Node rn rd (delete2 cs i j ++
                               [Node (str (ch_l c)) DEFAULT_DIST
                                     [set_dist (inject_Z (int (vi c))) (nth i cs dflt);
                                      set_dist (inject_Z (int (vj c))) (nth j cs dflt)]]))
                  (delete2 ints i j ++ [ch_l c])).
Proof.
  unfold nj_inv. cbn [st_D st_tree st_internals children name].
  set (m := List.length ints).
  intros (HD & Hm & Hname & Hnames & Hnd & Hlt & Hbin & Hleaves & Hint) Hm2.
  assert (Hcs : List.length cs = m).
  { unfold m. rewrite <- (length_map name cs), Hnames. apply length_map. }
  pose proof HD as HDsq. destruct HD as [HD Hrows].
  assert (Hdim : Forall (fun k => k < 2 * m0 - 2) ints).
  { eapply Forall_impl; [|exact Hlt]. cbn beta. intros a Ha. lia. }
  unfold nj_step, choose. cbn [st_D st_tree st_internals]. fold m.
  rewrite (gather_square (2 * m0 - 2) D ints HDsq Hdim). cbn [bind].
  set (d := map (fun a => map (fun b => get D a b) ints) ints).
  set (u := map (fun row => (qsum row / inject_Z (Z.of_nat (m - 2)))%Q) d).
  destruct (argmin2_offdiag d u m) as (i & j & Harg & Hi & Hj & Hij); [lia|].
  rewrite Harg. cbn [bind fst snd].
  assert (Hl : Nat.ltb (List.length D + 2) m = false) by (apply Nat.ltb_ge; lia).
  rewrite Hl. cbn [bind].
  set (c := mkChoice d u i j (List.length D + 2 - m)).
  assert (Hw : writable D (ch_l c) ints = true).
  { apply (writable_square (2 * m0 - 2)); [exact HDsq|cbn [ch_l c]; lia|exact Hdim]. }
  rewrite Hw.
  unfold join, index. cbn [ch_i ch_j ch_l c].
  rewrite (nth_error_nth' ints 0 Hi), (nth_error_nth' ints 0 Hj). cbn [bind].
  set (dflt := Node EmptyString 0%Q []).
  assert (Hrn : rn <> str (nth i ints 0) /\ rn <> str (nth j ints 0)).
  { rewrite Hname. split; intros E; symmetry in E; revert E; apply str_not_default. }
  assert (Hndn : NoDup (map name cs)) by (rewrite Hnames; now apply NoDup_map_str).
  rewrite (search_name_child rn rd cs (str (nth i ints 0)) dflt i);
    [|tauto|exact Hndn|lia|now apply name_nth].
  rewrite (search_name_child rn rd cs (str (nth j ints 0)) dflt j);
    [|tauto|exact Hndn|lia|now apply name_nth].
  cbn [bind].
  rewrite (detach2_children rn rd cs dflt i j) by lia.
  cbn [bind].
  exists c, i, j, dflt. cbn [ch_l c add_child children name dist].
  repeat split; try lia. 
Qed.

(** *** Names *)

Lemma get_leaf_names_set_dist (q : Q) (t : Tree) :
  get_leaf_names (set_dist q t) = get_leaf_names t.
Proof. destruct t as [n d cs]. reflexivity. Qed.

Lemma descendant_names_set_dist (q : Q) (t : Tree) :
  descendant_names (set_dist q t) = descendant_names t.
Proof. destruct t as [n d cs]. reflexivity. Qed.

Lemma name_set_dist (q : Q) (t : Tree) : name (set_dist q t) = name t.
Proof. destruct t as [n d cs]. reflexivity. Qed.

Lemma remove_nth_perm {A : Type} (k : nat) (l : list A) (d : A) :
  k < List.length l -> Permutation l (nth k l d :: remove_nth k l).
Proof.
  revert k. induction l as [|a l IH]; intros [|k] Hk; cbn [List.length] in Hk; try lia.
  - reflexivity.
  - cbn [nth remove_nth]. rewrite perm_swap. constructor. apply IH. lia.
Qed.

Lemma delete2_perm {A : Type} (l : list A) (d : A) (i j : nat) :
  i <> j -> i < List.length l -> j < List.length l ->
  Permutation l (nth i l d :: nth j l d :: delete2 l i j).
Proof.
  intros Hne Hi Hj. unfold delete2.
  destruct (Nat.eqb i j) eqn:E; [apply Nat.eqb_eq in E; contradiction|].
  destruct (Nat.ltb i j) eqn:Elt.
  - apply Nat.ltb_lt in Elt.
    rewrite (remove_nth_perm j l d Hj) at 1. rewrite perm_swap. constructor.
    rewrite <- (nth_remove_nth_lt i j l d Elt).
    apply remove_nth_perm. rewrite remove_nth_length; lia.
  - apply Nat.ltb_ge in Elt.
    rewrite (remove_nth_perm i l d Hi) at 1. constructor.
    rewrite <- (nth_remove_nth_lt j i l d) by lia.
    apply remove_nth_perm. rewrite remove_nth_length; lia.
Qed.

Lemma flat_map_perm {A B : Type} (f : A -> list B) (l l' : list A) :
  Permutation l l' -> Permutation (flat_map f l) (flat_map f l').
Proof.
  induction 1 as [|a l l' _ IH|a b l|l1 l2 l3 _ IH1 _ IH2]; cbn [flat_map].
  - constructor.
  - now apply Permutation_app_head.
  - rewrite !app_assoc. apply Permutation_app_tail, Permutation_app_comm.
  - now transitivity (flat_map f l2).
Qed.

Lemma nj_step_names (m0 : nat) (s : state) :
  nj_inv m0 s -> names_inv m0 s -> 2 < List.length (st_internals s) ->
  forall s', nj_step s = Ok s' -> names_inv m0 s'.
Proof.
  destruct s as [D [rn rd cs] ints]. intros Hinv [Hleaf Hall] Hm s' Hstep.
  destruct (nj_step_explicit m0 D rn rd cs ints Hinv Hm)
    as (c & i & j & dflt & Hij & Hi & Hj & Hlen & Hl & E).
  cbn [st_internals] in *. rewrite E in Hstep. injection Hstep as <-.
  assert (Hm0 : List.length ints <= m0) by (destruct Hinv as (_ & H & _); exact (proj2 H)).
  unfold names_inv. cbn [st_tree st_internals children] in *.
  pose proof (delete2_perm cs dflt i j Hij Hi Hj) as Hp.
  split.
  - rewrite <- Hleaf. rewrite (flat_map_perm get_leaf_names _ _ Hp).
    rewrite flat_map_app. cbn [flat_map get_leaf_names].
    rewrite !get_leaf_names_set_dist, !app_nil_r.
    rewrite Permutation_app_comm. now rewrite app_assoc.
  - rewrite length_app, delete2_length by lia. cbn [List.length].
    replace (2 * m0 - (List.length ints - 2 + 1)) with (S (2 * m0 - List.length ints)) by lia.
    rewrite seq_S, map_app. cbn [map Nat.add]. rewrite <- Hall, <- Hl.
    rewrite (flat_map_perm (fun c0 => name c0 :: descendant_names c0) cs _ Hp).
    rewrite flat_map_app. cbn [flat_map name descendant_names].
    rewrite !descendant_names_set_dist, !name_set_dist, !app_nil_r.
    set (X := flat_map (fun c0 => name c0 :: descendant_names c0) (delete2 cs i j)).
    set (A := name (nth i cs dflt) :: descendant_names (nth i cs dflt)).
    set (B := name (nth j cs dflt) :: descendant_names (nth j cs dflt)).
    change (Permutation (X ++ str (ch_l c) :: A ++ B) ((A ++ B ++ X) ++ [str (ch_l c)])).
    rewrite <- Permutation_cons_append.
    rewrite Permutation_app_comm. cbn [app]. constructor.
    now rewrite app_assoc.
Qed.

Lemma nj_loop_names (m0 : nat) (fuel : nat) :
  forall s, nj_inv m0 s -> names_inv m0 s -> List.length (st_internals s) <= fuel + 2 ->
  exists s', nj_loop fuel s = Ok s' /\ names_inv m0 s' /\ List.length (st_internals s') = 2.
Proof.
  induction fuel as [|fuel IH]; intros s Hinv Hn Hfuel;
    assert (Hm : 2 <= List.length (st_internals s)) by (destruct Hinv; tauto).
  - exists s. cbn [nj_loop].
    replace (Nat.ltb 2 (List.length (st_internals s))) with false
      by (symmetry; apply Nat.ltb_ge; lia).
    split; [reflexivity|split; [exact Hn|lia]].
  - cbn [nj_loop]. destruct (Nat.ltb 2 (List.length (st_internals s))) eqn:E.
    + apply Nat.ltb_lt in E.
      destruct (nj_step_inv m0 s Hinv E) as (s1 & Hstep & Hinv1 & Hlen1).
      pose proof (nj_step_names m0 s Hinv Hn E s1 Hstep) as Hn1.
      rewrite Hstep. cbn [bind]. apply IH; [exact Hinv1|exact Hn1|lia].
    + apply Nat.ltb_ge in E. exists s. split; [reflexivity|split; [exact Hn|lia]].
Qed.

Lemma init_names (m : nat) (D : qmatrix) :
  names_inv m (mkState D (init_star_tree m) (arange m)).
Proof.
  unfold names_inv, init_star_tree, arange. cbn [st_tree st_internals children].
  rewrite length_seq. replace (2 * m - m) with m by lia.
  assert (H1 : flat_map get_leaf_names (map (fun i => Node (str i) DEFAULT_DIST []) (seq 0 m))
               = map str (seq 0 m)).
  { generalize (seq 0 m). intros l. induction l as [|a l IH]; cbn; [reflexivity|now rewrite IH]. }
  assert (H2 : flat_map (fun c => name c :: descendant_names c)
                        (map (fun i => Node (str i) DEFAULT_DIST []) (seq 0 m))
               = map str (seq 0 m)).
  { generalize (seq 0 m). intros l. induction l as [|a l IH]; cbn; [reflexivity|now rewrite IH]. }
  rewrite H1, H2. split; reflexivity.
Qed.

(** X9.  Neighbor joining loses and invents no sample: on the
    (2m-2)-square array the program allocates for [m >= 2] samples it
    returns, the leaves of the tree it returns are the samples
    [0 .. m-1], each once; and the nodes below the root are named
    [0 .. 2m-3], each name once, so that every row of [D] belongs to
    exactly one node. *)
Theorem X_neighbor_joining_names (m : nat) (D : qmatrix) :
  2 <= m -> square (2 * m - 2) D ->
  exists t, neighbor_joining D (init_star_tree m) (arange m) = Ok t /\
            Permutation (get_leaf_names t) (map str (seq 0 m)) /\
            Permutation (descendant_names t) (map str (seq 0 (2 * m - 2))) /\
            NoDup (descendant_names t).
Proof.
  intros Hm HD. unfold neighbor_joining.
  assert (Hinv : nj_inv m (mkState D (init_star_tree m) (arange m)))
    by (apply init_inv; [lia|exact HD]).
  destruct (nj_loop_names m (List.length (arange m)) _ Hinv (init_names m D))
    as (s & Hloop & [Hleaf Hall] & Hlen).
  { cbn [st_internals]. lia. }
  rewrite Hloop. cbn [bind]. exists (st_tree s). split; [reflexivity|].
  destruct (nj_loop_inv m (List.length (arange m)) _ Hinv) as (s2 & Hloop2 & Hs & _).
  { cbn [st_internals]. lia. }
  rewrite Hloop in Hloop2. injection Hloop2 as <-.
  destruct s as [D' [rn rd cs] ints].
  unfold nj_inv in Hs. cbn [st_D st_tree st_internals children name] in *.
  destruct Hs as (_ & _ & _ & Hnames & _).
  assert (Hcs : List.length cs = 2).
  { rewrite <- (length_map name cs), Hnames, length_map. exact Hlen. }
  rewrite Hlen in Hall.
  destruct cs as [|c1 cs]; [discriminate Hcs|].
  split; [exact Hleaf|]. split; [exact Hall|].
  eapply Permutation_NoDup; [symmetry; exact Hall|].
  apply NoDup_map_str, seq_NoDup.
Qed.

Lemma X_neighbor_joining_names_witness :
  exists t, neighbor_joining D3 (init_star_tree 3) (arange 3) = Ok t /\
            Permutation (get_leaf_names t) (map str (seq 0 3)) /\
            Permutation (descendant_names t) (map str (seq 0 4)) /\
            NoDup (descendant_names t).
Proof.
  apply (X_neighbor_joining_names 3 D3); [lia|exact D3_square].
Defined.

(** *** The distance array stays symmetric *)

Lemma get_set (dim i j : nat) (v : Q) (D : qmatrix) (a b : nat) :
  square dim D ->
  get (set i j v D) a b
  = if Nat.eqb a i && Nat.eqb b j && Nat.ltb i dim && Nat.ltb j dim then v else get D a b.
Proof.
  intros [HL Hrows]. unfold get, set.
  destruct (Nat.eqb a i) eqn:Ea; cbn [andb].
  - apply Nat.eqb_eq in Ea. subst a.
    destruct (Nat.ltb i dim) eqn:Ei.
    + apply Nat.ltb_lt in Ei.
      assert (Hi : i < List.length D) by lia.
      rewrite (@nth_upd_same _ i (Phred.upd j (fun _ => v)) D [] Hi).
      assert (Hrow : List.length (nth i D []) = dim)
        by (rewrite Forall_forall in Hrows; apply Hrows, nth_In; exact Hi).
      destruct (Nat.eqb b j) eqn:Eb; cbn [andb].
      * apply Nat.eqb_eq in Eb. subst b.
        destruct (Nat.ltb j dim) eqn:Ej.
        -- apply Nat.ltb_lt in Ej.
           apply (@nth_upd_same _ j (fun _ => v) (nth i D []) 0%Q). lia.
        -- apply Nat.ltb_ge in Ej.
           rewrite !nth_overflow; [reflexivity|lia|rewrite upd_length; lia].
      * apply Nat.eqb_neq in Eb.
        apply (@nth_upd_other _ j b (fun _ => v) (nth i D []) 0%Q). auto.
    + apply Nat.ltb_ge in Ei. rewrite andb_false_r. cbn [andb].
      rewrite !(nth_overflow _ []); [reflexivity|lia|rewrite upd_length; lia].
  - apply Nat.eqb_neq in Ea.
    now rewrite (@nth_upd_other _ i a (Phred.upd j (fun _ => v)) D [] (not_eq_sym Ea)).
Qed.

Lemma store_pair_symmetric (dim l a : nat) (v : Q) (D : qmatrix) :
  square dim D -> symmetric D ->
  square dim (store_pair l a v D) /\ symmetric (store_pair l a v D).
Proof.
  intros HD Hs. unfold store_pair. split; [now do 2 apply set_square|].
  intros x y.
  rewrite !(get_set dim a l v (set l a v D)) by now apply set_square.
  rewrite !(get_set dim l a v D) by exact HD.
  rewrite (Hs x y).
  destruct (Nat.eqb x a) eqn:E1, (Nat.eqb y l) eqn:E2, (Nat.eqb y a) eqn:E3,
           (Nat.eqb x l) eqn:E4, (Nat.ltb a dim), (Nat.ltb l dim); cbn [andb]; reflexivity.
Qed.

Lemma update_D_symmetric (dim : nat) (c : choice) (ints : list nat) (D : qmatrix) :
  square dim D -> symmetric D ->
  square dim (update_D c ints D) /\ symmetric (update_D c ints D).
Proof.
  intros HD Hs. unfold update_D.
  assert (Hfold : forall L D0, square dim D0 -> symmetric D0 ->
            square dim (fold_left (fun D' ka => store_pair (ch_l c) (snd ka)
                                                  (new_distance c (fst ka)) D') L D0) /\
            symmetric (fold_left (fun D' ka => store_pair (ch_l c) (snd ka)
                                                 (new_distance c (fst ka)) D') L D0)).
  { induction L as [|ka L IH]; intros D0 H1 H2; cbn [fold_left]; [tauto|].
    destruct (store_pair_symmetric dim (ch_l c) (snd ka) (new_distance c (fst ka)) D0 H1 H2).
    now apply IH. }
  destruct (Hfold (combine (seq 0 (List.length ints)) ints) D HD Hs) as [H1 H2].
  destruct (store_pair_symmetric dim (ch_l c) (nth (ch_i c) ints 0) (vi c) _ H1 H2) as [H3 H4].
  now apply store_pair_symmetric.
Qed.

Lemma nj_step_D (s s' : state) :
  nj_step s = Ok s' -> exists c, st_D s' = update_D c (st_internals s) (st_D s).
Proof.
  unfold nj_step. intros H.
  destruct (choose (st_D s) (st_internals s)) as [c|e]; [|discriminate H].
  cbn [bind] in H.
  destruct (writable (st_D s) (ch_l c) (st_internals s)); [|discriminate H].
  destruct (join c (st_internals s) (st_tree s)) as [t|e]; [|discriminate H].
  cbn [bind] in H. injection H as <-. exists c. reflexivity.
Qed.

(** X10.  Neighbor joining keeps the distance array square and symmetric:
    whatever it stores for a new node it stores in both [D[l,k]] and
    [D[k,l]]. *)
Theorem X_nj_keeps_D_symmetric (dim fuel : nat) (s s' : state) :
  square dim (st_D s) -> symmetric (st_D s) -> nj_loop fuel s = Ok s' ->
  square dim (st_D s') /\ symmetric (st_D s').
Proof.
  revert s. induction fuel as [|fuel IH]; intros s HD Hs H; cbn [nj_loop] in H;
    destruct (Nat.ltb 2 (List.length (st_internals s))); try discriminate H;
    try (injection H as <-; tauto).
  destruct (nj_step s) as [s1|e] eqn:E; [|discriminate H]. cbn [bind] in H.
  destruct (nj_step_D s s1 E) as [c Hc].
  destruct (update_D_symmetric dim c (st_internals s) (st_D s) HD Hs) as [H1 H2].
  rewrite <- Hc in H1, H2. exact (IH s1 H1 H2 H).
Qed.

Lemma D3_symmetric : symmetric D3.
Proof.
  intros a b. unfold get, D3.
  destruct a as [|[|[|[|a]]]]; destruct b as [|[|[|[|b]]]]; cbn [nth]; try reflexivity;
    try (destruct a; reflexivity); try (destruct b; reflexivity).
  destruct a, b; reflexivity.
Qed.

Lemma X_nj_keeps_D_symmetric_witness :
  exists s', nj_loop 3 (mkState D3 (init_star_tree 3) (arange 3)) = Ok s' /\
             square 4 (st_D s') /\ symmetric (st_D s').
Proof.
  eexists. split; [vm_compute; reflexivity|].
  apply (X_nj_keeps_D_symmetric 4 3 (mkState D3 (init_star_tree 3) (arange 3))).
  - exact D3_square.
  - exact D3_symmetric.
  - vm_compute. reflexivity.
Defined.

End MoreNJFacts.

(** ** Which variants [read_vcf] keeps *)

Section VcfFacts.
Import Lik Vcf.
Local Open Scope Z_scope.

Lemma sorted3 (a b c : Z) :
  exists x y z, sorted [a; b; c] = [x; y; z] /\ x <= y <= z /\
                x = Z.min a (Z.min b c) /\ z = Z.max a (Z.max b c) /\ x + y + z = a + b + c.
Proof.
  unfold sorted. cbn [fold_right insert].
  destruct (Z.leb b c) eqn:E1; cbn [insert];
    destruct (Z.leb a b) eqn:E2; destruct (Z.leb a c) eqn:E3; cbn [insert];
      rewrite ?E1, ?E2, ?E3; do 3 eexists; (split; [reflexivity|]);
        rewrite ?Z.leb_le, ?Z.leb_gt in *; lia.
Qed.

Lemma columns_ascending (pl : site) :
  Forall (fun r => List.length r = 3%nat) pl ->
  column 0 (np_sort pl) <= column 1 (np_sort pl) <= column 2 (np_sort pl).
Proof.
  unfold column, np_sort. induction 1 as [|r pl Hr Hpl IH]; cbn [map fold_right]; [lia|].
  destruct r as [|a [|b [|c [|d r]]]]; try discriminate Hr.
  destruct (sorted3 a b c) as (x & y & z & -> & Hxyz & _). cbn [nth]. lia.
Qed.

Lemma k_ev_site (evidence : Z) (pl : site) :
  Forall (fun r => List.length r = 3%nat) pl ->
  Nat.eqb (List.length (filter (fun s => Z.leb evidence s) (sum_axis1 3 (np_sort pl)))) 2
  = strong evidence pl.
Proof.
  intros H. pose proof (columns_ascending pl H) as Hc.
  unfold strong, smallest, second, sum_axis1. cbn [seq map filter].
  destruct (Z.leb evidence (column 0 (np_sort pl))) eqn:E0;
    destruct (Z.leb evidence (column 1 (np_sort pl))) eqn:E1;
    destruct (Z.leb evidence (column 2 (np_sort pl))) eqn:E2;
    destruct (Z.ltb (column 0 (np_sort pl)) evidence) eqn:E3;
    cbn [List.length Nat.eqb andb]; try reflexivity;
      rewrite ?Z.leb_le, ?Z.leb_gt, ?Z.ltb_lt, ?Z.ltb_ge in *; lia.
Qed.

Lemma select_filter {A : Type} (f : A -> bool) (l : list A) :
  select (map f l) l = filter f l.
Proof.
  unfold select. induction l as [|a l IH]; cbn [map combine filter fst snd]; [reflexivity|].
  destruct (f a); cbn [map snd]; now rewrite IH.
Qed.

(** X11.  With three genotypes per sample, [read_vcf] keeps a variant exactly
    when the smallest likelihoods of the samples add up to less than
    [evidence] and the second smallest to at least [evidence]; the
    variants kept stay in their order.  So a variant at which even the
    smallest likelihoods reach [evidence] together is dropped, and when
    every sample has a genotype of likelihood 0 and [evidence] is
    positive the test is the one on the second smallest alone. *)
Theorem X_read_vcf_evidence (evidence : Z) (PLs : list site) :
  Forall (Forall (fun r => List.length r = 3%nat)) PLs ->
  select (k_ev evidence 3 PLs) PLs = filter (strong evidence) PLs /\
  (forall pl, In pl PLs -> evidence <= smallest pl -> ~ In pl (select (k_ev evidence 3 PLs) PLs)) /\
  (forall pl, In pl PLs -> smallest pl = 0 -> 0 < evidence ->
              (In pl (select (k_ev evidence 3 PLs) PLs) <-> evidence <= second pl)).
Proof.
  intros H.
  assert (Hk : k_ev evidence 3 PLs = map (strong evidence) PLs).
  { unfold k_ev. apply map_ext_in. intros pl Hpl. apply k_ev_site.
    rewrite Forall_forall in H. now apply H. }
  assert (Hs : select (k_ev evidence 3 PLs) PLs = filter (strong evidence) PLs)
    by (rewrite Hk; apply select_filter).
  split; [exact Hs|]. rewrite Hs. split.
  - intros pl Hpl Hev Hin. apply filter_In in Hin. destruct Hin as [_ Hin].
    unfold strong in Hin. apply andb_true_iff in Hin. destruct Hin as [Hlt _].
    apply Z.ltb_lt in Hlt. lia.
  - intros pl Hpl H0 Hev. rewrite filter_In. unfold strong. rewrite H0.
    replace (Z.ltb 0 evidence) with true by (symmetry; apply Z.ltb_lt; exact Hev).
    cbn [andb]. rewrite Z.leb_le. tauto.
Qed.

Lemma X_read_vcf_evidence_witness :
  select (k_ev 60 3 PLs_ex) PLs_ex = [[[0; 40; 90]; [35; 0; 70]]].
Proof.
  assert (H : Forall (Forall (fun r : list Z => List.length r = 3%nat)) PLs_ex)
    by (unfold PLs_ex; repeat constructor).
  exact (eq_trans (proj1 (X_read_vcf_evidence 60 PLs_ex H)) eq_refl).
Defined.

End VcfFacts.

(** ** What [init_tree] leaves on the nodes *)

Section InitFacts.
Import Phred Lik Init.
Local Open Scope nat_scope.

Lemma mapM_app {A B : Type} (f : A -> result B) (l1 l2 : list A) :
  mapM f (l1 ++ l2)
  = (a <- mapM f l1 ;; b <- mapM f l2 ;; Ok (a ++ b))%py.
Proof.
  induction l1 as [|x l1 IH]; simpl.
  - destruct (mapM f l2); reflexivity.
  - destruct (f x) as [y|e]; simpl; [|reflexivity].
    rewrite IH. destruct (mapM f l1) as [ys|e]; simpl; [|reflexivity].
    destruct (mapM f l2); reflexivity.
Qed.

Lemma mapM_app_Ok {A B : Type} (f : A -> result B) (l1 l2 : list A) (zs : list B) :
  mapM f (l1 ++ l2) = Ok zs ->
  exists z1 z2, mapM f l1 = Ok z1 /\ mapM f l2 = Ok z2 /\ zs = z1 ++ z2.
Proof.
  rewrite mapM_app. destruct (mapM f l1) as [z1|e]; cbn [bind]; [|discriminate].
  destruct (mapM f l2) as [z2|e]; cbn [bind]; [|discriminate].
  intros H. injection H as <-. eauto.
Qed.

Lemma number_children_eq (limit : nat) (cs : list Tree) :
  forall i,
    (fix go (cs : list Tree) (i : nat) {struct cs} : list Tree * nat :=
       match cs with
       | [] => ([], i)
       | c :: cs' =>
         let r1 := number limit c i in
         let r2 := go cs' (snd r1) in
         (fst r1 :: fst r2, snd r2)
       end) cs i = number_children limit cs i.
Proof.
  induction cs as [|c cs IH]; intros i; [reflexivity|].
  cbn [number_children]. rewrite <- IH. reflexivity.
Qed.

Lemma number_eq (limit : nat) (nm : string) (s : option (list Z)) (p : option matrix)
      (q : option tensor) (cs : list Tree) (i : nat) :
  number limit (TreeNode nm s p q cs) i
  = (TreeNode nm (if Nat.ltb (snd (number_children limit cs i)) limit
                  then option_map sorted s else s) p q
              (fst (number_children limit cs i)),
     S (snd (number_children limit cs i))).
Proof. cbn [number]. rewrite number_children_eq. reflexivity. Qed.

Lemma get_leaf_names_node (nm : string) (s : option (list Z)) (p : option matrix)
      (q : option tensor) (c : Tree) (cs : list Tree) :
  get_leaf_names (TreeNode nm s p q (c :: cs)) = flat_map get_leaf_names (c :: cs).
Proof. reflexivity. Qed.

Lemma len_node (nm : string) (s : option (list Z)) (p : option matrix)
      (q : option tensor) (c : Tree) (cs : list Tree) :
  len (TreeNode nm s p q (c :: cs)) = list_sum (map len (c :: cs)).
Proof. reflexivity. Qed.

Lemma flat_map_names_eq (cs cs' : list Tree) :
  Forall2 (fun c c' => get_leaf_names c' = get_leaf_names c) cs cs' ->
  flat_map get_leaf_names cs' = flat_map get_leaf_names cs.
Proof. induction 1 as [|c c' cs cs' H _ IH]; cbn [flat_map]; [reflexivity|]. now rewrite H, IH. Qed.

Lemma same_frame_lists (cs cs' : list Tree) :
  Forall2 same_frame cs cs' ->
  flat_map get_leaf_names cs' = flat_map get_leaf_names cs /\
  map len cs' = map len cs /\ map size cs' = map size cs /\
  forallb no_unary cs' = forallb no_unary cs /\ List.length cs' = List.length cs.
Proof.
  induction 1 as [|c c' cs cs' H _ IH]; cbn [flat_map map forallb List.length]; [tauto|].
  destruct H as (H1 & H2 & H3 & H4 & _). destruct IH as (I1 & I2 & I3 & I4 & I5).
  rewrite H1, H2, H3, H4, I1, I2, I3, I4, I5. tauto.
Qed.

Lemma same_frame_node (nm nm' : string) (s s' : option (list Z)) (p : option matrix)
      (q : option tensor) (cs cs' : list Tree) :
  (cs = [] -> nm' = nm) -> Forall2 same_frame cs cs' ->
  same_frame (TreeNode nm s p q cs) (TreeNode nm' s' p q cs').
Proof.
  intros Hnm H. pose proof (same_frame_lists cs cs' H) as (H1 & H2 & H3 & H4 & H5).
  destruct H as [|c c' cs cs' Hc Hcs].
  - rewrite Hnm by reflexivity. repeat split.
  - unfold same_frame. rewrite !get_leaf_names_node, !len_node.
    cbn [size no_unary PL0 PLm children]. rewrite H1, H2, H3, H4, H5. repeat split.
Qed.

Lemma sid_is_names (f : list Z -> list Z) (t : Tree) (zs : list Z) :
  mapM int (get_leaf_names t) = Ok zs -> sid t = Some (f zs) -> sid_is f t = true.
Proof.
  intros H1 H2. unfold sid_is. rewrite H1, H2.
  destruct (list_eq_dec Z.eq_dec (f zs) (f zs)); [reflexivity|contradiction].
Qed.

Lemma sid_is_inv (f : list Z -> list Z) (t : Tree) :
  sid_is f t = true ->
  exists zs, mapM int (get_leaf_names t) = Ok zs /\ sid t = Some (f zs).
Proof.
  unfold sid_is. destruct (sid t) as [a|]; [|discriminate].
  destruct (mapM int (get_leaf_names t)) as [b|e]; [|discriminate].
  destruct (list_eq_dec Z.eq_dec a (f b)) as [->|]; [|discriminate]. eauto.
Qed.

Lemma collect_sid_children (cs : list Tree) :
  Forall (fun t => forall zs, mapM int (get_leaf_names t) = Ok zs ->
            exists t1, collect_sid t = Ok t1 /\ sid t1 = Some zs /\
                       same_frame t t1 /\ sids_raw t1 = true) cs ->
  forall zs, mapM int (flat_map get_leaf_names cs) = Ok zs ->
    exists cs', mapM collect_sid cs = Ok cs' /\
                (exists sids, mapM (fun c => attr (sid c)) cs' = Ok sids /\ List.concat sids = zs) /\
                Forall2 same_frame cs cs' /\ forallb sids_raw cs' = true.
Proof.
  induction 1 as [|c cs Hc _ IH]; intros zs H.
  - cbn [flat_map mapM] in H. injection H as <-. exists []. cbn [mapM forallb].
    split; [reflexivity|]. split; [exists []; split; reflexivity|]. split; constructor.
  - cbn [flat_map] in H. apply mapM_app_Ok in H. destruct H as (z1 & z2 & H1 & H2 & ->).
    destruct (Hc z1 H1) as (c1 & Ec & Hs & Hf & Hr).
    destruct (IH z2 H2) as (cs' & Ecs & (sids & Es & Hcat) & Hfs & Hrs).
    exists (c1 :: cs'). cbn [mapM]. rewrite Ec, Ecs. cbn [bind].
    split; [reflexivity|]. split.
    + exists (z1 :: sids). rewrite Hs, Es. cbn [attr bind List.concat]. now rewrite Hcat.
    + split; [now constructor|]. cbn [forallb]. now rewrite Hr, Hrs.
Qed.

Lemma collect_sid_spec (t : Tree) :
  forall zs, mapM int (get_leaf_names t) = Ok zs ->
    exists t1, collect_sid t = Ok t1 /\ sid t1 = Some zs /\
               same_frame t t1 /\ sids_raw t1 = true.
Proof.
  induction t as [nm s p q cs IH] using Tree_ind'. intros zs H.
  destruct cs as [|c cs].
  - cbn [get_leaf_names mapM] in H.
    destruct (int nm) as [z|e] eqn:E; [|discriminate H]. cbn [bind] in H. injection H as <-.
    exists (TreeNode nm (Some [z]) p q []). cbn [collect_sid]. rewrite E. cbn [bind].
    split; [reflexivity|]. split; [reflexivity|]. split; [repeat split|].
    cbn [sids_raw forallb]. rewrite andb_true_r.
    apply sid_is_names with (zs := [z]); [|reflexivity].
    cbn [get_leaf_names mapM]. now rewrite E.
  - rewrite get_leaf_names_node in H.
    destruct (collect_sid_children (c :: cs) IH zs H)
      as (cs' & Ecs & (sids & Es & Hcat) & Hfs & Hrs).
    exists (TreeNode EmptyString (Some zs) p q cs').
    change (collect_sid (TreeNode nm s p q (c :: cs)))
      with (bind (mapM collect_sid (c :: cs))
                 (fun cs' => bind (mapM (fun c => attr (sid c)) cs')
                                  (fun sids => Ok (TreeNode EmptyString (Some (List.concat sids)) p q cs')))).
    rewrite Ecs. cbn [bind]. rewrite Es. cbn [bind]. rewrite Hcat.
    split; [reflexivity|]. split; [reflexivity|].
    pose proof (same_frame_node nm EmptyString s (Some zs) p q (c :: cs) cs'
                                ltac:(discriminate) Hfs) as Hf.
    split; [exact Hf|].
    cbn [sids_raw]. rewrite Hrs, andb_true_r.
    apply sid_is_names with (zs := zs); [|reflexivity].
    destruct Hf as (Hn & _). rewrite Hn, get_leaf_names_node. exact H.
Qed.

Lemma list_sum_cons (a : nat) (l : list nat) : list_sum (a :: l) = a + list_sum l.
Proof. reflexivity. Qed.

Lemma number_children_spec (limit : nat) (cs : list Tree) :
  Forall (fun t => forall i, sids_raw t = true -> i + size t <= limit ->
            snd (number limit t i) = i + size t /\
            sids_fresh (fst (number limit t i)) = true /\
            sid (fst (number limit t i)) = option_map sorted (sid t) /\
            same_frame t (fst (number limit t i))) cs ->
  forall i, forallb sids_raw cs = true -> i + list_sum (map size cs) <= limit ->
    snd (number_children limit cs i) = i + list_sum (map size cs) /\
    forallb sids_fresh (fst (number_children limit cs i)) = true /\
    Forall2 same_frame cs (fst (number_children limit cs i)).
Proof.
  induction 1 as [|c cs Hc _ IH]; intros i Hr Hi.
  - simpl. split; [lia|]. split; constructor.
  - cbn [forallb] in Hr. apply andb_true_iff in Hr. destruct Hr as [Hrc Hrs].
    cbn [map] in Hi. rewrite list_sum_cons in Hi.
    destruct (Hc i Hrc ltac:(lia)) as (H1 & H2 & _ & H4).
    cbn [number_children fst snd map forallb]. rewrite list_sum_cons.
    destruct (IH (snd (number limit c i)) Hrs ltac:(lia)) as (I1 & I2 & I3).
    split; [lia|]. split; [now rewrite H2, I2|now constructor].
Qed.

Lemma number_spec (limit : nat) (t : Tree) :
  forall i, sids_raw t = true -> i + size t <= limit ->
    snd (number limit t i) = i + size t /\
    sids_fresh (fst (number limit t i)) = true /\
    sid (fst (number limit t i)) = option_map sorted (sid t) /\
    same_frame t (fst (number limit t i)).
Proof.
  induction t as [nm s p q cs IH] using Tree_ind'. intros i Hr Hi.
  cbn [sids_raw] in Hr. apply andb_true_iff in Hr. destruct Hr as [Hs Hrs].
  cbn [size] in Hi.
  destruct (number_children_spec limit cs IH i Hrs ltac:(lia)) as (H1 & H2 & H3).
  rewrite number_eq. cbn [fst snd size].
  replace (Nat.ltb (snd (number_children limit cs i)) limit) with true
    by (symmetry; apply Nat.ltb_lt; lia).
  split; [lia|].
  pose proof (same_frame_node nm nm s (option_map sorted s) p q cs
                              (fst (number_children limit cs i)) (fun _ => eq_refl) H3) as Hf.
  split; [|split; [reflexivity|exact Hf]].
  cbn [sids_fresh]. rewrite H2, andb_true_r.
  apply sid_is_inv in Hs. destruct Hs as (zs & Hz & Hsid). cbn [sid] in Hsid. subst s.
  apply sid_is_names with (zs := zs); [|reflexivity].
  destruct Hf as (Hn & _). rewrite Hn. exact Hz.
Qed.

Lemma number_children_frame (limit : nat) (cs : list Tree) :
  Forall (fun t => forall i, same_frame t (fst (number limit t i))) cs ->
  forall i, Forall2 same_frame cs (fst (number_children limit cs i)).
Proof.
  induction 1 as [|c cs Hc _ IH]; intros i; cbn [number_children fst]; constructor.
  - apply Hc.
  - apply IH.
Qed.

Lemma number_frame (limit : nat) (t : Tree) :
  forall i, same_frame t (fst (number limit t i)).
Proof.
  induction t as [nm s p q cs IH] using Tree_ind'. intros i.
  rewrite number_eq. cbn [fst].
  apply same_frame_node; [reflexivity|]. now apply number_children_frame.
Qed.

Lemma same_frame_trans (a b c : Tree) : same_frame a b -> same_frame b c -> same_frame a c.
Proof.
  intros (A1 & A2 & A3 & A4 & A5 & A6 & A7) (B1 & B2 & B3 & B4 & B5 & B6 & B7).
  unfold same_frame. rewrite B1, B2, B3, B4, B5, B6, B7. tauto.
Qed.

Lemma init_tree_frame (t t' : Tree) : init_tree t = Ok t' -> same_frame t t'.
Proof.
  unfold init_tree. intros H.
  destruct (mapM int (get_leaf_names t)) as [zs|e] eqn:Ez; [|discriminate H].
  cbn [bind] in H. destruct (collect_sid_spec t zs Ez) as (t1 & E1 & _ & Hf & _).
  rewrite E1 in H. cbn [bind] in H. injection H as <-.
  exact (same_frame_trans _ _ _ Hf (number_frame _ t1 0)).
Qed.

Lemma size_bound_children (cs : list Tree) :
  Forall (fun t => no_unary t = true -> 1 <= len t /\ size t <= 2 * len t - 1) cs ->
  forallb no_unary cs = true ->
  list_sum (map size cs) + List.length cs <= 2 * list_sum (map len cs) /\
  List.length cs <= list_sum (map len cs).
Proof.
  induction 1 as [|c cs Hc _ IH]; intros Hn; [simpl; lia|].
  cbn [map List.length]. rewrite !list_sum_cons.
  cbn [forallb] in Hn. apply andb_true_iff in Hn. destruct Hn as [H1 H2].
  specialize (Hc H1). specialize (IH H2). lia.
Qed.

Lemma size_bound (t : Tree) :
  no_unary t = true -> 1 <= len t /\ size t <= 2 * len t - 1.
Proof.
  induction t as [nm s p q cs IH] using Tree_ind'. intros Hn.
  cbn [no_unary] in Hn. apply andb_true_iff in Hn. destruct Hn as [H1 H2].
  pose proof (size_bound_children cs IH H2) as [Hb Hl].
  destruct cs as [|c cs]; [cbn; lia|].
  rewrite len_node. cbn [size]. cbn [List.length] in *.
  apply negb_true_iff, Nat.eqb_neq in H1. lia.
Qed.



Lemma sids_fresh_not_stale (t : Tree) :
  sids_fresh t = true -> stale t = false /\ exists s, sid t = Some s /\ leaf_sid t = Ok s.
Proof.
  intros H. destruct t as [nm s p q cs]. cbn [sids_fresh] in H.
  apply andb_true_iff in H. destruct H as [H _].
  apply sid_is_inv in H. destruct H as (zs & Hz & Hs).
  unfold stale, leaf_sid. rewrite Hz, Hs. cbn [bind].
  destruct (list_eq_dec Z.eq_dec (sorted zs) (sorted zs)); [|contradiction].
  split; [reflexivity|eauto].
Qed.

Lemma init_tree_ok (t : Tree) (zs : list Z) :
  no_unary t = true -> mapM int (get_leaf_names t) = Ok zs ->
  exists t', init_tree t = Ok t' /\ sids_fresh t' = true /\
             sid t' = Some (sorted zs) /\ get_leaf_names t' = get_leaf_names t /\
             List.length (children t') = List.length (children t).
Proof.
  intros Hn Hz. unfold init_tree. rewrite Hz. cbn [bind].
  destruct (collect_sid_spec t zs Hz) as (t1 & E1 & Hs & Hf & Hr).
  rewrite E1. cbn [bind].
  destruct Hf as (Hnames & Hlen & Hsize & Hnu & _ & _ & Hch).
  assert (Hb : 0 + size t1 <= 2 * len t1 - 1).
  { rewrite <- Hnu in Hn. pose proof (size_bound t1 Hn). lia. }
  destruct (number_spec (2 * len t1 - 1) t1 0 Hr Hb) as (_ & Hfresh & Hsid & Hf2).
  eexists. split; [reflexivity|]. split; [exact Hfresh|].
  split; [rewrite Hsid, Hs; reflexivity|].
  destruct Hf2 as (Hn2 & _ & _ & _ & _ & _ & Hch2). split; [now rewrite Hn2|now rewrite Hch2].
Qed.



End InitFacts.

(** ** Nodes with a single child *)

Section UnaryFacts.
Import Phred Lik Init.
Local Open Scope nat_scope.

Lemma alloc_PLm_node (n g : nat) (nm : string) (s : option (list Z)) (p : option matrix)
      (q : option tensor) (c : Tree) (cs : list Tree) :
  alloc_PLm n g (TreeNode nm s p q (c :: cs))
  = TreeNode nm s p (Some (zeros3 (2 * len (TreeNode nm s p q (c :: cs)) - 2) n g))
             (map (alloc_PLm n g) (c :: cs)).
Proof. reflexivity. Qed.

Lemma fill_tree_eq (mm0 mm1 : matrix) (nm : string) (s : option (list Z)) (p : option matrix)
      (q : option tensor) (cs : list Tree) :
  fill_tree mm0 mm1 (TreeNode nm s p q cs)
  = (cs' <- mapM (fill_tree mm0 mm1) cs ;;
     match cs' with
     | [] => Ok (TreeNode nm s p q [])
     | _ => T <- attr q ;;
            T' <- fill_PLm mm0 mm1 cs' 0 cs' 0 T ;;
            Ok (TreeNode nm s p (Some T') cs')
     end)%py.
Proof. reflexivity. Qed.

Lemma fill_PLm_only_child (mm0 mm1 : matrix) (c : Tree) (i : nat) (T : tensor) :
  fill_PLm mm0 mm1 [c] 0 [c] i T = Raise IndexError.
Proof. reflexivity. Qed.

Lemma sum_children_length (mm0 : matrix) (update : Tree -> result Tree) (cs : list Tree) :
  forall acc r, sum_children mm0 update cs acc = Ok r ->
                List.length (fst r) = List.length cs.
Proof.
  induction cs as [|c cs IH]; intros acc r H; cbn [sum_children] in H.
  - now injection H as <-.
  - destruct (refresh_child update c) as [c'|e]; [|discriminate H]. cbn [bind] in H.
    destruct (attr (PL0 c')) as [cP|e]; [|discriminate H]. cbn [bind] in H.
    destruct (channel mm0 cP) as [x|e]; [|discriminate H]. cbn [bind] in H.
    destruct (madd_chk acc x) as [acc'|e]; [|discriminate H]. cbn [bind] in H.
    destruct (sum_children mm0 update cs acc') as [r1|e] eqn:E; [|discriminate H].
    cbn [bind] in H. injection H as <-. cbn [fst List.length]. f_equal. exact (IH _ _ E).
Qed.

Lemma update_PL_not_unary (mm0 mm1 : matrix) (t t' : Tree) :
  update_PL mm0 mm1 t = Ok t' -> List.length (children t) <> 1.
Proof.
  destruct t as [nm s pl0 plm cs]. cbn [update_PL children]. intros H Hlen.
  destruct (attr pl0) as [P0|e]; [|discriminate H]. cbn [bind] in H.
  destruct (sum_children mm0 (update_PL mm0 mm1) cs _) as [r|e] eqn:E; [|discriminate H].
  cbn [bind] in H. apply sum_children_length in E. rewrite Hlen in E.
  destruct (fst r) as [|c [|c' l]]; try discriminate E.
  rewrite fill_PLm_only_child in H. discriminate H.
Qed.

Lemma fill_tree_no_unary (mm0 mm1 : matrix) (t : Tree) :
  forall t', fill_tree mm0 mm1 t = Ok t' -> no_unary t = true.
Proof.
  induction t as [nm s p q cs IH] using Tree_ind'. intros t' H.
  rewrite fill_tree_eq in H.
  destruct (mapM (fill_tree mm0 mm1) cs) as [cs'|e] eqn:E; [|discriminate H].
  cbn [bind] in H. cbn [no_unary]. apply andb_true_iff. split.
  - apply negb_true_iff, Nat.eqb_neq. intros Hlen.
    pose proof (mapM_length _ _ _ E) as Hl. rewrite Hlen in Hl.
    destruct cs' as [|c [|c' l]]; try discriminate Hl.
    destruct (attr q) as [T|e]; [|discriminate H]. cbn [bind] in H.
    rewrite fill_PLm_only_child in H. discriminate H.
  - clear H. revert cs' E. induction IH as [|c cs Hc _ IHcs]; intros cs' E; [reflexivity|].
    cbn [mapM] in E. destruct (fill_tree mm0 mm1 c) as [c'|e] eqn:Ec; [|discriminate E].
    cbn [bind] in E. destruct (mapM (fill_tree mm0 mm1) cs) as [cs1|e]; [|discriminate E].
    cbn [forallb]. rewrite (Hc c' eq_refl), (IHcs cs1 eq_refl). reflexivity.
Qed.

Lemma alloc_PLm_no_unary (n g : nat) (t : Tree) : no_unary (alloc_PLm n g t) = no_unary t.
Proof.
  induction t as [nm s p q cs IH] using Tree_ind'.
  destruct cs as [|c cs]; [reflexivity|].
  rewrite alloc_PLm_node. cbn [no_unary]. rewrite length_map. f_equal.
  induction IH as [|a l Ha _ IHl]; [reflexivity|]. cbn [map forallb]. now rewrite Ha, IHl.
Qed.

Lemma populate_no_unary (m g : nat) (PLs : list matrix) (mm : matrix) (t : Tree) :
  forall t', populate_tree_PL m g PLs mm t = Ok t' -> no_unary t' = no_unary t.
Proof.
  induction t as [nm s p q cs IH] using Tree_ind'. intros t' H.
  destruct cs as [|c cs].
  - cbn [populate_tree_PL] in H.
    destruct (attr s) as [sd|e]; [|discriminate H]. cbn [bind] in H.
    destruct (index sd 0) as [k|e]; [|discriminate H]. cbn [bind] in H.
    destruct (take_sample m PLs k) as [P|e]; [|discriminate H]. cbn [bind] in H.
    now injection H as <-.
  - change (populate_tree_PL m g PLs mm (TreeNode nm s p q (c :: cs)))
      with (bind (mapM (populate_tree_PL m g PLs mm) (c :: cs))
                 (fun cs' => bind (add_children mm cs' (zeros (List.length PLs) g))
                                  (fun P => Ok (TreeNode nm s (Some P) q cs')))) in H.
    destruct (mapM (populate_tree_PL m g PLs mm) (c :: cs)) as [cs'|e] eqn:E; [|discriminate H].
    cbn [bind] in H.
    destruct (add_children mm cs' (zeros (List.length PLs) g)) as [P|e]; [|discriminate H].
    cbn [bind] in H. injection H as <-. cbn [no_unary].
    rewrite (mapM_length _ _ _ E). f_equal.
    clear nm s p q. revert cs' E. generalize (c :: cs) IH. clear c cs IH.
    intros l IH. induction IH as [|a l Ha _ IHl]; intros cs' E; cbn [mapM] in E.
    + now injection E as <-.
    + destruct (populate_tree_PL m g PLs mm a) as [a'|e] eqn:Ea; [|discriminate E].
      cbn [bind] in E.
      destruct (mapM (populate_tree_PL m g PLs mm) l) as [l'|e]; [|discriminate E].
      cbn [bind] in E. injection E as <-. cbn [forallb].
      now rewrite (Ha a' eq_refl), (IHl l' eq_refl).
Qed.

(** X16.  The likelihood code reads [child.get_sisters()[0]]: so
    [calc_mut_likelihoods] returns only on trees in which no node has
    exactly one child, and [update_PL] only at a node that does not
    have exactly one child. *)
Theorem X_single_child_raises (mm0 mm1 : matrix) (t : Tree) :
  (forall t', calc_mut_likelihoods mm0 mm1 t = Ok t' -> no_unary t = true) /\
  (forall t', update_PL mm0 mm1 t = Ok t' -> List.length (children t) <> 1) /\
  (forall c, children t = [c] ->
             is_ok (calc_mut_likelihoods mm0 mm1 t) = false /\
             is_ok (update_PL mm0 mm1 t) = false).
Proof.
  assert (H1 : forall t', calc_mut_likelihoods mm0 mm1 t = Ok t' -> no_unary t = true).
  { intros t' H. unfold calc_mut_likelihoods in H.
    destruct (attr (PL0 t)) as [P0|e]; [|discriminate H]. cbn [bind] in H.
    apply fill_tree_no_unary in H. now rewrite alloc_PLm_no_unary in H. }
  split; [exact H1|]. split; [exact (update_PL_not_unary mm0 mm1 t)|].
  intros c Hc. split.
  - destruct (calc_mut_likelihoods mm0 mm1 t) as [t'|e] eqn:E; [|reflexivity].
    specialize (H1 t' eq_refl). destruct t as [nm s p q cs]. cbn [children] in Hc. subst cs.
    discriminate H1.
  - destruct (update_PL mm0 mm1 t) as [t'|e] eqn:E; [|reflexivity].
    apply update_PL_not_unary in E. rewrite Hc in E. contradiction E. reflexivity.
Qed.

End UnaryFacts.

(** ** The prepared tree is a fixed point of [update_PL] *)

Section PipelineFacts.
Import Phred Lik Init.
Local Open Scope nat_scope.

Ltac split_bind H :=
  repeat match type of H with
         | bind ?r ?k = Ok ?b =>
           let a := fresh "x" in
           let E := fresh "E" in
           apply bind_Ok in H; destruct H as (a & E & H); cbv beta in H
         end.

Lemma sid_is_same (f : list Z -> list Z) (t t' : Tree) :
  sid t' = sid t -> get_leaf_names t' = get_leaf_names t -> sid_is f t' = sid_is f t.
Proof. intros H1 H2. unfold sid_is. now rewrite H1, H2. Qed.

Lemma same_labels_refl (t : Tree) : same_labels t t.
Proof. repeat split. Qed.

Lemma same_labels_lists (cs cs' : list Tree) :
  Forall2 same_labels cs cs' ->
  flat_map get_leaf_names cs' = flat_map get_leaf_names cs /\
  map len cs' = map len cs /\
  forallb sids_fresh cs' = forallb sids_fresh cs /\ List.length cs' = List.length cs.
Proof.
  induction 1 as [|c c' cs cs' H _ IH]; cbn [flat_map map forallb List.length]; [tauto|].
  destruct H as (H1 & H2 & _ & H4 & _). destruct IH as (I1 & I2 & I3 & I4).
  rewrite H1, H2, H4, I1, I2, I3, I4. tauto.
Qed.

Lemma same_labels_node (nm : string) (s : option (list Z)) (p p' : option matrix)
      (q q' : option tensor) (cs cs' : list Tree) :
  Forall2 same_labels cs cs' ->
  same_labels (TreeNode nm s p q cs) (TreeNode nm s p' q' cs').
Proof.
  intros H. pose proof (same_labels_lists cs cs' H) as (H1 & H2 & H3 & H4).
  assert (Hn : get_leaf_names (TreeNode nm s p' q' cs') = get_leaf_names (TreeNode nm s p q cs)).
  { destruct H as [|c c' cs cs' Hc Hcs]; [reflexivity|].
    rewrite !get_leaf_names_node. exact H1. }
  unfold same_labels. split; [exact Hn|]. split.
  - destruct H as [|c c' cs cs' Hc Hcs]; [reflexivity|]. rewrite !len_node. now rewrite H2.
  - split; [reflexivity|]. split; [|exact H4].
    cbn [sids_fresh]. rewrite H3. f_equal. apply sid_is_same; [reflexivity|exact Hn].
Qed.

Lemma same_labels_trans (a b c : Tree) : same_labels a b -> same_labels b c -> same_labels a c.
Proof.
  intros (A1 & A2 & A3 & A4 & A5) (B1 & B2 & B3 & B4 & B5).
  unfold same_labels. rewrite B1, B2, B3, B4, B5. tauto.
Qed.

Lemma populate_node (m g : nat) (PLs : list matrix) (mm : matrix) (nm : string)
      (s : option (list Z)) (p : option matrix) (q : option tensor) (c : Tree) (cs : list Tree) :
  populate_tree_PL m g PLs mm (TreeNode nm s p q (c :: cs))
  = (cs' <- mapM (populate_tree_PL m g PLs mm) (c :: cs) ;;
     P <- add_children mm cs' (zeros (List.length PLs) g) ;;
     Ok (TreeNode nm s (Some P) q cs'))%py.
Proof. reflexivity. Qed.

Lemma populate_labels (m g : nat) (PLs : list matrix) (mm : matrix) (t : Tree) :
  forall t', populate_tree_PL m g PLs mm t = Ok t' -> same_labels t t' /\ PLm t' = PLm t.
Proof.
  induction t as [nm s p q cs IH] using Tree_ind'. intros t' H.
  destruct cs as [|c cs].
  - cbn [populate_tree_PL] in H. split_bind H. injection H as <-. repeat split.
  - rewrite populate_node in H. split_bind H. injection H as <-.
    split; [|reflexivity]. apply same_labels_node.
    match goal with
    | Hm : mapM _ (c :: cs) = Ok _ |- _ =>
      refine (mapM_Forall2 _ _ _ _ _ Hm)
    end.
    eapply Forall_impl; [|exact IH]. intros a Ha b Hb. exact (proj1 (Ha b Hb)).
Qed.

Lemma alloc_labels (n g : nat) (t : Tree) :
  same_labels t (alloc_PLm n g t) /\ PL0 (alloc_PLm n g t) = PL0 t.
Proof.
  induction t as [nm s p q cs IH] using Tree_ind'.
  destruct cs as [|c cs]; [split; [apply same_labels_refl|reflexivity]|].
  rewrite alloc_PLm_node. split; [|reflexivity]. apply same_labels_node.
  induction IH as [|a l Ha Hl IHl]; cbn [map]; constructor; [exact (proj1 Ha)|exact IHl].
Qed.

Lemma fill_labels (mm0 mm1 : matrix) (t : Tree) :
  forall t', fill_tree mm0 mm1 t = Ok t' -> same_labels t t' /\ PL0 t' = PL0 t.
Proof.
  induction t as [nm s p q cs IH] using Tree_ind'. intros t' H.
  rewrite fill_tree_eq in H.
  destruct (mapM (fill_tree mm0 mm1) cs) as [cs'|e] eqn:E; [|discriminate H].
  cbn [bind] in H.
  assert (HF : Forall2 same_labels cs cs').
  { refine (mapM_Forall2 _ _ _ _ _ E).
    eapply Forall_impl; [|exact IH]. intros a Ha b Hb. exact (proj1 (Ha b Hb)). }
  destruct cs' as [|c' cs'].
  - injection H as <-. inversion HF; subst. split; [apply same_labels_refl|reflexivity].
  - split_bind H. injection H as <-. split; [|reflexivity]. now apply same_labels_node.
Qed.

Lemma fill_PL0s (mm0 mm1 : matrix) (cs : list Tree) :
  forall cs', mapM (fill_tree mm0 mm1) cs = Ok cs' -> map PL0 cs' = map PL0 cs.
Proof.
  induction cs as [|c cs IH]; intros cs' H; cbn [mapM] in H.
  - now injection H as <-.
  - destruct (fill_tree mm0 mm1 c) as [c'|e] eqn:Ec; [|discriminate H]. cbn [bind] in H.
    destruct (mapM (fill_tree mm0 mm1) cs) as [cs1|e] eqn:E; [|discriminate H].
    cbn [bind] in H. injection H as <-. cbn [map].
    rewrite (proj2 (fill_labels mm0 mm1 c c' Ec)), (IH cs1 eq_refl). reflexivity.
Qed.

Lemma add_children_PL0 (mm : matrix) (cs cs' : list Tree) :
  map PL0 cs' = map PL0 cs ->
  forall acc, add_children mm cs' acc = add_children mm cs acc.
Proof.
  revert cs'. induction cs as [|c cs IH]; intros [|c' cs'] H acc; try discriminate H.
  - reflexivity.
  - cbn [map] in H. injection H as Hc Hcs. cbn [add_children]. rewrite Hc.
    destruct (attr (PL0 c)) as [cP|e]; cbn [bind]; [|reflexivity].
    destruct (channel mm cP) as [x|e]; cbn [bind]; [|reflexivity].
    destruct (madd_chk acc x) as [acc'|e]; cbn [bind]; [|reflexivity].
    now apply IH.
Qed.

Lemma add_children_lengths (mm : matrix) (cs : list Tree) :
  forall acc P, add_children mm cs acc = Ok P ->
                map (@List.length R) P = map (@List.length R) acc.
Proof.
  induction cs as [|c cs IH]; intros acc P H; cbn [add_children] in H.
  - now injection H as <-.
  - split_bind H.
    match goal with
    | Hm : madd_chk acc _ = Ok _ |- _ =>
      rewrite (IH _ _ H); exact (madd_chk_lengths _ _ _ Hm)
    end.
Qed.

Lemma refresh_child_fresh (update : Tree -> result Tree) (c : Tree) :
  sids_fresh c = true -> refresh_child update c = Ok c.
Proof.
  intros H. destruct (sids_fresh_not_stale c H) as (_ & s & Hs & Hl).
  unfold refresh_child. rewrite Hl, Hs. cbn [attr bind].
  destruct (list_eq_dec Z.eq_dec s s); [reflexivity|contradiction].
Qed.

Lemma sum_children_fresh (mm : matrix) (update : Tree -> result Tree) (cs : list Tree) :
  forallb sids_fresh cs = true ->
  forall acc P, add_children mm cs acc = Ok P ->
                sum_children mm update cs acc = Ok (cs, P).
Proof.
  induction cs as [|c cs IH]; intros Hf acc P H; cbn [add_children] in H.
  - injection H as <-. reflexivity.
  - cbn [forallb] in Hf. apply andb_true_iff in Hf. destruct Hf as [Hc Hcs].
    cbn [sum_children]. rewrite (refresh_child_fresh update c Hc). cbn [bind].
    destruct (attr (PL0 c)) as [cP|e]; [|discriminate H]. cbn [bind] in *.
    destruct (channel mm cP) as [x|e]; [|discriminate H]. cbn [bind] in *.
    destruct (madd_chk acc x) as [acc'|e]; [|discriminate H]. cbn [bind] in *.
    rewrite (IH Hcs acc' P H). reflexivity.
Qed.

(** A tree all of whose nodes are fresh, whose root has children, and
    whose likelihoods were attached by [populate_tree_PL] and
    [calc_mut_likelihoods], is what [update_PL] would compute. *)
Lemma prepared_fixed (m g : nat) (PLs : list matrix) (mm0 mm1 : matrix) (t1 t2 t3 : Tree) :
  sids_fresh t1 = true -> children t1 <> [] ->
  populate_tree_PL m g PLs mm0 t1 = Ok t2 ->
  calc_mut_likelihoods mm0 mm1 t2 = Ok t3 ->
  update_PL mm0 mm1 t3 = Ok t3.
Proof.
  intros Hfresh Hne Hpop Hcalc.
  destruct t1 as [nm s p q [|c cs]]; [contradiction|].
  pose proof (populate_labels m g PLs mm0 _ _ Hpop) as [Hlab _].
  rewrite populate_node in Hpop.
  destruct (mapM (populate_tree_PL m g PLs mm0) (c :: cs)) as [cs2|e] eqn:Em; [|discriminate Hpop].
  cbn [bind] in Hpop.
  destruct (add_children mm0 cs2 (zeros (List.length PLs) g)) as [P|e] eqn:Ea; [|discriminate Hpop].
  cbn [bind] in Hpop. injection Hpop as <-.
  assert (Hcs2 : exists c2 cs2', cs2 = c2 :: cs2').
  { apply mapM_length in Em. destruct cs2 as [|c2 cs2']; [discriminate Em|eauto]. }
  destruct Hcs2 as (c2 & cs2' & ->).
  unfold calc_mut_likelihoods in Hcalc. cbn [PL0 attr bind] in Hcalc.
  pose proof (fill_labels mm0 mm1 _ _ Hcalc) as [Hlab3 _].
  rewrite alloc_PLm_node, fill_tree_eq in Hcalc.
  destruct (mapM (fill_tree mm0 mm1) (map (alloc_PLm (fst (shape P)) (snd (shape P))) (c2 :: cs2')))
    as [cs3|e] eqn:Ef; [|discriminate Hcalc].
  cbn [bind] in Hcalc.
  assert (Hcs3 : exists c3 cs3', cs3 = c3 :: cs3').
  { apply mapM_length in Ef. rewrite length_map in Ef.
    destruct cs3 as [|c3 cs3']; [discriminate Ef|eauto]. }
  destruct Hcs3 as (c3 & cs3' & ->).
  cbn [attr bind] in Hcalc.
  destruct (fill_PLm mm0 mm1 (c3 :: cs3') 0 (c3 :: cs3') 0 _) as [T|e] eqn:ET; [|discriminate Hcalc].
  cbn [bind] in Hcalc. injection Hcalc as <-.
  (* the children are fresh and carry the likelihoods of the population *)
  assert (HP0 : map PL0 (c3 :: cs3') = map PL0 (c2 :: cs2')).
  { rewrite (fill_PL0s mm0 mm1 _ _ Ef), map_map. apply map_ext.
    intros a. exact (proj2 (alloc_labels _ _ a)). }
  pose proof (same_labels_trans _ _ _ (proj1 (alloc_labels (fst (shape P)) (snd (shape P))
                                                (TreeNode nm s (Some P) q (c2 :: cs2'))))
                                Hlab3) as Hlab23.
  pose proof (same_labels_trans _ _ _ Hlab Hlab23) as Hlab13.
  destruct Hlab13 as (_ & Hlen13 & _ & Hfr13 & _).
  destruct Hlab23 as (_ & Hlen23 & _).
  rewrite Hfresh in Hfr13. cbn [sids_fresh] in Hfr13.
  apply andb_true_iff in Hfr13. destruct Hfr13 as [_ Hfr3].
  pose proof (add_children_lengths mm0 _ _ _ Ea) as HlenP.
  rewrite zeros_lengths in HlenP.
  pose proof (zeros_of_shape _ _ _ HlenP) as Hz.
  assert (Hsum : sum_children mm0 (update_PL mm0 mm1) (c3 :: cs3')
                              (zeros (fst (shape P)) (snd (shape P)))
                 = Ok (c3 :: cs3', P)).
  { apply sum_children_fresh; [exact Hfr3|].
    rewrite Hz, (add_children_PL0 mm0 _ _ HP0). exact Ea. }
  cbn [update_PL attr bind]. rewrite Hsum. cbn [bind fst snd].
  rewrite Hlen23 in *. rewrite ET. reflexivity.
Qed.

(** X13.  The tree that [neighbor_main] hands to the search is consistent
    with the search's own bookkeeping: when [init_tree],
    [populate_tree_PL] and [calc_mut_likelihoods] have returned on a
    tree whose root has children, [update_PL] at the root returns and
    changes nothing. *)
Theorem X_prepared_tree_fixed_point (m g : nat) (PLs : list matrix) (mm0 mm1 : matrix)
        (t0 t1 t2 t3 : Tree) :
  children t0 <> [] ->
  init_tree t0 = Ok t1 ->
  populate_tree_PL m g PLs mm0 t1 = Ok t2 ->
  calc_mut_likelihoods mm0 mm1 t2 = Ok t3 ->
  update_PL mm0 mm1 t3 = Ok t3.
Proof.
  intros Hne Hinit Hpop Hcalc.
  assert (Hn : no_unary t0 = true).
  { destruct (init_tree_frame t0 t1 Hinit) as (_ & _ & _ & <- & _).
    rewrite <- (populate_no_unary m g PLs mm0 t1 t2 Hpop).
    unfold calc_mut_likelihoods in Hcalc.
    destruct (attr (PL0 t2)) as [P0|e]; [|discriminate Hcalc]. cbn [bind] in Hcalc.
    apply fill_tree_no_unary in Hcalc. now rewrite alloc_PLm_no_unary in Hcalc. }
  destruct (mapM int (get_leaf_names t0)) as [zs|e] eqn:Ez.
  - destruct (init_tree_ok t0 zs Hn Ez) as (t' & E & Hfresh & _ & _ & Hch).
    rewrite Hinit in E. injection E as <-.
    apply (prepared_fixed m g PLs mm0 mm1 t1 t2 t3 Hfresh); [|exact Hpop|exact Hcalc].
    intros Hnil. rewrite Hnil in Hch. destruct (children t0); [contradiction|discriminate Hch].
  - unfold init_tree in Hinit. rewrite Ez in Hinit. discriminate Hinit.
Qed.

Lemma X_prepared_tree_fixed_point_witness :
  exists t1 t2 t3,
    init_tree nj_tree3 = Ok t1 /\
    populate_tree_PL 3 3 PLs3 mm0_ex t1 = Ok t2 /\
    calc_mut_likelihoods mm0_ex mm1_ex t2 = Ok t3 /\
    update_PL mm0_ex mm1_ex t3 = Ok t3.
Proof.
  do 3 eexists. split; [reflexivity|]. split; [reflexivity|]. split; [reflexivity|].
  eapply (X_prepared_tree_fixed_point 3 3 PLs3 mm0_ex mm1_ex nj_tree3);
    [discriminate|reflexivity|reflexivity|reflexivity].
Defined.

End PipelineFacts.

(** ** The neighbor-joining tree is fit for [init_tree] *)

Section HandoverFacts.
Import Phred Lik Init Handover.
Local Open Scope nat_scope.

Lemma NJ_Tree_ind' (P : NJ.Tree -> Prop) :
  (forall nm d cs, Forall P cs -> P (NJ.Node nm d cs)) -> forall t, P t.
Proof.
  intros H. fix IH 1. intros [nm d cs]. apply H.
  induction cs as [|c cs IHcs]; constructor; [apply IH|exact IHcs].
Qed.

Lemma of_nj_names (t : NJ.Tree) : get_leaf_names (of_nj t) = NJNames.get_leaf_names t.
Proof.
  induction t as [nm d cs IH] using NJ_Tree_ind'.
  destruct cs as [|c cs]; [reflexivity|].
  change (flat_map get_leaf_names (map of_nj (c :: cs))
          = flat_map NJNames.get_leaf_names (c :: cs)).
  induction IH as [|a l Ha _ IHl]; [reflexivity|].
  cbn [map flat_map]. now rewrite Ha, IHl.
Qed.

Lemma of_nj_no_unary (t : NJ.Tree) : NJ.is_binary t = true -> no_unary (of_nj t) = true.
Proof.
  induction t as [nm d cs IH] using NJ_Tree_ind'. intros H.
  cbn [NJ.is_binary] in H. apply andb_true_iff in H. destruct H as [H2 Hcs].
  cbn [of_nj no_unary]. rewrite length_map. apply andb_true_iff. split.
  - destruct cs as [|a [|b [|c l]]]; try reflexivity; discriminate H2.
  - clear H2. induction IH as [|a l Ha _ IHl]; [reflexivity|].
    cbn [forallb] in Hcs. apply andb_true_iff in Hcs. destruct Hcs as [H1 H3].
    cbn [map forallb]. now rewrite (Ha H1), (IHl H3).
Qed.

(** *** Numerals *)

Lemma of_lu_nat_N (d : Decimal.uint) :
  DecimalPos.Unsigned.of_lu d = N.of_nat (DecimalNat.Unsigned.of_lu d).
Proof.
  induction d; cbn [DecimalPos.Unsigned.of_lu DecimalNat.Unsigned.of_lu];
    try rewrite IHd; lia.
Qed.

Lemma Z_of_to_uint (n : nat) : Z.of_uint (Nat.to_uint n) = Z.of_nat n.
Proof.
  unfold Z.of_uint. rewrite DecimalPos.Unsigned.of_uint_alt, of_lu_nat_N.
  rewrite <- DecimalNat.Unsigned.of_uint_alt, DecimalNat.Unsigned.of_to.
  apply nat_N_Z.
Qed.

Lemma uint_of_string_of_uint (d : Decimal.uint) :
  d <> Decimal.Nil -> NilZero.uint_of_string (NilEmpty.string_of_uint d) = Some d.
Proof.
  intros Hd. pose proof (NilEmpty.usu d) as H.
  destruct d; [contradiction|..];
    cbn [NilEmpty.string_of_uint] in H |- *; unfold NilZero.uint_of_string; exact H.
Qed.

Lemma string_of_uint_digits (d : Decimal.uint) :
  Forall (fun c => digit c = true) (list_ascii_of_string (NilEmpty.string_of_uint d)).
Proof.
  induction d; cbn [NilEmpty.string_of_uint list_ascii_of_string]; constructor;
    try reflexivity; assumption.
Qed.

Lemma lstrip_digits (l : list ascii) :
  Forall (fun c => digit c = true) l -> lstrip l = l.
Proof.
  intros H. destruct H as [|c l Hc _]; [reflexivity|]. cbn [lstrip].
  unfold digit in Hc. apply andb_true_iff in Hc. destruct Hc as [Hc _].
  apply andb_true_iff in Hc. destruct Hc as [_ Hc]. apply negb_true_iff in Hc.
  now rewrite Hc.
Qed.

Lemma strip_digits (l : list ascii) :
  Forall (fun c => digit c = true) l -> strip l = l.
Proof.
  intros H. unfold strip. rewrite (lstrip_digits l H).
  rewrite lstrip_digits; [apply rev_involutive|].
  apply Forall_forall. intros c Hc. apply in_rev in Hc.
  rewrite Forall_forall in H. now apply H.
Qed.

Lemma int_str (n : nat) : int (NJ.str n) = Ok (Z.of_nat n).
Proof.
  unfold int, NJ.str.
  assert (Hd : Nat.to_uint n <> Decimal.Nil).
  { rewrite <- (DecimalNat.Unsigned.of_to n) at 1.
    rewrite DecimalNat.Unsigned.to_of. apply DecimalFacts.unorm_nonnil. }
  pose proof (string_of_uint_digits (Nat.to_uint n)) as Hdig.
  pose proof (uint_of_string_of_uint (Nat.to_uint n) Hd) as Hu.
  set (s := NilEmpty.string_of_uint (Nat.to_uint n)) in *.
  assert (Hm : forallb modelled (list_ascii_of_string s) = true).
  { apply forallb_forall. intros c Hc. rewrite Forall_forall in Hdig.
    specialize (Hdig c Hc). unfold digit in Hdig.
    apply andb_true_iff in Hdig. destruct Hdig as [Hdig _].
    apply andb_true_iff in Hdig. tauto. }
  rewrite Hm. cbn [negb]. rewrite (strip_digits _ Hdig).
  destruct (list_ascii_of_string s) as [|c r] eqn:El.
  - exfalso. assert (Hs : s = EmptyString).
    { rewrite <- (string_of_list_ascii_of_string s), El. reflexivity. }
    rewrite Hs in Hu. discriminate Hu.
  - cbv zeta.
    assert (Hc : Ascii.eqb c "-" || Ascii.eqb c "+" = false).
    { apply Forall_cons_iff in Hdig. destruct Hdig as [Hc _]. unfold digit in Hc.
      apply andb_true_iff in Hc. destruct Hc as [_ Hc]. now apply negb_true_iff in Hc. }
    rewrite Hc. cbn [andb].
    assert (Hminus : Ascii.eqb c "-" = false).
    { apply orb_false_iff in Hc. tauto. }
    rewrite Hminus. unfold digits. rewrite <- El, string_of_list_ascii_of_string, Hu.
    now rewrite Z_of_to_uint.
Qed.

Lemma mapM_int_numerals (names : list string) :
  Forall (fun nm => exists n, nm = NJ.str n) names ->
  mapM int names = Ok (map number_of names).
Proof.
  induction 1 as [|nm l [n ->] _ IH]; [reflexivity|].
  cbn [mapM map]. unfold number_of at 1. rewrite int_str, IH. reflexivity.
Qed.

(** *** Sorting *)

Lemma insert_perm (z : Z) (l : list Z) : Permutation (insert z l) (z :: l).
Proof.
  induction l as [|y l IH]; cbn [insert]; [reflexivity|].
  destruct (Z.leb z y); [reflexivity|]. rewrite IH. apply perm_swap.
Qed.

Lemma sorted_perm (l : list Z) : Permutation (sorted l) l.
Proof.
  unfold sorted. induction l as [|a l IH]; cbn [fold_right]; [reflexivity|].
  rewrite insert_perm. now constructor.
Qed.

Lemma insert_sorted (z : Z) (l : list Z) :
  StronglySorted Z.le l -> StronglySorted Z.le (insert z l).
Proof.
  induction 1 as [|y l Hl IH Hy]; cbn [insert].
  - repeat constructor.
  - destruct (Z.leb z y) eqn:E.
    + apply Z.leb_le in E. constructor; [now constructor|].
      constructor; [exact E|]. eapply Forall_impl; [|exact Hy]. intros a Ha. cbn in Ha. lia.
    + apply Z.leb_gt in E. constructor; [exact IH|].
      apply (Permutation_Forall (Permutation_sym (insert_perm z l))).
      constructor; [lia|exact Hy].
Qed.

Lemma sorted_sorted (l : list Z) : StronglySorted Z.le (sorted l).
Proof.
  unfold sorted. induction l as [|a l IH]; cbn [fold_right]; [constructor|].
  now apply insert_sorted.
Qed.

Lemma sorted_unique (l1 : list Z) :
  forall l2, StronglySorted Z.le l1 -> StronglySorted Z.le l2 -> Permutation l1 l2 -> l1 = l2.
Proof.
  induction l1 as [|a l1 IH]; intros l2 H1 H2 Hp.
  - apply Permutation_nil in Hp. now subst.
  - destruct l2 as [|b l2]; [apply Permutation_sym, Permutation_nil in Hp; discriminate Hp|].
    inversion H1 as [|? ? S1 F1]; subst. inversion H2 as [|? ? S2 F2]; subst.
    assert (Hab : a = b).
    { assert (Ha : In a (b :: l2)) by (apply (Permutation_in _ Hp); now left).
      assert (Hb : In b (a :: l1)) by (apply (Permutation_in _ (Permutation_sym Hp)); now left).
      rewrite Forall_forall in F1, F2.
      destruct Ha as [->|Ha]; [reflexivity|]. destruct Hb as [->|Hb]; [reflexivity|].
      specialize (F1 _ Hb). specialize (F2 _ Ha). cbn in *. lia. }
    subst b. f_equal. apply IH; [exact S1|exact S2|].
    exact (Permutation_cons_inv Hp).
Qed.

Lemma seq_sorted (m s : nat) : StronglySorted Z.le (map Z.of_nat (seq s m)).
Proof.
  revert s. induction m as [|m IH]; intros s; cbn [seq map]; constructor; [apply IH|].
  apply Forall_forall. intros z Hz. apply in_map_iff in Hz. destruct Hz as (k & <- & Hk).
  apply in_seq in Hk. lia.
Qed.

(** The tree that [neighbor_joining] returns for [m] samples. *)
Lemma neighbor_joining_tree (m : nat) (D : NJ.qmatrix) :
  2 <= m -> NJ.square (2 * m - 2) D ->
  exists t, NJ.neighbor_joining D (NJ.init_star_tree m) (NJ.arange m) = Ok t /\
            NJ.is_binary t = true /\ NJ.children t <> [] /\
            Permutation (NJNames.get_leaf_names t) (map NJ.str (seq 0 m)).
Proof.
  intros Hm HD. unfold NJ.neighbor_joining.
  assert (Hinv : NJ.nj_inv m (NJ.mkState D (NJ.init_star_tree m) (NJ.arange m)))
    by (apply init_inv; [lia|exact HD]).
  destruct (nj_loop_names m (List.length (NJ.arange m)) _ Hinv (init_names m D))
    as (s & Hloop & [Hleaf _] & Hlen).
  { cbn [NJ.st_internals]. lia. }
  rewrite Hloop. cbn [bind]. exists (NJ.st_tree s). split; [reflexivity|].
  destruct (nj_loop_inv m (List.length (NJ.arange m)) _ Hinv) as (s2 & Hloop2 & Hs & _).
  { cbn [NJ.st_internals]. lia. }
  rewrite Hloop in Hloop2. injection Hloop2 as <-.
  destruct s as [D' [rn rd cs] ints].
  unfold NJ.nj_inv in Hs. cbn [NJ.st_D NJ.st_tree NJ.st_internals NJ.children NJ.name] in *.
  destruct Hs as (_ & _ & _ & Hnames & _ & _ & Hbin & _).
  assert (Hcs : List.length cs = 2).
  { rewrite <- (length_map NJ.name cs), Hnames, length_map. exact Hlen. }
  destruct cs as [|c1 [|c2 [|c3 cs]]]; cbn [List.length] in Hcs; try lia.
  split; [cbn [NJ.is_binary]; rewrite Hbin; reflexivity|].
  split; [discriminate|exact Hleaf].
Qed.

(** X19.  [init_tree] accepts what [neighbor_joining] returns: for [m >= 2]
    samples and the (2m-2)-square array the program allocates,
    neighbor joining returns a tree and [init_tree] returns on that tree, every node then
    carries the ascending numbers of its leaves, and the root carries
    [0, 1, ..., m-1]: every sample once. *)
Theorem X_neighbor_joining_tree_initialises (m : nat) (D : NJ.qmatrix) :
  2 <= m -> NJ.square (2 * m - 2) D ->
  exists t t',
    NJ.neighbor_joining D (NJ.init_star_tree m) (NJ.arange m) = Ok t /\
    init_tree (of_nj t) = Ok t' /\
    sids_fresh t' = true /\
    sid t' = Some (map Z.of_nat (seq 0 m)) /\
    children t' <> [].
Proof.
  intros Hm HD.
  destruct (neighbor_joining_tree m D Hm HD) as (t & Hnj & Hbin & Hne & Hperm).
  rewrite <- of_nj_names in Hperm.
  assert (Hnum : Forall (fun nm => exists n, nm = NJ.str n) (get_leaf_names (of_nj t))).
  { apply (Permutation_Forall (Permutation_sym Hperm)).
    apply Forall_forall. intros nm Hin. apply in_map_iff in Hin.
    destruct Hin as (n & <- & _). eauto. }
  pose proof (mapM_int_numerals _ Hnum) as Hint.
  destruct (init_tree_ok (of_nj t) _ (of_nj_no_unary t Hbin) Hint)
    as (t' & Hinit & Hfresh & Hsid & _ & Hch).
  exists t, t'. split; [exact Hnj|]. split; [exact Hinit|]. split; [exact Hfresh|]. split.
  - rewrite Hsid. f_equal. apply sorted_unique.
    + apply sorted_sorted.
    + apply seq_sorted.
    + rewrite sorted_perm, (Permutation_map number_of Hperm), map_map.
      apply Permutation_refl'. apply map_ext. intros n. unfold number_of. now rewrite int_str.
  - intros Hnil. rewrite Hnil in Hch. destruct t as [nm d cs]. cbn [of_nj children] in Hch.
    rewrite length_map in Hch. cbn [NJ.children] in Hne.
    destruct cs; [contradiction|discriminate Hch].
Qed.

Lemma X_neighbor_joining_tree_initialises_witness :
  exists t t',
    NJ.neighbor_joining NJ.D3 (NJ.init_star_tree 3) (NJ.arange 3) = Ok t /\
    init_tree (of_nj t) = Ok t' /\
    sids_fresh t' = true /\
    sid t' = Some [0%Z; 1%Z; 2%Z] /\
    children t' <> [].
Proof.
  apply (X_neighbor_joining_tree_initialises 3 NJ.D3); [lia|exact D3_square].
Defined.

End HandoverFacts.

(** ** What [reroot] returns *)

Section RerootFacts.
Import Phred Lik Search Rerootings.
Local Open Scope nat_scope.

Lemma index_perm {A : Type} (l : list A) (k : nat) (x : A) :
  index l k = Ok x -> Permutation l (x :: remove_nth k l).
Proof.
  unfold index. revert k. induction l as [|a l IH]; intros [|k] H; cbn [nth_error] in H;
    try discriminate H.
  - injection H as <-. reflexivity.
  - cbn [remove_nth]. rewrite perm_swap. constructor. now apply IH.
Qed.

Lemma index_nonempty {A : Type} (l : list A) (k : nat) (x : A) : index l k = Ok x -> l <> [].
Proof. intros H ->. destruct k; discriminate H. Qed.

Lemma names_with_children (t : Tree) (cs : list Tree) :
  cs <> [] -> get_leaf_names (with_children t cs) = flat_map get_leaf_names cs.
Proof. destruct cs as [|c cs]; [contradiction|reflexivity]. Qed.

Lemma names_of_children (t : Tree) :
  children t <> [] -> get_leaf_names t = flat_map get_leaf_names (children t).
Proof. destruct t as [nm s p q [|c cs]]; [contradiction|reflexivity]. Qed.

Lemma names_split (v : Tree) (k : nat) (x : Tree) :
  index (children v) k = Ok x ->
  Permutation (get_leaf_names v)
              (get_leaf_names x ++ flat_map get_leaf_names (remove_nth k (children v))).
Proof.
  intros H. rewrite (names_of_children v (index_nonempty _ _ _ H)).
  exact (flat_map_perm get_leaf_names _ _ (index_perm _ _ _ H)).
Qed.

Lemma names_hung (v : Tree) (k : nat) (extra : Tree) :
  get_leaf_names (with_children v (remove_nth k (children v) ++ [extra]))
  = flat_map get_leaf_names (remove_nth k (children v)) ++ get_leaf_names extra.
Proof.
  rewrite names_with_children by (intros H; apply app_eq_nil in H; destruct H; discriminate).
  rewrite flat_map_app. cbn [flat_map]. now rewrite app_nil_r.
Qed.

Lemma hang_cons2 (v : Tree) (k k' : nat) (p : path) (extra : Tree) :
  hang v (k :: k' :: p) extra
  = (c <- index (children v) k ;;
     hang c (k' :: p) (with_children v (remove_nth k (children v) ++ [extra])))%py.
Proof. reflexivity. Qed.

Lemma hang_leaves (p : path) :
  forall v extra r, hang v p extra = Ok r ->
    Permutation (get_leaf_names (fst r) ++ get_leaf_names (snd r))
                (get_leaf_names v ++ get_leaf_names extra).
Proof.
  induction p as [|k p IH]; intros v extra r H; [discriminate H|].
  destruct p as [|k' p'].
  - cbn [hang] in H. destruct (index (children v) k) as [x|e] eqn:E; [|discriminate H].
    cbn [bind] in H. injection H as <-. cbn [fst snd].
    rewrite names_hung, app_assoc. apply Permutation_app_tail.
    symmetry. exact (names_split v k x E).
  - rewrite hang_cons2 in H. destruct (index (children v) k) as [c|e] eqn:E; [|discriminate H].
    cbn [bind] in H. apply IH in H. rewrite H, names_hung, app_assoc.
    apply Permutation_app_tail. symmetry. exact (names_split v k c E).
Qed.

Lemma set_outgroup_leaves (t : Tree) (p : path) (t' : Tree) :
  List.length (children t) <> 1 -> set_outgroup t p = Ok t' ->
  Permutation (get_leaf_names t') (get_leaf_names t).
Proof.
  intros Hlen H. destruct p as [|k p']; [discriminate H|].
  cbn [set_outgroup] in H.
  destruct (index (children t) k) as [n|e] eqn:E; [|discriminate H]. cbn [bind] in H.
  pose proof (names_split t k n E) as Hsplit.
  assert (Hothers : remove_nth k (children t) <> []).
  { intros Hnil. apply (f_equal (@List.length Tree)) in Hnil.
    rewrite remove_nth_length in Hnil.
    - cbn [List.length] in Hnil. pose proof (index_nonempty _ _ _ E) as Hne.
      destruct (children t) as [|a [|b l]]; cbn [List.length] in *; try lia; contradiction.
    - unfold index in E. destruct (nth_error (children t) k) eqn:En; [|discriminate E].
      apply nth_error_Some. now rewrite En. }
  set (others := remove_nth k (children t)) in *.
  set (connector := match others with [c] => c | _ => fresh_node others end) in *.
  assert (Hconn : get_leaf_names connector = flat_map get_leaf_names others).
  { unfold connector. destruct others as [|c [|c' o]]; [contradiction| |reflexivity].
    cbn [flat_map]. now rewrite app_nil_r. }
  destruct p' as [|k' p''].
  - injection H as <-. rewrite names_with_children by discriminate.
    cbn [flat_map]. rewrite app_nil_r, Hconn. symmetry. exact Hsplit.
  - destruct (hang n (k' :: p'') connector) as [r|e] eqn:Eh; [|discriminate H].
    cbn [bind] in H. injection H as <-. rewrite names_with_children by discriminate.
    cbn [flat_map]. rewrite app_nil_r, (hang_leaves _ _ _ _ Eh), Hconn.
    symmetry. exact Hsplit.
Qed.

Lemma candidate_spec (tree : Tree) (mm0 mm1 : matrix) (bp : vector) (node : Tree)
      (c : Tree * R) :
  candidate tree mm0 mm1 bp node = Ok c ->
  score (fst c) bp = Ok (snd c) /\
  (List.length (children tree) <> 1 ->
   Permutation (get_leaf_names (fst c)) (get_leaf_names tree)).
Proof.
  unfold candidate. intros H.
  destruct (attr (sid node)) as [s|e]; [|discriminate H]. cbn [bind] in H.
  destruct (search_sid tree s) as [p|e]; [|discriminate H]. cbn [bind] in H.
  destruct (set_outgroup tree p) as [t1|e] eqn:E1; [|discriminate H]. cbn [bind] in H.
  destruct (update_PL mm0 mm1 t1) as [t2|e] eqn:E2; [|discriminate H]. cbn [bind] in H.
  destruct (score t2 bp) as [pl|e] eqn:E3; [|discriminate H]. cbn [bind] in H.
  injection H as <-. cbn [fst snd]. split; [exact E3|].
  intros Hlen. destruct (update_PL_skeleton mm0 mm1 t1 t2 E2) as (_ & Hn & _).
  rewrite Hn. exact (set_outgroup_leaves tree p t1 Hlen E1).
Qed.

Lemma reroot_loop_cases (tree : Tree) (mm0 mm1 : matrix) (bp : vector) (DELTA : R)
      (nodes : list Tree) :
  forall best r,
    reroot_loop tree mm0 mm1 bp DELTA nodes best = Ok r ->
    r = best \/
    (snd r = 1%Z /\
     In (fst r) (flat_map (fun node => match candidate tree mm0 mm1 bp node with
                                       | Ok c => [c]
                                       | Raise _ => []
                                       end) nodes)).
Proof.
  induction nodes as [|node rest IH]; intros best r H; cbn [reroot_loop] in H.
  - injection H as <-. now left.
  - destruct (candidate tree mm0 mm1 bp node) as [c|e] eqn:Ec; [|discriminate H].
    cbn [bind] in H. cbn [flat_map]. rewrite Ec.
    destruct (IH _ _ H) as [->|[Hflag Hin]].
    + unfold accept. destruct (Rlt_dec _ _); [|now left].
      right. destruct c as [ct cp]. cbn [fst snd]. split; [reflexivity|]. now left.
    + right. split; [exact Hflag|]. apply in_or_app. now right.
Qed.

Lemma reroot_loop_margin (tree : Tree) (mm0 mm1 : matrix) (bp : vector) (DELTA : R)
      (nodes : list Tree) :
  (0 <= DELTA <= 1)%R ->
  (forall c, In c (flat_map (fun node => match candidate tree mm0 mm1 bp node with
                                         | Ok c => [c]
                                         | Raise _ => []
                                         end) nodes) -> (0 <= DELTA * snd c)%R) ->
  forall best r,
    (0 <= DELTA * snd (fst best))%R ->
    reroot_loop tree mm0 mm1 bp DELTA nodes best = Ok r ->
    (0 <= DELTA * snd (fst r))%R /\
    (snd (fst r) <= snd (fst best))%R /\
    (r = best \/ (snd r = 1%Z /\ snd (fst r) < snd (fst best) * (1 - DELTA))%R) /\
    (forall c, In c (flat_map (fun node => match candidate tree mm0 mm1 bp node with
                                           | Ok c => [c]
                                           | Raise _ => []
                                           end) nodes) ->
               (snd (fst r) * (1 - DELTA) <= snd c)%R).
Proof.
  intros HD. induction nodes as [|node rest IH]; intros Hc best r Hb H; cbn [reroot_loop] in H.
  - injection H as <-. split; [exact Hb|]. split; [apply Rle_refl|]. split; [now left|].
    intros c [].
  - destruct (candidate tree mm0 mm1 bp node) as [c|e] eqn:Ec; [|discriminate H].
    cbn [bind] in H. cbn [flat_map] in Hc |- *. rewrite Ec in Hc |- *.
    assert (Hc0 : (0 <= DELTA * snd c)%R) by (apply Hc; now left).
    assert (Hrest : forall c', In c' (flat_map (fun node => match candidate tree mm0 mm1 bp node with
                                                         | Ok c => [c]
                                                         | Raise _ => []
                                                         end) rest) -> (0 <= DELTA * snd c')%R)
      by (intros c' Hin; apply Hc; apply in_or_app; now right).
    unfold accept in H.
    destruct (Rlt_dec (snd c) (snd (fst best) * (1 - DELTA))) as [Hlt|Hge].
    + destruct (IH Hrest (fst c, snd c, 1%Z) r Hc0 H) as (I0 & I1 & I2 & I3).
      cbn [fst snd] in *.
      split; [exact I0|]. split; [nra|]. split.
      * right. destruct I2 as [->|[Hf I2]]; cbn [fst snd]; [split; [reflexivity|lra]|].
        split; [exact Hf|nra].
      * intros c' [<-|Hin]; [nra|now apply I3].
    + destruct (IH Hrest _ _ Hb H) as (I0 & I1 & I2 & I3).
      split; [exact I0|]. split; [exact I1|]. split; [exact I2|].
      intros c' [<-|Hin]; [|now apply I3].
      apply Rnot_lt_le in Hge. nra.
Qed.

Lemma reroot_unfold (tree : Tree) (mm0 mm1 : matrix) (bp : vector) (DELTA : R) (v : pyval) :
  reroot [VTree tree; VArray mm0; VArray mm1; VVector bp; VFloat DELTA] = Ok v ->
  exists pl0 r,
    score tree bp = Ok pl0 /\
    reroot_loop tree mm0 mm1 bp DELTA (descendants tree) (tree, pl0, 0%Z) = Ok r /\
    v = VTuple [VTree (fst (fst r)); VFloat (snd (fst r)); VInt (snd r)].
Proof.
  cbn [reroot]. unfold reroot_body, descendants. intros H.
  destruct (score tree bp) as [pl0|e]; [|discriminate H]. cbn [bind] in H.
  destruct (mapM (subtree tree) (iter_descendants tree)) as [nodes|e]; [|discriminate H].
  cbn [bind] in H.
  destruct (reroot_loop tree mm0 mm1 bp DELTA nodes (tree, pl0, 0%Z)) as [r|e] eqn:E;
    [|discriminate H].
  cbn [bind] in H. injection H as <-. exists pl0, r. auto.
Qed.

(** X14.  When [reroot] returns, it returns a tree, the score of that very
    tree, and a flag: with flag 0 the tree it was given, with flag 1
    one of the rerootings of that tree.  If the root does not have a
    single child, the tree returned has the leaves of the tree given. *)
Theorem X_reroot_result (tree : Tree) (mm0 mm1 : matrix) (bp : vector) (DELTA : R)
        (v : pyval) :
  reroot [VTree tree; VArray mm0; VArray mm1; VVector bp; VFloat DELTA] = Ok v ->
  exists t' pl flag,
    v = VTuple [VTree t'; VFloat pl; VInt flag] /\
    score t' bp = Ok pl /\
    ((flag = 0%Z /\ t' = tree) \/ (flag = 1%Z /\ In (t', pl) (rerootings tree mm0 mm1 bp))) /\
    (List.length (children tree) <> 1 ->
     Permutation (get_leaf_names t') (get_leaf_names tree)).
Proof.
  intros H. destruct (reroot_unfold _ _ _ _ _ _ H) as (pl0 & r & Hs & Hloop & ->).
  exists (fst (fst r)), (snd (fst r)), (snd r). split; [reflexivity|].
  destruct (reroot_loop_cases _ _ _ _ _ _ _ _ Hloop) as [->|[Hflag Hin]].
  - cbn [fst snd]. split; [exact Hs|]. split; [now left|]. reflexivity.
  - fold (rerootings tree mm0 mm1 bp) in Hin.
    assert (Hc : exists node, candidate tree mm0 mm1 bp node = Ok (fst r)).
    { unfold rerootings in Hin. apply in_flat_map in Hin. destruct Hin as (node & _ & Hin).
      exists node. destruct (candidate tree mm0 mm1 bp node) as [c|e]; [|destruct Hin].
      destruct Hin as [->|[]]. reflexivity. }
    destruct Hc as (node & Hc). destruct (candidate_spec _ _ _ _ _ _ Hc) as [Hsc Hperm].
    split; [exact Hsc|]. split; [|exact Hperm].
    right. split; [exact Hflag|]. now destruct (fst r).
Qed.

Lemma X_reroot_result_witness :
  exists v t' pl flag,
    reroot [VTree (populated cherry); VArray mm0_ex; VArray mm1_ex; VVector bp_ex; VFloat 0]
    = Ok v /\
    v = VTuple [VTree t'; VFloat pl; VInt flag] /\ score t' bp_ex = Ok pl.
Proof.
  destruct (reroot_ok (populated cherry) mm0_ex mm1_ex bp_ex 0 cherry_reroot_runs) as [v Hv].
  destruct (X_reroot_result (populated cherry) mm0_ex mm1_ex bp_ex 0 v Hv)
    as (t' & pl & flag & H1 & H2 & _).
  exists v, t', pl, flag. auto.
Defined.

(** X15.  [reroot] moves only for a gain beyond the margin [DELTA], and
    overlooks none: for [0 <= DELTA <= 1] and scores that are not
    negative (or any scores when [DELTA] is 0), the score returned is
    at most the score of the tree given, below it by more than the
    margin when the flag is 1 and equal to it when the flag is 0, and
    no rerooting scores below the score returned by more than the
    margin.  With [DELTA = 0] the score returned is the least of
    all. *)
Theorem X_reroot_margin (tree : Tree) (mm0 mm1 : matrix) (bp : vector) (DELTA : R)
        (t' : Tree) (pl : R) (flag : Z) :
  (0 <= DELTA <= 1)%R ->
  (forall pl0, score tree bp = Ok pl0 -> 0 <= DELTA * pl0)%R ->
  (forall c, In c (rerootings tree mm0 mm1 bp) -> 0 <= DELTA * snd c)%R ->
  reroot [VTree tree; VArray mm0; VArray mm1; VVector bp; VFloat DELTA]
  = Ok (VTuple [VTree t'; VFloat pl; VInt flag]) ->
  exists pl0,
    score tree bp = Ok pl0 /\ (pl <= pl0)%R /\
    (flag = 0%Z -> pl = pl0) /\
    (flag = 1%Z -> pl < pl0 * (1 - DELTA))%R /\
    (forall c, In c (rerootings tree mm0 mm1 bp) -> pl * (1 - DELTA) <= snd c)%R.
Proof.
  intros HD H0 Hc H. destruct (reroot_unfold _ _ _ _ _ _ H) as (pl0 & r & Hs & Hloop & Hv).
  injection Hv as -> -> ->. exists pl0. split; [exact Hs|].
  destruct (reroot_loop_margin tree mm0 mm1 bp DELTA (descendants tree) HD Hc
                               (tree, pl0, 0%Z) r (H0 pl0 Hs) Hloop)
    as (_ & I1 & I2 & I3).
  cbn [fst snd] in *. split; [exact I1|]. split; [|split; [|exact I3]].
  - intros Hf. destruct I2 as [->|[Hf1 _]]; [reflexivity|]. rewrite Hf in Hf1. discriminate Hf1.
  - intros Hf. destruct I2 as [->|[_ Hlt]]; [discriminate Hf|exact Hlt].
Qed.

Lemma X_reroot_margin_witness :
  exists t' pl flag pl0,
    reroot [VTree (populated cherry); VArray mm0_ex; VArray mm1_ex; VVector bp_ex; VFloat 0]
    = Ok (VTuple [VTree t'; VFloat pl; VInt flag]) /\
    score (populated cherry) bp_ex = Ok pl0 /\ (pl <= pl0)%R /\
    (forall c, In c (rerootings (populated cherry) mm0_ex mm1_ex bp_ex) -> pl * (1 - 0) <= snd c)%R.
Proof.
  destruct (reroot_ok (populated cherry) mm0_ex mm1_ex bp_ex 0 cherry_reroot_runs) as [v Hv].
  destruct (reroot_unfold _ _ _ _ _ _ Hv) as (q0 & r & _ & _ & Hshape).
  rewrite Hshape in Hv.
  destruct (X_reroot_margin (populated cherry) mm0_ex mm1_ex bp_ex 0 _ _ _
              ltac:(lra)
              ltac:(intros; rewrite Rmult_0_l; apply Rle_refl)
              ltac:(intros; rewrite Rmult_0_l; apply Rle_refl)
              Hv)
    as (pl0 & H1 & H2 & _ & _ & H5).
  exists (fst (fst r)), (snd (fst r)), (snd r), pl0. auto.
Defined.

End RerootFacts.

(** ** Where the search procedures return at all *)

Section SearchReturns.
Import Phred Lik Search.
Local Open Scope nat_scope.

Lemma nni_ok_cherry (mm0 mm1 : matrix) (bp : vector) (DELTA : R) (node : Tree) (v : pyval) :
  nearest_neighbor_interchange mm0 mm1 bp DELTA node = Ok v ->
  exists c1 c2, children node = [c1; c2] /\ is_leaf c1 = true /\ is_leaf c2 = true.
Proof.
  unfold nearest_neighbor_interchange, two_children. intros H.
  destruct (children node) as [|c1 [|c2 [|c3 cs]]]; try discriminate H.
  cbn [bind fst snd] in H. exists c1, c2.
  destruct (is_leaf c1) eqn:E1, (is_leaf c2) eqn:E2; cbn [andb orb] in H; auto;
    discriminate H.
Qed.

Lemma nni_sweep_app (mm0 mm1 : matrix) (bp : vector) (DELTA : R) (l1 l2 : list path) :
  forall moved tree n PL r,
    nni_sweep mm0 mm1 bp DELTA (l1 ++ l2) moved tree n PL = Ok r ->
    nni_sweep mm0 mm1 bp DELTA l2 moved tree n PL = Ok r.
Proof.
  induction l1 as [|q l1 IH]; intros moved tree n PL r H; [exact H|].
  change ((q :: l1) ++ l2) with (q :: (l1 ++ l2)) in H. cbn [nni_sweep] in H.
  destruct (subtree tree (position moved q)) as [node|e]; [|discriminate H].
  cbn [bind] in H. destruct (is_leaf node); [now apply IH in H|].
  destruct (nearest_neighbor_interchange mm0 mm1 bp DELTA node) as [v|e] eqn:E;
    [|discriminate H].
  apply nni_returns_no_move in E. subst v. cbn [bind unpack List.length Nat.eqb nth] in H.
  now apply IH in H.
Qed.

Lemma postorder_last (t : Tree) : exists l, postorder t = l ++ [[]].
Proof. destruct t as [nm s p q cs]. cbn [postorder]. eauto. Qed.

Lemma postorder_cherry (nm : string) (s : option (list Z)) (p : option matrix)
      (q : option tensor) (c1 c2 : Tree) :
  is_leaf c1 = true -> is_leaf c2 = true ->
  postorder (TreeNode nm s p q [c1; c2]) = [[0]; [1]; []].
Proof.
  destruct c1 as [n1 s1 p1 q1 [|x xs]]; [|discriminate].
  destruct c2 as [n2 s2 p2 q2 [|y ys]]; [|discriminate]. reflexivity.
Qed.

(** The first sweep gets to its end on exactly the trees that are a
    single leaf or two leaves under a root. *)
Lemma sweep_completes (mm0 mm1 : matrix) (bp : vector) (DELTA : R) (tree : Tree) :
  is_ok (nni_sweep mm0 mm1 bp DELTA (postorder tree) [] tree 0 None) = true <->
  (children tree = [] \/
   exists c1 c2, children tree = [c1; c2] /\ is_leaf c1 = true /\ is_leaf c2 = true).
Proof.
  split.
  - intros H.
    destruct (nni_sweep mm0 mm1 bp DELTA (postorder tree) [] tree 0 None) as [r|e] eqn:Hs;
      [|discriminate H].
    destruct (postorder_last tree) as [l Hl]. rewrite Hl in Hs.
    apply nni_sweep_app in Hs. cbn [nni_sweep position fold_left subtree bind] in Hs.
    destruct (is_leaf tree) eqn:El.
    + left. unfold is_leaf in El. destruct (children tree); [reflexivity|discriminate El].
    + right.
      destruct (nearest_neighbor_interchange mm0 mm1 bp DELTA tree) as [v|e] eqn:E;
        [|discriminate Hs].
      exact (nni_ok_cherry _ _ _ _ _ _ E).
  - intros [Hleaf|(c1 & c2 & Hc & H1 & H2)].
    + destruct tree as [nm s p q cs]. cbn [children] in Hleaf. subst cs. reflexivity.
    + destruct tree as [nm s p q cs]. cbn [children] in Hc. subst cs.
      rewrite (postorder_cherry nm s p q c1 c2 H1 H2).
      cbn [nni_sweep position fold_left subtree children nth_error bind].
      rewrite H1, H2.
      replace (is_leaf (TreeNode nm s p q [c1; c2])) with false by reflexivity.
      rewrite (nni_both_leaves mm0 mm1 bp DELTA (TreeNode nm s p q [c1; c2]) c1 c2
                               eq_refl H1 H2).
      reflexivity.
Qed.

(** X17.  [recursive_NNI] returns on no tree.  [nearest_neighbor_interchange]
    returns only at a node with two children that are both leaves, and
    then reports that there is nothing to exchange; so on a tree that
    is a single leaf or two leaves under a root the sweep completes,
    nothing was assigned to [PL], and [return tree,PL] raises
    [UnboundLocalError]; on every other tree an interchange raises
    [TypeError] or [ValueError] in the first sweep. *)
Theorem X_recursive_NNI_never_returns (mm0 mm1 : matrix) (bp : vector) (DELTA : R)
        (tree : Tree) (fuel : nat) :
  exists e,
    recursive_NNI mm0 mm1 bp DELTA (S fuel) tree = Some (Raise e) /\
    (e = UnboundLocalError \/ e = TypeError \/ e = ValueError) /\
    (e = UnboundLocalError <->
     (children tree = [] \/
      exists c1 c2, children tree = [c1; c2] /\ is_leaf c1 = true /\ is_leaf c2 = true)).
Proof.
  rewrite recursive_NNI_one_pass.
  pose proof (sweep_completes mm0 mm1 bp DELTA tree) as Hc.
  destruct (nni_sweep mm0 mm1 bp DELTA (postorder tree) [] tree 0 None) as [r|e] eqn:E.
  - exists UnboundLocalError. split; [reflexivity|]. split; [now left|].
    split; [intros _; now apply Hc|reflexivity].
  - exists e. split; [reflexivity|].
    pose proof (nni_sweep_raises mm0 mm1 bp DELTA _ _ _ _ _ (postorder_subtree tree) E) as He.
    split; [now right|].
    split.
    + intros ->. destruct He; discriminate.
    + intros H. apply Hc in H. discriminate H.
Qed.

(** X18.  [recursive_reroot] does not return, whatever it is given: where a
    call of [reroot] inside it returns, the three results are unpacked
    into two names. *)
Theorem X_recursive_reroot_never_returns (mm0 mm1 : matrix) (bp : vector) (DELTA : R)
        (tree : Tree) :
  (forall v, recursive_reroot mm0 mm1 bp DELTA tree <> Ok v) /\
  (forall t v,
     reroot_sweep mm0 mm1 bp DELTA (iter_descendants tree) [] tree = Ok t ->
     reroot [VTree t; VArray mm0; VArray mm1; VVector bp; VFloat DELTA] = Ok v ->
     recursive_reroot mm0 mm1 bp DELTA tree = Raise ValueError).
Proof.
  split.
  - intros v H. pose proof (recursive_reroot_never_returns mm0 mm1 bp DELTA tree) as Hn.
    rewrite H in Hn. discriminate Hn.
  - intros t v Hs Hr. unfold recursive_reroot. rewrite Hs. cbn [bind].
    exact (unpack2_of_triple _ _ v Hr).
Qed.

End SearchReturns.

